(** * mail_analysis: the concurrent IMAP scraper of [gmail.py]

    A shallow embedding of [src/gmail.py]: the [Gmail] session wrapper,
    the lock-guarded list of available connection ids, the worker function
    [round_robin_connections], and the two [pool.map_async(...).get()]
    phases of [scrape].

    Threads are modelled by an interleaving semantics: a schedule is a list
    of thread numbers, and [step w] lets worker [w] run up to its next
    observable point (the two [with lock:] blocks of the worker function are
    each one atomic step, and so is the put of what a chunk came to on the
    out-queue of the pool); a number that names no worker gives the turn to
    the result handler of the pool, which sets the entries of the out-queue
    in the job, one a turn.  Everything is executable.

    [src/analyze.py], the analysis of the scraped emails, is embedded in
    the module [analyze] below. *)

From stdpp Require Import base list strings gmap.
From Stdlib Require Import Ascii Lia Sorted.



(** ** Python strings *)

Module PyStr.

(** The double quote character, code 34. *)
Definition dquote : ascii := Ascii false true false false false true false false.

(** [s.startswith(p)] *)
Fixpoint startswith (s p : string) {struct p} : bool :=
  match p, s with
  | EmptyString, _ => true
  | String _ _, EmptyString => false
  | String a p', String b s' => if decide (a = b) then startswith s' p' else false
  end.

(** [sub in s]: [sub] occurs in [s] as a substring. *)
Fixpoint contains (sub s : string) : bool :=
  startswith s sub ||
  match s with
  | EmptyString => false
  | String _ s' => contains sub s'
  end.

(** [s.split(sep)] for a non-empty separator: a left-to-right scan for
    non-overlapping occurrences of [sep].  [cur] is the piece being read,
    [skip] counts the characters of a separator still to be passed over. *)
Fixpoint split_go (sep : string) (skip : nat) (cur : string) (s : string) : list string :=
  match s with
  | EmptyString => [cur]
  | String c s' =>
      match skip with
      | S k => split_go sep k cur s'
      | O =>
          if startswith s sep
          then cur :: split_go sep (String.length sep - 1) "" s'
          else split_go sep 0 (cur +:+ String c "") s'
      end
  end.

Definition split (s sep : string) : list string := split_go sep 0 "" s.

(** [s.split()]: the words of [s], separated by runs of white space. *)
Definition split_ws (s : string) : list string := String.words s.

(** [s[:-1]] *)
Fixpoint drop_last (s : string) : string :=
  match s with
  | EmptyString => ""
  | String c s' =>
      match s' with
      | EmptyString => ""
      | String _ _ => String c (drop_last s')
      end
  end.

(** [l[-1]] for a list of strings that is never empty ([split] returns at
    least one piece). *)
Definition last_item (l : list string) : string := List.last l "".

End PyStr.

(** ** Exceptions and results *)

Inductive exn :=
| Exception (msg : string)          (* [raise Exception(msg)] in gmail.py *)
| IMAP4_error (msg : string)        (* [imaplib.IMAP4.error] *)
| IndexError (msg : string)
| TypeError (msg : string).

Inductive result (A : Type) :=
| Return (a : A)
| Raise (e : exn).
Arguments Return {A} a.
Arguments Raise {A} e.

#[export] Instance exn_eq_dec : EqDecision exn.
Proof. solve_decision. Defined.

(** ** The part of Python's [imaplib] that [gmail.py] calls *)

Module imaplib.

(** The type of a tagged completion response. *)
Inductive typ := OK | NO | BAD.

#[global] Instance typ_eq_dec : EqDecision typ.
Proof. solve_decision. Defined.

(** What the remote server answers.  The mailboxes of the scraped account
    are only read, so an answer depends on the request alone. *)
Record Server := {
  LOGIN : string → string → typ;
  LIST : typ * list string;
  SELECT : string → typ;
  SEARCH_ALL : string → typ * string;
  FETCH_RFC822 : string → string → typ * string;
}.

(** [IMAP4.state], with the mailbox the session has selected. *)
Inductive state := AUTH | SELECTED (mailbox : string).

(** A command: a computation over the session state that may raise. *)
Definition command (A : Type) : Type := state → result A * state.

Definition ret {A} (a : A) : command A := λ s, (Return a, s).
Definition raise {A} (e : exn) : command A := λ s, (Raise e, s).
Definition bind {A B} (m : command A) (k : A → command B) : command B :=
  λ s, match m s with
       | (Return a, s') => k a s'
       | (Raise e, s') => (Raise e, s')
       end.
Definition get_state : command state := λ s, (Return s, s).
Definition set_state (s' : state) : command unit := λ _, (Return tt, s').

(** [IMAP4._command_complete]: a BAD completion raises [IMAP4.error]. *)
Definition command_complete {A} (name : string) (r : typ * A) : command (typ * A) :=
  match r.1 with
  | BAD => raise (IMAP4_error (name +:+ " command error: BAD"))
  | _ => ret r
  end.

(** [IMAP4._command]: SEARCH and FETCH are legal in state SELECTED only. *)
Definition illegal (name : string) : exn :=
  IMAP4_error ("command " +:+ name +:+ " illegal in state AUTH, only allowed in states SELECTED").

Section Session.
Variable srv : Server.

(** [IMAP4.login]. *)
Definition login (user password : string) : result state :=
  match LOGIN srv user password with
  | OK => Return AUTH
  | NO => Raise (IMAP4_error "LOGIN failed")
  | BAD => Raise (IMAP4_error "LOGIN command error: BAD")
  end.

(** [IMAP4.list()]: legal in both states. *)
Definition list : command (typ * list string) :=
  command_complete "LIST" (LIST srv).

(** [IMAP4.select(mailbox)]: a completion other than OK leaves the session
    in state AUTH. *)
Definition select (mailbox : string) : command typ :=
  bind (command_complete "SELECT" (SELECT srv mailbox, tt)) (λ r,
    match r.1 with
    | OK => bind (set_state (SELECTED mailbox)) (λ _, ret OK)
    | t => bind (set_state AUTH) (λ _, ret t)
    end).

(** [IMAP4.search(None, 'ALL')] *)
Definition search_all : command (typ * string) :=
  bind get_state (λ s,
    match s with
    | AUTH => raise (illegal "SEARCH")
    | SELECTED mailbox => command_complete "SEARCH" (SEARCH_ALL srv mailbox)
    end).

(** [IMAP4.fetch(message_num, '(RFC822)')]; the answer is the message body
    ([content[0][1]] in the caller). *)
Definition fetch (message_num : string) : command (typ * string) :=
  bind get_state (λ s,
    match s with
    | AUTH => raise (illegal "FETCH")
    | SELECTED mailbox => command_complete "FETCH" (FETCH_RFC822 srv mailbox message_num)
    end).

End Session.
End imaplib.

Notation "x <- m ;; k" := (imaplib.bind m (λ x, k))
  (at level 100, m at next level, right associativity, only parsing).

(** ** class Gmail *)

(** [IMAP_OK = 'OK'] *)
Definition IMAP_OK : imaplib.typ := imaplib.OK.

(** [CONNECTION_POOL_SIZE = 10] *)
Definition CONNECTION_POOL_SIZE : nat := 10.

(** An instance: [self.imap], its [imaplib] session, and [self.id]. *)
Record Gmail := { self_imap : imaplib.state; self_id : nat }.

(** [email.message_from_string(body)]: the parsed message, opaque here. *)
Inductive Message := message_from_string (body : string).

#[export] Instance Message_eq_dec : EqDecision Message.
Proof. solve_decision. Defined.

(** The marker of the provider's reserved namespace. *)
Definition marker : string := "[Gmail]".

(** The separator [" "] (quote, space, quote) of [parse_mailbox]. *)
Definition quote_space_quote : string :=
  String PyStr.dquote (String " "%char (String PyStr.dquote "")).

(** [parse_mailbox = lambda mailbox: mailbox.split(sep)[-1][:-1]] *)
Definition parse_mailbox (mailbox : string) : string :=
  PyStr.drop_last (PyStr.last_item (PyStr.split mailbox quote_space_quote)).

Section Gmail.
Variable srv : imaplib.Server.

(** Run a command on the session of [self]. *)
Definition on_imap {A} (self : Gmail) (m : imaplib.command A) : result A * Gmail :=
  let '(r, s) := m (self_imap self) in (r, {| self_imap := s; self_id := self_id self |}).

(** [Gmail.__init__(self, host, user, password, id_)] *)
Definition Gmail_init (host user password : string) (id_ : nat) : result Gmail :=
  match imaplib.login srv user password with
  | Return s => Return {| self_imap := s; self_id := id_ |}
  | Raise e => Raise e
  end.

(** [Gmail.get_mailboxes]: the generator, forced. *)
Definition wanted (mailboxes : list string) : list string :=
  parse_mailbox <$> filter (λ m, PyStr.contains marker m = false) mailboxes.

Definition get_mailboxes (self : Gmail) : result (list string) * Gmail :=
  on_imap self (
    r <- imaplib.list srv ;;
    imaplib.ret (wanted r.2)).

(** [Gmail.fetch_message_ids]: the status of [select] is stored and then
    overwritten by the status of [search]. *)
Definition fetch_message_ids (mailbox : string) (self : Gmail)
  : result (string * list string) * Gmail :=
  on_imap self (
    status <- imaplib.select srv mailbox ;;
    r <- imaplib.search_all srv ;;
    let '(status, data) := r in
    if decide (status ≠ IMAP_OK)
    then imaplib.raise (Exception ("Failed to fetch messages for mailbox " +:+ mailbox +:+ "."))
    else
      let message_nums := PyStr.split_ws data in
      imaplib.ret (mailbox, message_nums)).

(** [Gmail.fetch_message] *)
Definition fetch_message (args : string * string) (self : Gmail)
  : result Message * Gmail :=
  let '(mailbox, message_num) := args in
  on_imap self (
    _ <- imaplib.select srv mailbox ;;
    r <- imaplib.fetch srv message_num ;;
    let '(status, content) := r in
    if decide (status ≠ IMAP_OK)
    then imaplib.raise (Exception ("Failed to retrieve message " +:+ message_num +:+
                                   " from mailbox " +:+ mailbox +:+ "."))
    else
      let body := content in
      imaplib.ret (message_from_string body)).

End Gmail.

(** ** The list of available connection ids *)

(** [list.pop()]: remove and return the last item; [None] stands for the
    [IndexError] of an empty list. *)
Fixpoint pop (l : list nat) : option (nat * list nat) :=
  match l with
  | [] => None
  | x :: l' =>
      match pop l' with
      | None => Some (x, [])
      | Some (y, r) => Some (y, x :: r)
      end
  end.

(** [list.append(x)] *)
Definition append (l : list nat) (x : nat) : list nat := l ++ [x].

(** The state shared by the workers of [scrape]: [avail_connections], the
    [connections] themselves, and, as a ghost field that the program does
    not store, the ids that were popped at line 112 and not appended back
    at line 116 ([leased]). *)
Record registry := {
  avail_connections : list nat;
  connections : list Gmail;
  leased : list nat;
}.

(** Line 99: [avail_connections = manager.list(range(CONNECTION_POOL_SIZE))],
    beside the connections of lines 88-89. *)
Definition new_registry (size : nat) (conns : list Gmail) : registry :=
  {| avail_connections := seq 0 size;
     connections := conns;
     leased := [] |}.

(** Lines 111-112, the first [with lock:] block. *)
Definition acquire (reg : registry) : option (nat * registry) :=
  match pop (avail_connections reg) with
  | None => None
  | Some (connection_id, rest) =>
      Some (connection_id,
            {| avail_connections := rest;
               connections := connections reg;
               leased := connection_id :: leased reg |})
  end.

(** Lines 115-116, the second [with lock:] block. *)
Definition release (connection_id : nat) (reg : registry) : registry :=
  {| avail_connections := append (avail_connections reg) connection_id;
     connections := connections reg;
     leased := filter (λ x, x ≠ connection_id) (leased reg) |}.

(** Line 114 on the connection of id [connection_id]; the lookup
    [connections[connection_id]] of line 113 is made here. *)
Definition call {T V} (method : T → Gmail → result V * Gmail)
    (connection_id : nat) (func_args : T) (reg : registry) : result V * registry :=
  match connections reg !! connection_id with
  | None => (Raise (IndexError "list index out of range"), reg)
  | Some connection =>
      let '(res, connection') := method func_args connection in
      (res, {| avail_connections := avail_connections reg;
               connections := <[connection_id := connection']> (connections reg);
               leased := leased reg |})
  end.

(** ** multiprocessing.pool.ThreadPool *)

(** [chunksize, extra = divmod(len(iterable), len(self._pool) * 4)], plus
    one if [extra], and 0 for an empty iterable. *)
Definition chunksize_of (len nworkers : nat) : nat :=
  if decide (len = 0) then 0
  else
    let chunksize := len / (nworkers * 4) in
    let extra := len mod (nworkers * 4) in
    if decide (extra = 0) then chunksize else chunksize + 1.

(** [Pool._get_tasks]: slices of [size] items until a slice is empty. The
    loop runs at most [length it] times for a positive [size]. *)
Fixpoint get_tasks_go {T} (fuel size : nat) (it : list T) : list (list T) :=
  match fuel with
  | O => []
  | S fuel' =>
      match take size it with
      | [] => []
      | x => x :: get_tasks_go fuel' size (drop size it)
      end
  end.

Definition get_tasks {T} (size : nat) (it : list T) : list (list T) :=
  get_tasks_go (length it) size it.

(** [length // chunksize + bool(length % chunksize)], the number of chunks
    of a job. *)
Definition nchunks (size len : nat) : nat :=
  len / size + (if decide (len mod size = 0) then 0 else 1).

Section ThreadPool.
Context {T V : Type}.

(** [getattr(connection, selector)], applied to [func_args]: within one
    [map_async] of [scrape] every task has the same selector. *)
Variable method : T → Gmail → result V * Gmail.

(** [MapResult]: [value] is [self._value] while the job succeeds (a slot is
    [None] until its chunk is set), [failure] is the exception stored by a
    failed chunk ([self._success] is then false). *)
Record MapResult := {
  value : list (option V);
  number_left : nat;
  chunksize : nat;
  ready : bool;
  failure : option exn;
}.

(** [MapResult.__init__] *)
Definition MapResult_init (size len : nat) : MapResult :=
  {| value := replicate len None;
     number_left := if decide (size = 0) then 0 else nchunks size len;
     chunksize := size;
     ready := bool_decide (size = 0);
     failure := None |}.

(** [MapResult._set(i, (success, result))]; a job that is ready has left
    the cache and is no longer set. *)
Definition MapResult_set (i : nat) (r : result (list V)) (m : MapResult) : MapResult :=
  if ready m then m
  else
    match r with
    | Return res =>
        let n := number_left m - 1 in
        {| value := take (i * chunksize m) (value m) ++ (Some <$> res)
                    ++ drop ((i + 1) * chunksize m) (value m);
           number_left := n;
           chunksize := chunksize m;
           ready := bool_decide (n = 0);
           failure := failure m |}
    | Raise e =>
        {| value := value m;
           number_left := number_left m;
           chunksize := chunksize m;
           ready := true;
           failure := Some e |}
    end.

(** [MapResult.get()], once the job is ready. *)
Definition MapResult_get (m : MapResult) : option (result (list (option V))) :=
  if ready m
  then Some (match failure m with
             | Some e => Raise e
             | None => Return (value m)
             end)
  else None.

(** Where a worker thread stands: waiting for a task, or inside chunk [i]
    with the results [done] of the chunk so far and the tasks [todo] left,
    at one of the observable points of [round_robin_connections]. *)
Inductive worker :=
| Idle
| Running (i : nat) (done : list V) (todo : list T)
| Leased (i : nat) (done : list V) (connection_id : nat) (args : T) (todo : list T)
| Releasing (i : nat) (done : list V) (connection_id : nat) (res : V) (todo : list T)
| Raised (i : nat) (e : exn).

(** The pool and its job: the worker threads take chunks from [taskqueue]
    and put what a chunk came to, with the number of the chunk, on
    [outqueue]; the result-handler thread takes the entries of [outqueue]
    in their order and sets them in the job. *)
Record state := {
  pool : registry;
  taskqueue : list (nat * list T);
  workers : list worker;
  outqueue : list (nat * result (list V));
  job : MapResult;
}.

Definition set_worker (w : nat) (x : worker) (st : state) : state :=
  {| pool := pool st; taskqueue := taskqueue st;
     workers := <[w := x]> (workers st); outqueue := outqueue st; job := job st |}.

Definition set_pool (reg : registry) (st : state) : state :=
  {| pool := reg; taskqueue := taskqueue st; workers := workers st;
     outqueue := outqueue st; job := job st |}.

(** [put((job, i, result))] in [worker] *)
Definition put (i : nat) (r : result (list V)) (st : state) : state :=
  {| pool := pool st; taskqueue := taskqueue st; workers := workers st;
     outqueue := outqueue st ++ [(i, r)]; job := job st |}.

(** One turn of [Pool._handle_results]: [cache[job]._set(i, obj)] for the
    first entry of the queue; [None] when the queue is empty. *)
Definition handle_results (st : state) : option state :=
  match outqueue st with
  | [] => None
  | (i, obj) :: rest =>
      Some {| pool := pool st; taskqueue := taskqueue st; workers := workers st;
              outqueue := rest; job := MapResult_set i obj (job st) |}
  end.

(** One step of thread [w]: worker [w] of the pool or, for a number that
    names no worker, the result handler; [None] when the thread is blocked
    on an empty queue. *)
Definition step (w : nat) (st : state) : option state :=
  match workers st !! w with
  | None => handle_results st
  | Some Idle =>
      match taskqueue st with
      | [] => None
      | (i, chunk) :: rest =>
          Some {| pool := pool st; taskqueue := rest;
                  workers := <[w := Running i [] chunk]> (workers st);
                  outqueue := outqueue st;
                  job := job st |}
      end
  | Some (Running i done []) =>
      Some (set_worker w Idle (put i (Return done) st))
  | Some (Running i done (args :: todo)) =>
      match acquire (pool st) with
      | None => Some (set_worker w (Raised i (IndexError "pop from empty list")) st)
      | Some (connection_id, reg) =>
          Some (set_worker w (Leased i done connection_id args todo) (set_pool reg st))
      end
  | Some (Leased i done connection_id args todo) =>
      match call method connection_id args (pool st) with
      | (Return res, reg) =>
          Some (set_worker w (Releasing i done connection_id res todo) (set_pool reg st))
      | (Raise e, reg) =>
          Some (set_worker w (Raised i e) (set_pool reg st))
      end
  | Some (Releasing i done connection_id res todo) =>
      Some (set_worker w (Running i (done ++ [res]) todo)
              (set_pool (release connection_id (pool st)) st))
  | Some (Raised i e) =>
      Some (set_worker w Idle (put i (Raise e) st))
  end.

(** A schedule names the thread that moves next; a thread that cannot move
    leaves the state as it is. *)
Definition run_worker (st : state) (w : nat) : state := default st (step w st).

Definition exec (sched : list nat) (st : state) : state := foldl run_worker st sched.

(** [pool.map_async(round_robin_connections, tasks)] on a pool of
    [nworkers] idle threads. *)
Definition map_async (nworkers : nat) (tasks : list T) (reg : registry) : state :=
  let size := chunksize_of (length tasks) nworkers in
  {| pool := reg;
     taskqueue := imap (λ i x, (i, x)) (get_tasks size tasks);
     workers := replicate nworkers Idle;
     outqueue := [];
     job := MapResult_init size (length tasks) |}.

(** [pool.map_async(round_robin_connections, tasks).get()] under a
    schedule; [None] when the schedule ends before the job is ready. *)
Definition map_async_get (nworkers : nat) (tasks : list T) (sched : list nat)
    (reg : registry) : option (result (list (option V)) * registry) :=
  let st := exec sched (map_async nworkers tasks reg) in
  (λ r, (r, pool st)) <$> MapResult_get (job st).

End ThreadPool.

(** ** scrape *)

(** Line 133: [[(mailbox, id_) for mailbox, ids in message_ids for id_ in ids]].
    Unpacking a slot that is still [None] would raise [TypeError]. *)
Fixpoint flat (message_ids : list (option (string * list string)))
  : result (list (string * string)) :=
  match message_ids with
  | [] => Return []
  | None :: _ => Raise (TypeError "'NoneType' object is not iterable")
  | Some (mailbox, ids) :: rest =>
      match flat rest with
      | Return l => Return (((λ id_, (mailbox, id_)) <$> ids) ++ l)
      | Raise e => Raise e
      end
  end.

Section Scrape.
Variable srv : imaplib.Server.

(** [multiprocessing.cpu_count()] *)
Variable cpu_count : nat.

(** Lines 88-89: [[Gmail(imap_host, user, password, i) for i in range(...)]] *)
Fixpoint make_connections (imap_host user password : string) (ids : list nat)
  : result (list Gmail) :=
  match ids with
  | [] => Return []
  | i :: rest =>
      match Gmail_init srv imap_host user password i with
      | Raise e => Raise e
      | Return c =>
          match make_connections imap_host user password rest with
          | Return l => Return (c :: l)
          | Raise e => Raise e
          end
      end
  end.

(** Lines 122-123: the mailboxes given, or those listed by [connections[0]]. *)
Definition default_mailboxes (mailboxes : option (list string)) (reg : registry)
  : result (list string) * registry :=
  match mailboxes with
  | Some m => (Return m, reg)
  | None =>
      match connections reg !! 0 with
      | None => (Raise (IndexError "list index out of range"), reg)
      | Some c =>
          let '(r, c') := get_mailboxes srv c in
          (r, {| avail_connections := avail_connections reg;
                 connections := <[0 := c']> (connections reg);
                 leased := leased reg |})
      end
  end.

(** [scrape(imap_host, user, password, mailboxes=None)], under a schedule
    for each of its two [map_async] phases.  [None]: a schedule ended
    before its job was ready. *)
Definition scrape (imap_host user password : string) (mailboxes : option (list string))
    (sched_ids sched_messages : list nat) : option (result (list (option Message))) :=
  match make_connections imap_host user password (seq 0 CONNECTION_POOL_SIZE) with
  | Raise e => Some (Raise e)
  | Return conns =>
      let reg := new_registry CONNECTION_POOL_SIZE conns in
      let workers := length conns `min` (cpu_count * 2) in
      match default_mailboxes mailboxes reg with
      | (Raise e, _) => Some (Raise e)
      | (Return mailboxes, reg) =>
          let tasks := mailboxes in
          match map_async_get (fetch_message_ids srv) workers tasks sched_ids reg with
          | None => None
          | Some (Raise e, _) => Some (Raise e)
          | Some (Return message_ids, reg) =>
              match flat message_ids with
              | Raise e => Some (Raise e)
              | Return flat =>
                  let tasks := flat in
                  match map_async_get (fetch_message srv) workers tasks sched_messages reg with
                  | None => None
                  | Some (messages, _) => Some messages
                  end
              end
          end
      end
  end.

(** The parsed command line of [__main__]; [--connections] defaults to
    [CONNECTION_POOL_SIZE]. *)
Record Namespace := {
  args_host : string;
  args_username : string;
  args_password : string;
  args_output_file : string;
  args_mailboxes : option (list string);
  args_connections : nat;
}.

(** Line 156: [scrape(args.host, args.username, args.password, mailboxes=args.mailboxes)] *)
Definition main (args : Namespace) (sched_ids sched_messages : list nat)
  : option (result (list (option Message))) :=
  scrape (args_host args) (args_username args) (args_password args) (args_mailboxes args)
    sched_ids sched_messages.

End Scrape.

(** ** Sequential histories of the lease registry *)

(** An operation on the registry: the first or the second [with lock:]
    block of [round_robin_connections]. *)
Inductive pool_op :=
| Acquire
| Release (connection_id : nat).

(** Replay a history, one operation after the other; the ids that the
    acquires returned are collected in order.  [None]: an acquire found the
    list empty. *)
Fixpoint replay (h : list pool_op) (reg : registry) : option (list nat * registry) :=
  match h with
  | [] => Some ([], reg)
  | Acquire :: h' =>
      match acquire reg with
      | None => None
      | Some (connection_id, reg') =>
          match replay h' reg' with
          | None => None
          | Some (got, reg'') => Some (connection_id :: got, reg'')
          end
      end
  | Release connection_id :: h' => replay h' (release connection_id reg)
  end.

(** ** Invariants of a run of the worker pool *)

Section Invariant.
Context {T V : Type}.
Variable method : T → Gmail → result V * Gmail.

(** The outcome of a task, on whatever session it runs. *)
Definition returns (args : T) (res : V) : Prop :=
  ∀ self, (method args self).1 = Return res.

Definition raises (args : T) (e : exn) : Prop :=
  ∀ self, (method args self).1 = Raise e.

(** The chunk a worker is in, and the connection id it holds. *)
Definition job_of (x : @worker T V) : option nat :=
  match x with
  | Idle => None
  | Running i _ _ | Leased i _ _ _ _ | Releasing i _ _ _ _ | Raised i _ => Some i
  end.

Definition held (x : @worker T V) : option nat :=
  match x with
  | Leased _ _ c _ _ | Releasing _ _ c _ _ => Some c
  | _ => None
  end.

Definition busy (x : @worker T V) : nat :=
  match x with
  | Idle => 0
  | _ => 1
  end.


(** An entry of the out-queue that hands in a failure. *)
Definition failed (p : nat * result (list V)) : Prop := ∃ e, p.2 = Raise e.

(** No failure has been handed in: none is recorded in the job and none
    waits on the out-queue. *)
Definition no_failure (st : @state T V) : Prop :=
  failure (job st) = None ∧ Forall (λ p, ¬ failed p) (outqueue st).

(** No task has raised so far: no failure has been handed in and no worker
    is about to hand one in. *)
Definition no_task_raised (st : @state T V) : Prop :=
  no_failure st ∧ Forall (λ x, ∀ i e, x ≠ Raised i e) (workers st).

(** A worker between its pop and the end of its chunk: the id it popped is
    in use or, once its call has raised, was never appended back. *)
Definition lease (x : @worker T V) : nat :=
  match x with
  | Leased _ _ _ _ _ | Releasing _ _ _ _ _ | Raised _ _ => 1
  | _ => 0
  end.

(** The ids split into available and leased ones, and every id has its
    connection. *)
Definition registry_inv (N : nat) (reg : registry) : Prop :=
  avail_connections reg ++ leased reg ≡ₚ seq 0 N ∧ length (connections reg) = N.

(** A pool as [scrape] has it before a [map_async]: nothing leased. *)
Definition fresh_pool (N : nat) (reg : registry) : Prop :=
  registry_inv N reg ∧ leased reg = [].

(** The registry seen from the workers: the ids split as above, a worker
    between its two [with lock:] blocks holds a leased id, and no two
    workers hold the same id. *)
Definition pool_inv (N : nat) (st : @state T V) : Prop :=
  registry_inv N (pool st) ∧
  (∀ w c, (held <$> workers st) !! w = Some (Some c) → c ∈ leased (pool st)) ∧
  (∀ w1 w2 c,
     (held <$> workers st) !! w1 = Some (Some c) →
     (held <$> workers st) !! w2 = Some (Some c) → w1 = w2).

Variable N W : nat.
Variable tasks : list T.

Definition chunks_of : list (list T) :=
  get_tasks (chunksize_of (length tasks) W) tasks.

(** What a worker has done of its chunk is the results of the tasks before
    [todo]; an exception that a worker is about to hand in comes from a
    task of the chunk, as long as no failure was handed in before ([ok]). *)
Definition worker_ok (ok : Prop) (x : @worker T V) : Prop :=
  match x with
  | Idle => True
  | Running i done todo =>
      ∃ pre, chunks_of !! i = Some (pre ++ todo) ∧ Forall2 returns pre done
  | Leased i done c args todo =>
      ∃ pre, chunks_of !! i = Some (pre ++ args :: todo) ∧ Forall2 returns pre done
  | Releasing i done c res todo =>
      ∃ pre args, chunks_of !! i = Some (pre ++ args :: todo) ∧
                  Forall2 returns pre done ∧ returns args res
  | Raised i e =>
      ok → ∃ chunk args, chunks_of !! i = Some chunk ∧ args ∈ chunk ∧ raises args e
  end.

(** Chunk [i] is still in the task queue, in the hands of a worker or on
    the out-queue. *)
Definition pending (st : @state T V) (k i : nat) : Prop :=
  k ≤ i ∨ Some i ∈ job_of <$> workers st ∨ i ∈ (outqueue st).*1.

(** The slots of a chunk: empty while it is pending, then its results. *)
Definition slots_ok (st : @state T V) (k i : nat) (chunk : list T) (vs : list (option V)) : Prop :=
  length vs = length chunk ∧
  (pending st k i → vs = replicate (length chunk) None) ∧
  (¬ pending st k i → Forall2 (λ args ov, ∃ res, ov = Some res ∧ returns args res) chunk vs).

(** The pool and the job while no failure has been handed in. *)
Record job_ok (st : @state T V) (k : nat) : Prop := {
  ok_leases : length (leased (pool st)) = sum_list_with lease (workers st);
  ok_out : ∀ i r, (i, r) ∈ outqueue st →
           ∃ chunk res, r = Return res ∧ chunks_of !! i = Some chunk ∧
                        Forall2 returns chunk res;
  ok_value : ∃ vals, value (job st) = concat vals ∧ length vals = length chunks_of ∧
             ∀ i chunk vs, chunks_of !! i = Some chunk → vals !! i = Some vs →
                           slots_ok st k i chunk vs;
}.

(** The count of the job while no failure is recorded in it. *)
Record left_ok (st : @state T V) : Prop := {
  ok_ready : ready (job st) = bool_decide (number_left (job st) = 0);
  ok_left : number_left (job st)
            = length (taskqueue st) + sum_list_with busy (workers st)
              + length (outqueue st);
}.

(** The invariant of a run; [k] chunks have left the task queue. *)
Record inv (st : @state T V) (k : nat) : Prop := {
  inv_registry : registry_inv N (pool st);
  inv_workers : length (workers st) = W;
  inv_queue : taskqueue st = drop k (imap (λ i x, (i, x)) chunks_of);
  inv_next : k ≤ length chunks_of;
  inv_worker : ∀ w x, workers st !! w = Some x → worker_ok (no_failure st) x;
  inv_job_lt : ∀ w i, (job_of <$> workers st) !! w = Some (Some i) → i < k;
  inv_job_inj : ∀ w1 w2 i,
    (job_of <$> workers st) !! w1 = Some (Some i) →
    (job_of <$> workers st) !! w2 = Some (Some i) → w1 = w2;
  inv_out_lt : ∀ i, i ∈ (outqueue st).*1 → i < k;
  inv_out_NoDup : NoDup (outqueue st).*1;
  inv_out_job : ∀ w i, (job_of <$> workers st) !! w = Some (Some i) → i ∉ (outqueue st).*1;
  inv_held : ∀ w c, (held <$> workers st) !! w = Some (Some c) → c ∈ leased (pool st);
  inv_held_inj : ∀ w1 w2 c,
    (held <$> workers st) !! w1 = Some (Some c) →
    (held <$> workers st) !! w2 = Some (Some c) → w1 = w2;
  inv_chunksize : chunksize (job st) = chunksize_of (length tasks) W;
  inv_failed : failure (job st) ≠ None → ready (job st) = true;
  inv_error : ∀ e, failure (job st) = Some e → ∃ args, args ∈ tasks ∧ raises args e;
  inv_first : failure (job st) = None →
    ∀ pre i e post, outqueue st = pre ++ (i, Raise e) :: post → Forall (λ p, ¬ failed p) pre →
                    ∃ args, args ∈ tasks ∧ raises args e;
  inv_left : failure (job st) = None → left_ok st;
  inv_ok : no_failure st → job_ok st k;
}.

(** The work left in a state: every step of a thread takes some away. *)
Definition worker_weight (x : @worker T V) : nat :=
  match x with
  | Idle => 0
  | Running _ _ todo => 3 * length todo + 1
  | Leased _ _ _ _ todo => 3 * length todo + 3
  | Releasing _ _ _ _ todo => 3 * length todo + 2
  | Raised _ _ => 1
  end.

Definition weight (st : @state T V) : nat :=
  2 * (sum_list_with (λ c, 3 * length c.2 + 2) (taskqueue st)
       + sum_list_with worker_weight (workers st))
  + length (outqueue st).

(** The states that the threads can reach from the start of a
    [map_async]. *)
Definition reachable (reg : registry) (st : @state T V) : Prop :=
  ∃ sched, st = exec method sched (map_async W tasks reg).


End Invariant.

(** ** The flattening, as the specification words it *)

(** Per mailbox, in the order of the first phase, one pair per message id,
    in the order the mailbox enumerated them, all concatenated. *)
Definition flat_spec (message_ids : list (string * list string)) : list (string * string) :=
  concat ((λ p : string * list string, (λ id_, (p.1, id_)) <$> p.2) <$> message_ids).

(** ** Sessions, servers and schedules to run the model on *)

(** A session after login. *)
Definition session0 : Gmail := {| self_imap := imaplib.AUTH; self_id := 0 |}.

(** Every worker in turn and then the result handler, [rounds] times. *)
Definition round_robin (nworkers rounds : nat) : list nat :=
  concat (replicate rounds (seq 0 (S nworkers))).

(** The account of the end-to-end scenario: INBOX holds messages 1 and 2,
    Sent holds message 3; [status3] is the status of the fetch of message 3
    from Sent. *)
Definition scenario_server (status3 : imaplib.typ) : imaplib.Server :=
  {| imaplib.LOGIN := λ _ _, imaplib.OK;
     imaplib.LIST := (imaplib.OK, []);
     imaplib.SELECT := λ _, imaplib.OK;
     imaplib.SEARCH_ALL := λ mailbox,
       if decide (mailbox = "INBOX") then (imaplib.OK, "1 2") else (imaplib.OK, "3");
     imaplib.FETCH_RFC822 := λ mailbox message_num,
       if decide (message_num = "3")
       then (status3, "third")
       else (imaplib.OK, "body of " +:+ message_num) |}.

(** An account whose mailbox "broken" refuses the search; every other
    mailbox is empty. *)
Definition broken_server : imaplib.Server :=
  {| imaplib.LOGIN := λ _ _, imaplib.OK;
     imaplib.LIST := (imaplib.OK, []);
     imaplib.SELECT := λ _, imaplib.OK;
     imaplib.SEARCH_ALL := λ mailbox,
       if decide (mailbox = "broken") then (imaplib.NO, "") else (imaplib.OK, "");
     imaplib.FETCH_RFC822 := λ _ _, (imaplib.OK, "") |}.

(** Eleven mailboxes, the broken one first: with ten workers every chunk
    is one mailbox. *)
Definition broken_mailboxes : list string :=
  "broken" :: replicate 10 "INBOX".

(** Worker 0 takes the broken mailbox, pops an id, fails and puts the
    failure on the out-queue; then each of the ten workers takes a mailbox,
    and nine of them pop an id.  The result handler has no turn. *)
Definition leak_schedule : list nat :=
  [0; 0; 0; 0] ++ seq 0 10 ++ seq 0 9.


(** ** What a call of scrape comes to, whatever the schedules *)

Section Outcomes.
Variable srv : imaplib.Server.
Variables (imap_host user password : string) (mailboxes : option (list string)).

(** The mailboxes a call works on: those given, or those listed. *)
Definition mailboxes_used (mbs : list string) : Prop :=
  ∃ conns reg,
    make_connections srv imap_host user password (seq 0 CONNECTION_POOL_SIZE) = Return conns ∧
    default_mailboxes srv mailboxes (new_registry CONNECTION_POOL_SIZE conns) = (Return mbs, reg).

Inductive scrape_outcome : result (list (option Message)) → Prop :=
| login_raises e :
    make_connections srv imap_host user password (seq 0 CONNECTION_POOL_SIZE) = Raise e →
    scrape_outcome (Raise e)
| listing_raises conns e reg :
    make_connections srv imap_host user password (seq 0 CONNECTION_POOL_SIZE) = Return conns →
    default_mailboxes srv mailboxes (new_registry CONNECTION_POOL_SIZE conns) = (Raise e, reg) →
    scrape_outcome (Raise e)
| ids_raise mbs mailbox e :
    mailboxes_used mbs →
    mailbox ∈ mbs →
    raises (fetch_message_ids srv) mailbox e →
    scrape_outcome (Raise e)
| message_raises mbs message_ids pair e :
    mailboxes_used mbs →
    Forall2 (returns (fetch_message_ids srv)) mbs message_ids →
    pair ∈ flat_spec message_ids →
    raises (fetch_message srv) pair e →
    scrape_outcome (Raise e)
| messages_return mbs message_ids messages :
    mailboxes_used mbs →
    Forall2 (returns (fetch_message_ids srv)) mbs message_ids →
    Forall2 (returns (fetch_message srv)) (flat_spec message_ids) messages →
    scrape_outcome (Return (Some <$> messages)).

End Outcomes.

(** An entry of the answer to LIST: flags, the delimiter and the name, the
    last two between double quotes. *)
Definition listing_entry (flags name : string) : string :=
  flags +:+ " " +:+ String PyStr.dquote ("/" +:+ quote_space_quote +:+ name
        +:+ String PyStr.dquote "").

(** An account with INBOX, the provider's Trash and Sent. *)
Definition listing_server : imaplib.Server :=
  {| imaplib.LOGIN := λ _ _, imaplib.OK;
     imaplib.LIST := (imaplib.OK,
       [listing_entry "(\HasNoChildren)" "INBOX";
        listing_entry "(\HasNoChildren \Trash)" "[Gmail]/Trash";
        listing_entry "(\HasNoChildren)" "Sent"]);
     imaplib.SELECT := λ _, imaplib.OK;
     imaplib.SEARCH_ALL := λ _, (imaplib.OK, "");
     imaplib.FETCH_RFC822 := λ _ _, (imaplib.OK, "") |}.

(** ** Tactics *)

(** Unfold the methods of [Gmail] down to the answers of the server. *)
Ltac unfold_imap :=
  cbv beta iota zeta delta
    [fetch_message_ids fetch_message get_mailboxes on_imap imaplib.bind imaplib.select
     imaplib.search_all imaplib.fetch imaplib.list imaplib.command_complete
     imaplib.get_state imaplib.set_state imaplib.ret imaplib.raise IMAP_OK] in *;
  simpl in *.

(** ** More about the sessions of the pool *)

(** An id that was popped and that no worker holds any more: its task
    raised at line 114, before the append of line 116. *)
Definition leaked {T V} (st : @state T V) (c : nat) : Prop :=
  c ∈ leased (pool st) ∧ Some c ∉ held <$> workers st.

(** The connection at index [i] carries the id [i]. *)
Definition ids_match (reg : registry) : Prop :=
  ∀ i c, connections reg !! i = Some c → self_id c = i.

(** * analyze.py *)

Module analyze.

(** ** The methods of [str] that the module calls *)

Definition is_upper (c : ascii) : bool :=
  (65 <=? nat_of_ascii c) && (nat_of_ascii c <=? 90).

Definition is_lower (c : ascii) : bool :=
  (97 <=? nat_of_ascii c) && (nat_of_ascii c <=? 122).

Definition is_digit (c : ascii) : bool :=
  (48 <=? nat_of_ascii c) && (nat_of_ascii c <=? 57).

(** The white space of [str.strip]: tab, line feed, vertical tab, form
    feed, carriage return and space. *)
Definition is_space (c : ascii) : bool :=
  ((9 <=? nat_of_ascii c) && (nat_of_ascii c <=? 13)) || (nat_of_ascii c =? 32).

Definition lower_char (c : ascii) : ascii :=
  if is_upper c then ascii_of_nat (nat_of_ascii c + 32) else c.

(** [s.lower()] on a byte string: the letters A-Z only. *)
Fixpoint lower (s : string) : string :=
  match s with
  | EmptyString => EmptyString
  | String c s' => String (lower_char c) (lower s')
  end.

Fixpoint lstrip (s : string) : string :=
  match s with
  | EmptyString => EmptyString
  | String c s' => if is_space c then lstrip s' else s
  end.

Definition rstrip (s : string) : string := String.rev (lstrip (String.rev s)).

(** [s.strip()] *)
Definition strip (s : string) : string := rstrip (lstrip s).

(** The truth value of a string. *)
Definition truthy (s : string) : bool :=
  match s with EmptyString => false | String _ _ => true end.

(** [sep.join(l)] *)
Fixpoint join (sep : string) (l : list string) : string :=
  match l with
  | [] => EmptyString
  | [x] => x
  | x :: l' => x +:+ sep +:+ join sep l'
  end.

Definition CR : ascii := ascii_of_nat 13.
Definition LF : ascii := ascii_of_nat 10.
Definition CRLF : string := String CR (String LF EmptyString).

(** ** Regular expressions

    The patterns of the module use literals, character classes, bounded
    repetition and [+] only, and the module only asks whether [re.search]
    finds a match, or, for the one pattern with a group, where the leftmost
    match is. *)

Inductive regex : Type :=
| Void
| Eps
| Class (f : ascii → bool)
| Seq (r s : regex)
| Alt (r s : regex)
| Star (r : regex).

Fixpoint nullable (r : regex) : bool :=
  match r with
  | Void => false
  | Eps => true
  | Class _ => false
  | Seq r s => nullable r && nullable s
  | Alt r s => nullable r || nullable s
  | Star _ => true
  end.

(** The derivative of [r] by the character [c]. *)
Fixpoint deriv (c : ascii) (r : regex) : regex :=
  match r with
  | Void => Void
  | Eps => Void
  | Class f => if f c then Eps else Void
  | Seq r s =>
      if nullable r then Alt (Seq (deriv c r) s) (deriv c s) else Seq (deriv c r) s
  | Alt r s => Alt (deriv c r) (deriv c s)
  | Star r => Seq (deriv c r) (Star r)
  end.

(** The whole of [s] matches [r]. *)
Fixpoint matches (r : regex) (s : string) : bool :=
  match s with
  | EmptyString => nullable r
  | String c s' => matches (deriv c r) s'
  end.

(** The strings that match [r] as a whole. *)
Inductive lang : regex → string → Prop :=
| lang_Eps : lang Eps EmptyString
| lang_Class f c : f c = true → lang (Class f) (String c EmptyString)
| lang_Seq r s a b : lang r a → lang s b → lang (Seq r s) (a +:+ b)
| lang_Alt_l r s a : lang r a → lang (Alt r s) a
| lang_Alt_r r s a : lang s a → lang (Alt r s) a
| lang_Star_nil r : lang (Star r) EmptyString
| lang_Star_cons r a b : lang r a → lang (Star r) b → lang (Star r) (a +:+ b).

Definition anything : regex := Star (Class (λ _, true)).

(** The truth value of [re.search(r, s)]: some part of [s] matches [r]. *)
Definition search (r : regex) (s : string) : bool :=
  matches (Seq anything (Seq r anything)) s.

Definition char (c : ascii) : regex := Class (λ c', bool_decide (c' = c)).

Fixpoint lit (s : string) : regex :=
  match s with
  | EmptyString => Eps
  | String c s' => Seq (char c) (lit s')
  end.

Fixpoint times (n : nat) (r : regex) : regex :=
  match n with
  | 0 => Eps
  | S n' => Seq r (times n' r)
  end.

(** [r{m,n}] *)
Definition between (m n : nat) (r : regex) : regex :=
  Seq (times m r) (times (n - m) (Alt Eps r)).

(** [r+] *)
Definition plus (r : regex) : regex := Seq r (Star r).

(** [[A-Za-z]] and [\d] *)
Definition letter : regex := Class (λ c, is_upper c || is_lower c).
Definition digit : regex := Class is_digit.

(** ['On [A-Za-z]{2,3}, [A-Za-z]{2,3} \d{1,2}, \d{4} at'] *)
Definition reply_weekday : regex :=
  Seq (lit "On ") (Seq (between 2 3 letter) (Seq (lit ", ") (Seq (between 2 3 letter)
    (Seq (lit " ") (Seq (between 1 2 digit) (Seq (lit ", ") (Seq (times 4 digit)
      (lit " at")))))))).

(** ['On [A-Za-z]{2,3} \d{1,2}, \d{4}, at'] *)
Definition reply_month : regex :=
  Seq (lit "On ") (Seq (between 2 3 letter) (Seq (lit " ") (Seq (between 1 2 digit)
    (Seq (lit ", ") (Seq (times 4 digit) (lit ", at")))))).

(** ['-+ Forwarded message -+'] *)
Definition forwarded : regex :=
  Seq (plus (char "-")) (Seq (lit " Forwarded message ") (plus (char "-"))).

(** ** normalize_email_address *)

(** ['<([^>]+)>'] *)
Definition angle : regex :=
  Seq (char "<") (Seq (plus (Class (λ c, negb (bool_decide (c = ">"%char))))) (char ">")).

(** The characters of [s] before its first [>], if it has one. *)
Fixpoint until_gt (s : string) : option string :=
  match s with
  | EmptyString => None
  | String c s' =>
      if bool_decide (c = ">"%char) then Some EmptyString
      else match until_gt s' with
           | Some g => Some (String c g)
           | None => None
           end
  end.

(** Group 1 of [re.search('<([^>]+)>', s)]: at the leftmost [<] that is
    followed by at least one character other than [>] and then by a [>],
    the characters between the two. *)
Fixpoint search_angle (s : string) : option string :=
  match s with
  | EmptyString => None
  | String c s' =>
      if bool_decide (c = "<"%char)
      then match until_gt s' with
           | Some (String a g) => Some (String a g)
           | _ => search_angle s'
           end
      else search_angle s'
  end.

Definition normalize_email_address (addr : string) : string :=
  let addr := lower addr in
  match search_angle addr with
  | Some group1 => group1
  | None => addr
  end.

(** ** parse_email *)

(** What the module asks of an [email.message.Message]: the headers From
    and Date, the content type, and the payload, which is a string or,
    for a multipart message, the list of the parts. *)
#[warnings="-register-all"]
Inductive Message : Type :=
| Msg (From Date : option string) (content_type : string) (payload : string + list Message).

Definition get_From (email : Message) : option string :=
  match email with Msg f _ _ _ => f end.

Definition get_Date (email : Message) : option string :=
  match email with Msg _ d _ _ => d end.

Definition get_content_type (email : Message) : string :=
  match email with Msg _ _ t _ => t end.

Definition get_payload (email : Message) : string + list Message :=
  match email with Msg _ _ _ p => p end.

Definition is_multipart (email : Message) : bool :=
  match get_payload email with inl _ => false | inr _ => true end.

Inductive exc : Type :=
| AttributeError (msg : string)
| ParserError (msg : string).

Inductive outcome (A : Type) : Type :=
| Ok (a : A)
| Err (e : exc).
Arguments Ok {A} a.
Arguments Err {A} e.

Definition bind {A B : Type} (m : outcome A) (k : A → outcome B) : outcome B :=
  match m with
  | Ok a => k a
  | Err e => Err e
  end.

(** The test of lines 66-69: the line opens the quoted or forwarded part. *)
Definition cuts (line : string) : bool :=
  search reply_weekday line
  || search reply_month line
  || PyStr.startswith line "Begin forwarded message:"
  || search forwarded line.

(** The loop of lines 62-73 over the lines that are left, [keep_lines]
    being what it has kept so far. *)
Fixpoint keep_loop (contents : list string) (keep_lines : list string) : list string :=
  match contents with
  | [] => keep_lines
  | line :: rest =>
      if cuts line then keep_lines
      else keep_loop rest (if truthy (strip line) then keep_lines ++ [line] else keep_lines)
  end.

(** The loop of lines 55-77 over the payloads that are left. *)
Fixpoint body_loop (payloads : list Message) : outcome (option string) :=
  match payloads with
  | [] => Ok None
  | payload :: rest =>
      if bool_decide (get_content_type payload ≠ "text/plain") then body_loop rest
      else match get_payload payload with
           | inr _ => Err (AttributeError "'list' object has no attribute 'split'")
           | inl text =>
               match keep_loop (PyStr.split text CRLF) [] with
               | [] => body_loop rest
               | keep_lines => Ok (Some (join CRLF keep_lines))
               end
           end
  end.

(** ** get_word_counts *)

(** A document-term matrix, column by column: one list per word, with one
    entry per document. *)
Abbreviation matrix := (list (list nat)).

(** What the module asks of a fitted [CountVectorizer]. *)
Record CountVectorizer : Type := {
  get_feature_names : list string;
  vocabulary_ : gmap string nat
}.

(** [sorted(.., key=lambda row: row[1], reverse=True)]: a stable sort,
    rows with equal counts keep their order. *)
Fixpoint insert_row (row : string * nat) (l : list (string * nat)) : list (string * nat) :=
  match l with
  | [] => [row]
  | row' :: l' => if row.2 <? row'.2 then row' :: insert_row row l' else row :: l
  end.

Definition sorted_by_count (l : list (string * nat)) : list (string * nat) :=
  foldr insert_row [] l.

Definition get_word_counts (vectorizer : CountVectorizer) (model : matrix) : list (string * nat) :=
  let counts := sum_list <$> model in
  let words := get_feature_names vectorizer in
  let word_counts := zip words counts in
  sorted_by_count word_counts.

(** [[i for i, e in enumerate(rows) if e == 1]] *)
Definition indices_of_ones (rows : list nat) : list nat :=
  (imap (λ i e, (i, e)) rows) ≫= λ '(i, e), if e =? 1 then [i] else [].

(** [idx] is the column of [word], [rows] the column as an array; [None]
    stands for what the indexing of line 96 does when the word is not in
    the vocabulary or its index is not a column of [model], which is not
    followed here. *)
Definition get_email_indices_for_word (word : string) (vectorizer : CountVectorizer)
    (model : matrix) : option (list nat) :=
  match vocabulary_ vectorizer !! word with
  | Some idx =>
      match model !! idx with
      | Some rows => Some (indices_of_ones rows)
      | None => None
      end
  | None => None
  end.

(** [model[model != 0] = 1] *)
Definition binarize (model : matrix) : matrix :=
  (λ column : list nat, (λ e, match e with 0 => 0 | S _ => 1 end) <$> column) <$> model.

(** Lines 49-52: the parts of a multipart message, or the message
    itself. *)
Definition payloads_of (email : Message) : list Message :=
  match get_payload email with
  | inr parts => parts
  | inl _ => [email]
  end.

(** ** parse_email and analyze *)

Section Parse.
(** The type [datetime.datetime] and [dateutil.parser.parse]. *)
Variable datetime : Type.
Variable parse : option string → outcome datetime.

Definition parse_email (email : Message) : outcome (string * datetime * option string) :=
  bind (match get_From email with
        | Some addr => Ok (normalize_email_address addr)
        | None => Err (AttributeError "'NoneType' object has no attribute 'lower'")
        end) (λ from_,
  bind (parse (get_Date email)) (λ date,
  bind (body_loop (payloads_of email)) (λ body,
  Ok (from_, date, body)))).

(** The loop of lines 134-137 from the email of index [i] on. *)
Fixpoint group (i : nat) (emails : list Message) (correspondence : gmap string (list (nat * datetime * string)))
    : outcome (gmap string (list (nat * datetime * string))) :=
  match emails with
  | [] => Ok correspondence
  | email :: rest =>
      bind (parse_email email) (λ '(from_, date, body),
        group (S i) rest
          (match body with
           | Some b => <[from_ := correspondence !!! from_ ++ [(i, date, b)]]> correspondence
           | None => correspondence
           end))
  end.

(** [CountVectorizer(..).fit_transform] on a corpus; [None] when it
    raises. *)
Variable fit_transform : list string → option (CountVectorizer * matrix).

(** The body of the loop of lines 139-158 for one author: the entry of
    [author_words], if the author gets one. *)
Definition words_of (corpus : list (nat * datetime * string))
    : option (CountVectorizer * matrix * list (string * nat)) :=
  if length corpus <? 10 then None
  else match fit_transform (snd <$> corpus) with
       | Some (vectorizer, model) =>
           let model := binarize model in
           Some (vectorizer, model, get_word_counts vectorizer model)
       | None => None
       end.

Definition analyze (emails : list Message)
    : outcome (gmap string (list (nat * datetime * string))
               * gmap string (CountVectorizer * matrix * list (string * nat))) :=
  bind (group 0 emails ∅) (λ correspondence,
  Ok (correspondence, omap words_of correspondence)).

End Parse.

End analyze.

(** ** A small mailbox for the examples *)

(** A stand-in for [dateutil.parser.parse]: the header as it is. *)
Definition sample_parse (date : option string) : analyze.outcome string :=
  match date with
  | Some d => analyze.Ok d
  | None => analyze.Err (analyze.ParserError "no date")
  end.

Definition sample_text : string :=
  "Thanks, see you then." +:+ analyze.CRLF +:+ analyze.CRLF +:+
  "On Mon, Jan 5, 2015 at 3:04 PM, Bob wrote:" +:+ analyze.CRLF +:+
  "> Lunch on Friday?".

Definition sample_email : analyze.Message :=
  analyze.Msg (Some "Alice <Alice@Example.org>") (Some "Tue, 6 Jan 2015 09:00:00")
    "text/plain" (inl sample_text).

(** An automatic message: no From header. *)
Definition sample_notice : analyze.Message :=
  analyze.Msg None (Some "Tue, 6 Jan 2015 10:00:00") "text/plain" (inl "Quota exceeded").

Definition sample_vectorizer : analyze.CountVectorizer :=
  {| analyze.get_feature_names := ["lunch"; "thanks"];
     analyze.vocabulary_ := {[ "lunch" := 0; "thanks" := 1 ]} |}.

(** A stand-in for [fit_transform]: the two words above, the first in no
    document and the second twice in each. *)
Definition sample_fit_transform (corpus : list string)
    : option (analyze.CountVectorizer * list (list nat)) :=
  Some (sample_vectorizer, [replicate (length corpus) 0; replicate (length corpus) 2]).

(** What [analyze] files for [n] copies of [sample_email]. *)
Definition sample_correspondence (n : nat) : gmap string (list (nat * string * string)) :=
  {[ "alice@example.org" :=
       (λ i, (i, "Tue, 6 Jan 2015 09:00:00", "Thanks, see you then.")) <$> seq 0 n ]}.

Definition sample_author_words
    : gmap string (analyze.CountVectorizer * list (list nat) * list (string * nat)) :=
  {[ "alice@example.org" :=
       (sample_vectorizer, [replicate 10 0; replicate 10 1], [("thanks", 10); ("lunch", 0)]) ]}.

(** * Properties *)

(** ** Strings *)

Lemma str_app_nil_l (t : string) : "" +:+ t = t.
Proof. reflexivity. Qed.

Lemma str_app_cons (c : ascii) (s t : string) : String c s +:+ t = String c (s +:+ t).
Proof. reflexivity. Qed.

Lemma str_app_nil_r (s : string) : s +:+ "" = s.
Proof. induction s as [|c s IH]; [done|]. by rewrite str_app_cons, IH. Qed.

Lemma str_app_assoc (s t u : string) : (s +:+ t) +:+ u = s +:+ (t +:+ u).
Proof. induction s as [|c s IH]; [done|]. by rewrite !str_app_cons, IH. Qed.

Lemma startswith_spec (s p : string) :
  PyStr.startswith s p = true ↔ ∃ r, s = p +:+ r.
Proof.
  revert s. induction p as [|a p IH]; intros s; simpl.
  - split; [intros _; by exists s | done].
  - destruct s as [|b s].
    + split; [done | intros [r Hr]; rewrite str_app_cons in Hr; discriminate].
    + destruct (decide (a = b)) as [->|Hne].
      * rewrite IH. split; intros [r Hr]; exists r.
        -- by rewrite str_app_cons, Hr.
        -- rewrite str_app_cons in Hr. by injection Hr.
      * split; [done | intros [r Hr]]. rewrite str_app_cons in Hr. congruence.
Qed.

(** [sub in s] holds exactly when [s] splits around an occurrence of [sub]. *)
Lemma contains_spec (sub s : string) :
  PyStr.contains sub s = true ↔ ∃ a b, s = a +:+ sub +:+ b.
Proof.
  induction s as [|c s IH]; simpl.
  - rewrite orb_false_r, startswith_spec. split.
    + intros [r Hr]. by exists "", r.
    + intros (a & b & Hab). destruct a as [|? a]; [by exists b|].
      rewrite str_app_cons in Hab. discriminate.
  - rewrite orb_true_iff, startswith_spec, IH. split.
    + intros [[r Hr] | (a & b & Hab)].
      * by exists "", r.
      * exists (String c a), b. by rewrite str_app_cons, Hab.
    + intros (a & b & Hab). destruct a as [|c' a].
      * left. by exists b.
      * right. rewrite str_app_cons in Hab. injection Hab as -> ->. by exists a, b.
Qed.

Lemma split_go_nonempty (sep : string) (skip : nat) (cur s : string) :
  PyStr.split_go sep skip cur s ≠ [].
Proof.
  revert skip cur. induction s as [|c s IH]; intros skip cur; simpl; [done|].
  destruct skip; [|done]. by destruct (PyStr.startswith _ _).
Qed.

Lemma last_item_cons (x : string) (l : list string) :
  l ≠ [] → PyStr.last_item (x :: l) = PyStr.last_item l.
Proof. by destruct l. Qed.

(** The last piece of a split is what is left of the string after the last
    separator: a suffix of it. *)
Lemma split_go_last (sep : string) (skip : nat) (cur s : string) :
  (0 < skip → cur = "") →
  (skip = 0 ∧ PyStr.last_item (PyStr.split_go sep skip cur s) = cur +:+ s)
  ∨ ∃ a, s = a +:+ PyStr.last_item (PyStr.split_go sep skip cur s).
Proof.
  revert skip cur. induction s as [|c s IH]; intros skip cur Hcur; simpl.
  - destruct skip as [|k].
    + left. by rewrite str_app_nil_r.
    + right. exists "". rewrite Hcur by lia. done.
  - assert (∀ x, (∃ a, s = a +:+ x) → ∃ a, String c s = a +:+ x) as Hsuf.
    { intros x [a ->]. by exists (String c a). }
    destruct skip as [|k].
    + destruct (PyStr.startswith (String c s) sep).
      * right. rewrite last_item_cons by apply split_go_nonempty.
        apply Hsuf. destruct (IH (String.length sep - 1) "") as [[_ ->]|?]; [done| |done].
        by exists "".
      * destruct (IH 0 (cur +:+ String c "")) as [[_ ->]|?]; [lia| |right; by apply Hsuf].
        left. split; [done|]. by rewrite str_app_assoc.
    + right. apply Hsuf. rewrite (Hcur ltac:(lia)).
      destruct (IH k "") as [[_ ->]|?]; [done| |done]. by exists "".
Qed.

Lemma drop_last_prefix (s : string) : ∃ b, s = PyStr.drop_last s +:+ b.
Proof.
  induction s as [|c s [b IH]]; [by exists ""|]. simpl.
  destruct s as [|c' s]; [by exists (String c "")|].
  exists b. by rewrite str_app_cons, <- IH.
Qed.

(** The parsed name is cut out of the raw listing entry. *)
Lemma parse_mailbox_substring (m : string) :
  ∃ a b, m = a +:+ parse_mailbox m +:+ b.
Proof.
  unfold parse_mailbox, PyStr.split.
  destruct (split_go_last quote_space_quote 0 "" m) as [[_ Hl]|[a Ha]]; [lia| |].
  - destruct (drop_last_prefix (PyStr.last_item (PyStr.split_go quote_space_quote 0 "" m)))
      as [b Hb].
    exists "", b. rewrite str_app_nil_l, <- Hb. by rewrite Hl.
  - destruct (drop_last_prefix (PyStr.last_item (PyStr.split_go quote_space_quote 0 "" m)))
      as [b Hb].
    exists a, b. by rewrite <- Hb.
Qed.

Lemma parse_mailbox_no_marker (m : string) :
  PyStr.contains marker m = false → PyStr.contains marker (parse_mailbox m) = false.
Proof.
  intros Hm. destruct (PyStr.contains marker (parse_mailbox m)) eqn:Hp; [|done].
  apply contains_spec in Hp as (a & b & Hab).
  destruct (parse_mailbox_substring m) as (a' & b' & Hm').
  assert (PyStr.contains marker m = true) as Hc; [|congruence].
  apply contains_spec. exists (a' +:+ a), (b +:+ b').
  rewrite Hm' at 1. rewrite Hab. by rewrite !str_app_assoc.
Qed.

(** ** The model on concrete inputs *)

Example split_on_separator :
  PyStr.split "a, b, c" ", " = ["a"; "b"; "c"].
Proof. reflexivity. Qed.

Example parse_mailbox_INBOX :
  parse_mailbox (listing_entry "(\HasNoChildren)" "INBOX") = "INBOX".
Proof. reflexivity. Qed.

Example get_mailboxes_listing :
  (get_mailboxes listing_server session0).1 = Return ["INBOX"; "Sent"].
Proof. reflexivity. Qed.

Example pop_takes_the_tail : pop [0; 1; 2] = Some (2, [0; 1]).
Proof. reflexivity. Qed.

Example chunks_of_eleven_tasks :
  chunksize_of 11 10 = 1 ∧ length (get_tasks 1 broken_mailboxes) = 11.
Proof. split; reflexivity. Qed.

Example chunks_of_many_tasks :
  chunksize_of 100 2 = 13 ∧ length <$> get_tasks 13 (replicate 100 0) = replicate 7 13 ++ [9].
Proof. split; reflexivity. Qed.

Example scenario_round_robin :
  scrape (scenario_server imaplib.OK) 1 "imap.gmail.com" "user" "secret"
    (Some ["INBOX"; "Sent"]) (round_robin 2 10) (round_robin 2 10)
  = Some (Return [Some (message_from_string "body of 1");
                  Some (message_from_string "body of 2");
                  Some (message_from_string "third")]).
Proof. vm_compute. reflexivity. Qed.

Example scenario_one_worker_first :
  scrape (scenario_server imaplib.OK) 1 "imap.gmail.com" "user" "secret"
    (Some ["INBOX"; "Sent"]) (replicate 10 1 ++ replicate 10 0 ++ [2; 2]) (replicate 20 1 ++ [2; 2; 2])
  = Some (Return [Some (message_from_string "body of 1");
                  Some (message_from_string "body of 2");
                  Some (message_from_string "third")]).
Proof. vm_compute. reflexivity. Qed.

Example scenario_schedule_too_short :
  scrape (scenario_server imaplib.OK) 1 "imap.gmail.com" "user" "secret"
    (Some ["INBOX"; "Sent"]) (round_robin 2 10) (round_robin 2 3) = None.
Proof. vm_compute. reflexivity. Qed.

(** ** The list of available ids *)

Lemma pop_Some (l : list nat) (x : nat) (r : list nat) :
  pop l = Some (x, r) ↔ l = r ++ [x].
Proof.
  revert x r. induction l as [|y l IH]; intros x r; simpl.
  - split; [done | by destruct r].
  - destruct (pop l) as [[z r']|] eqn:Hp.
    + specialize (IH z r'). destruct IH as [IH _]. specialize (IH eq_refl). subst l.
      split.
      * intros [= <- <-]. done.
      * destruct r as [|y' r]; simpl; intros [= -> Hl].
        -- by destruct r'.
        -- apply app_inj_tail in Hl as [-> ->]. done.
    + destruct l as [|y' l]; [|simpl in Hp; destruct (pop l) as [[??]|]; done].
      split.
      * intros [= <- <-]. done.
      * destruct r as [|y' r]; simpl; [by intros [= ->]|]. intros [= _ Hl]. by destruct r.
Qed.

Lemma pop_None (l : list nat) : pop l = None ↔ l = [].
Proof.
  destruct l as [|y l]; simpl; [done|].
  destruct (pop l) as [[??]|]; done.
Qed.

Lemma pop_app (l : list nat) (x : nat) : pop (l ++ [x]) = Some (x, l).
Proof. by apply pop_Some. Qed.

Lemma acquire_Some (reg : registry) (c : nat) (reg' : registry) :
  acquire reg = Some (c, reg') ↔
  avail_connections reg = avail_connections reg' ++ [c] ∧
  connections reg' = connections reg ∧ leased reg' = c :: leased reg.
Proof.
  unfold acquire. destruct (pop (avail_connections reg)) as [[x r]|] eqn:Hp.
  - apply pop_Some in Hp. split.
    + intros [= <- <-]. done.
    + destruct reg' as [a' c' l']; simpl. intros (Ha & -> & ->).
      rewrite Hp in Ha. apply app_inj_tail in Ha as [-> ->]. done.
  - apply pop_None in Hp. split; [done|]. intros [Ha _]. rewrite Hp in Ha. by destruct (avail_connections reg').
Qed.

Lemma acquire_None (reg : registry) : acquire reg = None ↔ avail_connections reg = [].
Proof.
  unfold acquire. destruct (pop (avail_connections reg)) as [[x r]|] eqn:Hp.
  - apply pop_Some in Hp. split; [done|]. rewrite Hp. by destruct r.
  - by apply pop_None in Hp.
Qed.

Lemma replay_app (h1 h2 : list pool_op) (reg : registry) :
  replay (h1 ++ h2) reg =
  match replay h1 reg with
  | None => None
  | Some (got1, reg1) =>
      match replay h2 reg1 with
      | None => None
      | Some (got2, reg2) => Some (got1 ++ got2, reg2)
      end
  end.
Proof.
  revert reg. induction h1 as [|[|c] h1 IH]; intros reg; simpl.
  - by destruct (replay h2 reg) as [[??]|].
  - destruct (acquire reg) as [[c reg']|]; [|done]. rewrite IH.
    destruct (replay h1 reg') as [[got1 reg1]|]; [|done].
    by destruct (replay h2 reg1) as [[??]|].
  - apply IH.
Qed.

(** C8. An acquire (the pop under the lock) followed at once by the release
    of the same id (the append under the lock) gives back the list of
    available ids as it was, so the same ids are available as before. *)
Theorem acquire_release_restores (reg : registry) (connection_id : nat) (reg' : registry) :
  acquire reg = Some (connection_id, reg') →
  avail_connections (release connection_id reg') = avail_connections reg ∧
  ∀ x, x ∈ avail_connections (release connection_id reg') ↔ x ∈ avail_connections reg.
Proof.
  intros (Ha & _ & _)%acquire_Some.
  assert (avail_connections (release connection_id reg') = avail_connections reg) as ->; [|done].
  by rewrite Ha.
Qed.

Lemma acquire_release_restores_witness :
  ∃ reg',
    acquire {| avail_connections := seq 0 CONNECTION_POOL_SIZE;
               connections := []; leased := [] |} = Some (9, reg') ∧
    avail_connections (release 9 reg') = seq 0 CONNECTION_POOL_SIZE.
Proof.
  eexists. split; [reflexivity|].
  eapply (acquire_release_restores
            {| avail_connections := seq 0 CONNECTION_POOL_SIZE;
               connections := []; leased := [] |} 9).
  reflexivity.
Defined.

(** C10. The available ids are a stack: an acquire takes the id at the tail
    of the list, a release puts its id at the tail, and so after any
    sequential history that ends with a release, the next acquire returns
    the id released last. *)
Theorem acquire_is_lifo :
  (∀ reg c reg', acquire reg = Some (c, reg') →
     avail_connections reg = avail_connections reg' ++ [c]) ∧
  (∀ reg c, avail_connections (release c reg) = avail_connections reg ++ [c]) ∧
  (∀ h reg c got reg1,
     replay (h ++ [Release c]) reg = Some (got, reg1) →
     ∃ reg2, acquire reg1 = Some (c, reg2)).
Proof.
  split_and!.
  - by intros reg c reg' (Ha & _ & _)%acquire_Some.
  - done.
  - intros h reg c got reg1. rewrite replay_app.
    destruct (replay h reg) as [[got0 reg0]|]; [|done]. simpl.
    intros [= _ <-]. unfold acquire. simpl. unfold append. rewrite pop_app. eauto.
Qed.

Lemma acquire_is_lifo_witness :
  ∃ reg2,
    acquire (release 1 (release 2
      {| avail_connections := [0; 1; 2]; connections := []; leased := [] |}))
    = Some (1, reg2).
Proof.
  destruct acquire_is_lifo as (_ & _ & H).
  apply (H [Release 2]
           {| avail_connections := [0; 1; 2]; connections := []; leased := [] |} 1 []).
  reflexivity.
Defined.

(** ** The methods of Gmail *)

(** What [fetch_message_ids] returns or raises does not depend on the
    session it runs on: it selects its mailbox first. *)
Lemma fetch_message_ids_any_session (srv : imaplib.Server) (mailbox : string) (self self' : Gmail) :
  (fetch_message_ids srv mailbox self).1 = (fetch_message_ids srv mailbox self').1.
Proof.
  unfold fetch_message_ids. unfold_imap.
  destruct (imaplib.SELECT srv mailbox); simpl; try done.
  destruct (imaplib.SEARCH_ALL srv mailbox) as [[] data]; simpl; try done.
Qed.

Lemma fetch_message_any_session (srv : imaplib.Server) (args : string * string) (self self' : Gmail) :
  (fetch_message srv args self).1 = (fetch_message srv args self').1.
Proof.
  destruct args as [mailbox message_num]. unfold fetch_message. unfold_imap.
  destruct (imaplib.SELECT srv mailbox); simpl; try done.
  destruct (imaplib.FETCH_RFC822 srv mailbox message_num) as [[] data]; simpl; try done.
Qed.



(** C7. [get_mailboxes] yields the parsed names of exactly the listing
    entries that do not contain the marker, in their order; no name it
    yields contains the marker; and without a mailbox list [scrape] takes
    its mailboxes from [get_mailboxes] of [connections[0]]. *)
Theorem get_mailboxes_excludes_reserved (srv : imaplib.Server) :
  (∀ self names,
     (get_mailboxes srv self).1 = Return names →
     names = parse_mailbox <$>
               filter (λ m, PyStr.contains marker m = false) (imaplib.LIST srv).2 ∧
     ∀ name, name ∈ names →
       PyStr.contains marker name = false ∧
       ∃ m, m ∈ (imaplib.LIST srv).2 ∧ PyStr.contains marker m = false ∧
            name = parse_mailbox m) ∧
  (∀ reg self,
     connections reg !! 0 = Some self →
     (default_mailboxes srv None reg).1 = (get_mailboxes srv self).1).
Proof.
  split.
  - intros self names. unfold get_mailboxes. unfold_imap.
    destruct (imaplib.LIST srv) as [[] raw]; simpl; intros [= <-].
    + split; [done|]. intros name (m & -> & [Hm Hin]%list_elem_of_filter)%list_elem_of_fmap.
      split; [by apply parse_mailbox_no_marker | eauto].
    + split; [done|]. intros name (m & -> & [Hm Hin]%list_elem_of_filter)%list_elem_of_fmap.
      split; [by apply parse_mailbox_no_marker | eauto].
  - intros reg self Hc. unfold default_mailboxes. rewrite Hc.
    by destruct (get_mailboxes srv self).
Qed.

Lemma get_mailboxes_excludes_reserved_witness :
  (get_mailboxes listing_server session0).1 = Return ["INBOX"; "Sent"] ∧
  PyStr.contains marker "INBOX" = false.
Proof.
  split; [reflexivity|].
  destruct (get_mailboxes_excludes_reserved listing_server) as [Hnames _].
  destruct (Hnames session0 ["INBOX"; "Sent"] eq_refl) as [_ Hclean].
  apply (Hclean "INBOX"). by left.
Defined.

(** C9 (what the code does). [__main__] parses [--connections] and does
    not pass it on: the run is the same whatever its value, and [scrape]
    creates [CONNECTION_POOL_SIZE] = 10 sessions. *)
Theorem main_ignores_connections (srv : imaplib.Server) (cpu_count : nat)
    (args : Namespace) (n : nat) (sched_ids sched_messages : list nat) :
  main srv cpu_count
    {| args_host := args_host args; args_username := args_username args;
       args_password := args_password args; args_output_file := args_output_file args;
       args_mailboxes := args_mailboxes args; args_connections := n |}
    sched_ids sched_messages
  = main srv cpu_count args sched_ids sched_messages ∧
  ∀ conns,
    make_connections srv (args_host args) (args_username args) (args_password args)
      (seq 0 CONNECTION_POOL_SIZE) = Return conns →
    length conns = 10.
Proof.
  split; [done|].
  assert (∀ ids conns,
    make_connections srv (args_host args) (args_username args) (args_password args) ids
      = Return conns → length conns = length ids) as Hlen.
  { induction ids as [|i ids IH]; intros conns; simpl; [by intros [= <-]|].
    destruct (Gmail_init _ _ _ _ _); [|done].
    destruct (make_connections _ _ _ _ _) as [l|]; [|done].
    intros [= <-]. simpl. f_equal. by apply IH. }
  intros conns Hc. by apply Hlen in Hc.
Qed.

(** ** Chunks *)

Lemma nchunks_0 (size : nat) : 0 < size → nchunks size 0 = 0.
Proof.
  intros Hs. unfold nchunks. rewrite Nat.Div0.div_0_l, Nat.Div0.mod_0_l. done.
Qed.

Lemma nchunks_step (size len : nat) :
  0 < size → 0 < len → nchunks size len = S (nchunks size (len - size)).
Proof.
  intros Hs Hl. unfold nchunks. destruct (decide (len < size)) as [Hlt|Hge].
  - rewrite Nat.div_small, Nat.mod_small by done.
    replace (len - size) with 0 by lia.
    rewrite Nat.Div0.div_0_l, Nat.Div0.mod_0_l.
    destruct (decide (len = 0)); [lia|]. done.
  - destruct (Nat.le_exists_sub size len) as [m [-> _]]; [lia|].
    rewrite Nat.add_sub. replace (m + size) with (m + 1 * size) by lia.
    rewrite Nat.div_add, Nat.Div0.mod_add by lia.
    destruct (decide _); lia.
Qed.

Section Chunks.
Context {T : Type}.
Implicit Types it chunk : list T.

Lemma get_tasks_go_length size fuel it :
  0 < size → length it ≤ fuel →
  length (get_tasks_go fuel size it) = nchunks size (length it).
Proof.
  intros Hs. revert it. induction fuel as [|fuel IH]; intros it Hf; simpl.
  - destruct it; [|simpl in Hf; lia]. by rewrite nchunks_0.
  - destruct (take size it) as [|a l] eqn:Ht.
    + destruct it; [by rewrite nchunks_0|]. destruct size; [lia|done].
    + simpl. rewrite IH by (rewrite length_drop; lia).
      rewrite length_drop. rewrite (nchunks_step size (length it)); [done|done|].
      destruct it; [by rewrite take_nil in Ht | simpl; lia].
Qed.

Lemma get_tasks_go_concat size fuel it :
  0 < size → length it ≤ fuel → concat (get_tasks_go fuel size it) = it.
Proof.
  intros Hs. revert it. induction fuel as [|fuel IH]; intros it Hf; simpl.
  - destruct it; [done|simpl in Hf; lia].
  - destruct (take size it) as [|a l] eqn:Ht.
    + destruct it; [done|]. destruct size; [lia|done].
    + rewrite concat_cons, IH.
      * rewrite <- Ht. apply take_drop.
      * rewrite length_drop.
        destruct it; [by rewrite take_nil in Ht | simpl in *; lia].
Qed.

Lemma get_tasks_go_lookup size fuel it i chunk :
  0 < size → length it ≤ fuel →
  get_tasks_go fuel size it !! i = Some chunk →
  0 < length chunk ≤ size ∧
  (S i < length (get_tasks_go fuel size it) → length chunk = size).
Proof.
  intros Hs. revert it i. induction fuel as [|fuel IH]; intros it i Hf; simpl; [done|].
  destruct (take size it) as [|a l] eqn:Ht; [done|].
  assert (length (drop size it) ≤ fuel) as Hd.
  { rewrite length_drop. destruct it; [by rewrite take_nil in Ht | simpl in *; lia]. }
  destruct i as [|i]; simpl.
  - intros [= <-]. rewrite <- Ht, length_take. split.
    + assert (length (take size it) ≠ 0); [by rewrite Ht|]. rewrite length_take in *. lia.
    + intros Hlen. rewrite get_tasks_go_length in Hlen by done.
      destruct (decide (length it ≤ size)) as [Hle|]; [|lia].
      rewrite length_drop in Hlen. replace (length it - size) with 0 in Hlen by lia.
      rewrite nchunks_0 in Hlen by done. lia.
  - intros Hi. destruct (IH _ _ Hd Hi) as [? Hfull]. split; [done|]. intros ?. apply Hfull. lia.
Qed.

End Chunks.

(** ** Lists *)

Section Lists.
Context {A B : Type}.

Lemma sum_list_with_insert (f : A → nat) (l : list A) (i : nat) (x y : A) :
  l !! i = Some x →
  sum_list_with f (<[i:=y]> l) + f x = sum_list_with f l + f y.
Proof.
  revert i. induction l as [|a l IH]; intros [|i] Hi; simplify_eq/=; [lia|].
  specialize (IH _ Hi). lia.
Qed.

Lemma fmap_insert_same (f : A → B) (l : list A) (i : nat) (x y : A) :
  l !! i = Some x → f y = f x → f <$> <[i:=y]> l = f <$> l.
Proof.
  intros Hi Hf. rewrite list_fmap_insert, Hf. apply list_insert_id.
  by rewrite list_lookup_fmap, Hi.
Qed.

Lemma Forall2_concat (P : A → B → Prop) (ls : list (list A)) (ks : list (list B)) :
  Forall2 (Forall2 P) ls ks → Forall2 P (concat ls) (concat ks).
Proof. induction 1; simpl; [constructor|]. by apply Forall2_app. Qed.

(** Chunks of full size lie at the multiples of the size. *)
Lemma take_drop_concat (vals : list (list A)) (size i : nat) :
  (∀ j vs, j < i → vals !! j = Some vs → length vs = size) →
  i ≤ length vals →
  take (i * size) (concat vals) = concat (take i vals) ∧
  drop (i * size) (concat vals) = concat (drop i vals).
Proof.
  revert vals. induction i as [|i IH]; intros vals Hfull Hi; [done|].
  destruct vals as [|v vals]; [simpl in Hi; lia|].
  assert (length v = size) as Hv by (apply (Hfull 0); [lia|done]).
  destruct (IH vals) as [Ht Hd].
  { intros j vs Hj Hvs. apply (Hfull (S j)); [lia|done]. }
  { simpl in Hi. lia. }
  simpl. split.
  - rewrite take_app_add' by done. by rewrite Ht.
  - rewrite drop_app_add' by done. done.
Qed.

(** The slice assignment of [MapResult._set] replaces chunk [i]. *)
Lemma slice_concat (vals : list (list A)) (size i : nat) (old new : list A) :
  vals !! i = Some old →
  (∀ j vs, vals !! j = Some vs →
     length vs ≤ size ∧ (S j < length vals → length vs = size)) →
  take (i * size) (concat vals) ++ new ++ drop ((i + 1) * size) (concat vals)
  = concat (<[i:=new]> vals).
Proof.
  intros Hi Hshape. pose proof (lookup_lt_Some _ _ _ Hi) as Hlt.
  rewrite insert_take_drop by done. rewrite concat_app, concat_cons.
  destruct (take_drop_concat vals size i) as [-> Hdi]; [|lia|].
  { intros j vs Hj Hvs. apply (Hshape j vs Hvs). lia. }
  do 2 f_equal. replace (i + 1) with (S i) by lia.
  destruct (decide (S i < length vals)) as [Hlt'|Hge].
  - destruct (take_drop_concat vals size (S i)) as [_ ->]; [|lia|done].
    intros j vs Hj Hvs. apply (Hshape j vs Hvs). lia.
  - rewrite (drop_ge vals) by lia. simpl. apply drop_ge.
    rewrite <- (take_drop (i * size) (concat vals)), Hdi.
    rewrite (drop_S _ _ _ Hi), (drop_ge vals (S i)) by lia. simpl.
    rewrite length_app, length_take, length_app. simpl.
    destruct (Hshape i old Hi) as [Hold _]. lia.
Qed.

End Lists.

Lemma drop_cons_inv {A} (l : list A) (k : nat) (a : A) (r : list A) :
  drop k l = a :: r → l !! k = Some a ∧ r = drop (S k) l.
Proof.
  intros Hd. assert (l !! k = Some a) as Hk.
  { rewrite <- (Nat.add_0_r k), <- lookup_drop, Hd. done. }
  split; [done|]. rewrite (drop_S _ _ _ Hk) in Hd. by injection Hd.
Qed.

Lemma filter_ne_id (l : list nat) (c : nat) :
  c ∉ l → filter (λ x, x ≠ c) l = l.
Proof.
  induction l as [|a l IH]; [done|]. intros [Ha Hl]%not_elem_of_cons.
  rewrite filter_cons_True by done. by rewrite IH.
Qed.

Lemma leased_remove (l : list nat) (c : nat) :
  NoDup l → c ∈ l → l ≡ₚ c :: filter (λ x, x ≠ c) l.
Proof.
  induction 1 as [|a l Ha Hl IH]; [by intros ?%elem_of_nil|].
  intros [->|Hc]%elem_of_cons.
  - rewrite filter_cons_False by naive_solver. by rewrite filter_ne_id.
  - assert (a ≠ c) by (intros ->; done).
    rewrite filter_cons_True by done. rewrite (IH Hc) at 1. apply Permutation_swap.
Qed.

Lemma sum_list_with_lt {A} (f : A → nat) (l : list A) (i : nat) (x : A) :
  (∀ y, f y ≤ 1) → l !! i = Some x → f x = 0 → sum_list_with f l < length l.
Proof.
  intros Hf. revert i. induction l as [|a l IH]; intros [|i] Hi Hx; simplify_eq/=.
  - rewrite Hx. assert (sum_list_with f l ≤ length l); [|lia].
    clear -Hf. induction l as [|a l IH]; simpl; [lia|]. specialize (Hf a). lia.
  - specialize (IH _ Hi Hx). specialize (Hf a). lia.
Qed.

Lemma sum_list_with_0 {A} (f : A → nat) (l : list A) (i : nat) (x : A) :
  sum_list_with f l = 0 → l !! i = Some x → f x = 0.
Proof.
  intros Hs Hi. apply list_elem_of_lookup_2 in Hi.
  pose proof (sum_list_with_in x f l Hi). lia.
Qed.

Lemma chunksize_of_pos (len nworkers : nat) :
  0 < nworkers → 0 < len → 0 < chunksize_of len nworkers.
Proof.
  intros HW Hl. unfold chunksize_of. destruct (decide (len = 0)); [lia|].
  destruct (decide (len mod (nworkers * 4) = 0)) as [Hm|]; [|lia].
  pose proof (Nat.div_mod_eq len (nworkers * 4)).
  destruct (len / (nworkers * 4)); lia.
Qed.

Lemma nchunks_pos (size len : nat) : 0 < size → 0 < len → 0 < nchunks size len.
Proof. intros. rewrite nchunks_step by done. lia. Qed.

(** ** The registry *)

Lemma registry_NoDup (N : nat) (reg : registry) : registry_inv N reg → NoDup (avail_connections reg ++ leased reg).
Proof. intros [Hp _]. rewrite Hp. apply NoDup_seq. Qed.

Lemma registry_length (N : nat) (reg : registry) :
  registry_inv N reg → length (avail_connections reg) + length (leased reg) = N.
Proof. intros [Hp _]. rewrite <- length_app, Hp. apply length_seq. Qed.

Lemma registry_lt (N : nat) (reg : registry) (c : nat) : registry_inv N reg → c ∈ leased reg → c < N.
Proof.
  intros [Hp _] Hc. assert (c ∈ seq 0 N) as Hs; [|apply elem_of_seq in Hs; lia].
  rewrite <- Hp. apply elem_of_app. by right.
Qed.

(** ** Schedules *)

Section Exec.
Context {T V : Type}.
Variable method : T → Gmail → result V * Gmail.
Implicit Types (st : @state T V).

Lemma exec_cons w sched st :
  exec method (w :: sched) st = exec method sched (run_worker method st w).
Proof. done. Qed.

Lemma exec_app sched1 sched2 st :
  exec method (sched1 ++ sched2) st = exec method sched2 (exec method sched1 st).
Proof. apply foldl_app. Qed.

End Exec.

(** ** The chunks of a task list *)

Section ChunksOf.
Context {T : Type}.
Variable W : nat.
Variable tasks : list T.
Hypothesis W_pos : 0 < W.

Set Default Proof Using "All".

Local Abbreviation chunks := (chunks_of W tasks).
Local Abbreviation size := (chunksize_of (length tasks) W).

Lemma chunks_size_pos i chunk : chunks !! i = Some chunk → 0 < size.
Proof.
  intros Hi. apply chunksize_of_pos; [done|].
  destruct tasks; [done | simpl; lia].
Qed.

Lemma chunks_shape i chunk :
  chunks !! i = Some chunk →
  0 < length chunk ≤ size ∧ (S i < length chunks → length chunk = size).
Proof.
  intros Hi. apply (get_tasks_go_lookup size (length tasks) tasks); [|done|done].
  by eapply chunks_size_pos.
Qed.

Lemma chunks_concat : concat chunks = tasks.
Proof.
  destruct tasks as [|a l] eqn:Ht; [done|]. rewrite <- Ht.
  apply get_tasks_go_concat; [|done]. apply chunksize_of_pos; [done|].
  rewrite Ht. simpl. lia.
Qed.

Lemma chunks_length :
  length chunks = if decide (size = 0) then 0 else nchunks size (length tasks).
Proof.
  destruct (decide (size = 0)) as [Hs|Hs].
  - destruct tasks as [|a l] eqn:Ht; [done|].
    pose proof (chunksize_of_pos (length tasks) W W_pos) as Hp.
    rewrite Ht in Hp. simpl in Hp, Hs. lia.
  - apply get_tasks_go_length; [lia|done].
Qed.

Lemma chunks_elem_of i chunk args :
  chunks !! i = Some chunk → args ∈ chunk → args ∈ tasks.
Proof.
  intros Hi Ha. rewrite <- chunks_concat. apply list_elem_of_In, in_concat.
  exists chunk. split; apply list_elem_of_In; [|done]. by eapply list_elem_of_lookup_2.
Qed.

End ChunksOf.

(** ** The invariant holds in every reachable state *)

Section Run.
Context {T V : Type}.
Variable method : T → Gmail → result V * Gmail.
Hypothesis method_any_session :
  ∀ args self self', (method args self).1 = (method args self').1.
Variable N W : nat.
Variable tasks : list T.
Hypothesis W_pos : 0 < W.
Hypothesis W_le_N : W ≤ N.

Set Default Proof Using "All".

Local Abbreviation chunks := (chunks_of W tasks).
Local Abbreviation size := (chunksize_of (length tasks) W).
Local Abbreviation inv := (inv method N W tasks).
Local Abbreviation job_ok := (job_ok method W tasks).
Local Abbreviation worker_ok := (worker_ok method W tasks).
Implicit Types (st : @state T V) (x : @worker T V).

Lemma worker_ok_mono (ok ok' : Prop) x :
  (ok' → ok) → worker_ok ok x → worker_ok ok' x.
Proof. destruct x; simpl; auto. Qed.

Lemma lease_le_1 x : lease x ≤ 1.
Proof. destruct x; simpl; lia. Qed.

Lemma lease_le_busy x : lease x ≤ busy x.
Proof. destruct x; simpl; lia. Qed.

(** The start of a [map_async] on a fresh pool. *)
Lemma inv_map_async reg : fresh_pool N reg → inv (map_async W tasks reg) 0.
Proof.
  intros [Hreg Hleased]. unfold map_async. constructor; simpl.
  - done.
  - by rewrite length_replicate.
  - done.
  - lia.
  - intros w x [-> _]%lookup_replicate. done.
  - intros w i. rewrite fmap_replicate. by intros [? _]%lookup_replicate.
  - intros w1 w2 i. rewrite fmap_replicate. by intros [? _]%lookup_replicate.
  - by intros i ?%elem_of_nil.
  - constructor.
  - intros w i _. by intros ?%elem_of_nil.
  - intros w c. rewrite fmap_replicate. by intros [? _]%lookup_replicate.
  - intros w1 w2 c. rewrite fmap_replicate. by intros [? _]%lookup_replicate.
  - done.
  - done.
  - done.
  - intros _ [|? pre] i e post Heq; done.
  - intros _. constructor; simpl.
    + destruct (decide (size = 0)) as [Hs|Hs]; [by rewrite !bool_decide_eq_true_2|].
      rewrite !bool_decide_eq_false_2; [done| |done].
      destruct tasks as [|a l] eqn:Ht; [done|]. rewrite <- Ht in *.
      pose proof (nchunks_pos size (length tasks)). rewrite Ht in *. simpl in *. lia.
    + pose proof (chunks_length W tasks W_pos) as Hlen. unfold chunks_of in Hlen.
      rewrite length_imap, Hlen.
      assert (sum_list_with busy (replicate W (@Idle T V)) = 0) as ->; [|lia].
      clear. induction W; simpl; [done|lia].
  - intros _. constructor; simpl.
    + rewrite Hleased. simpl. clear. induction W; simpl; [done|lia].
    + by intros i r ?%elem_of_nil.
    + exists ((λ chunk, replicate (length chunk) None) <$> chunks). split_and!.
      * rewrite <- (chunks_concat W tasks W_pos) at 1. generalize chunks. clear.
        induction l as [|c l IH]; [done|]. rewrite concat_cons, length_app, replicate_add.
        rewrite fmap_cons, concat_cons. by rewrite IH.
      * by rewrite length_fmap.
      * intros i chunk vs Hi. rewrite list_lookup_fmap, Hi. intros [= <-].
        split_and!; [by rewrite length_replicate|done|].
        intros []. left. lia.
Qed.

Lemma busy_job_of x x' : job_of x' = job_of x → busy x' = busy x.
Proof. by destruct x, x'. Qed.

Lemma slots_ok_jobs st st' k i chunk vs :
  job_of <$> workers st' = job_of <$> workers st →
  outqueue st' = outqueue st →
  slots_ok method st k i chunk vs → slots_ok method st' k i chunk vs.
Proof. unfold slots_ok, pending. by intros -> ->. Qed.

(** A step of worker [w] inside its chunk: the queues and the job stay. *)
Lemma inv_frame st k w x x' st' :
  inv st k →
  workers st !! w = Some x →
  job_of x' = job_of x →
  taskqueue st' = taskqueue st →
  workers st' = <[w:=x']> (workers st) →
  outqueue st' = outqueue st →
  job st' = job st →
  registry_inv N (pool st') →
  worker_ok (no_failure st) x' →
  (∀ w' c, (held <$> workers st') !! w' = Some (Some c) → c ∈ leased (pool st')) →
  (∀ w1 w2 c,
     (held <$> workers st') !! w1 = Some (Some c) →
     (held <$> workers st') !! w2 = Some (Some c) → w1 = w2) →
  (no_failure st →
   length (leased (pool st')) = sum_list_with lease (workers st')) →
  inv st' k.
Proof.
  intros Hinv Hw Hjob Hq' Hw' Ho' Hj' Hreg Hx Hheld Hinj Hlease.
  pose proof (fmap_insert_same job_of _ _ _ _ Hw Hjob) as Hjobs.
  assert (no_failure st' ↔ no_failure st) as Hnf.
  { unfold no_failure. by rewrite Hj', Ho'. }
  destruct Hinv as [Hr Hwl Hq Hn Hwk Hjl Hji Hol Hond Hoj Hh Hhi Hcs Hf He Hfst Hleft Hok].
  constructor; rewrite ?Hq', ?Hj', ?Ho'.
  - done.
  - by rewrite Hw', length_insert.
  - done.
  - done.
  - rewrite Hw'.
    intros w' y [(-> & <- & _)|[_ Hy]]%list_lookup_insert_Some.
    + eapply worker_ok_mono; [|done]. apply Hnf.
    + eapply worker_ok_mono; [|by eapply Hwk]. apply Hnf.
  - by rewrite Hw', Hjobs.
  - by rewrite Hw', Hjobs.
  - done.
  - done.
  - by rewrite Hw', Hjobs.
  - done.
  - done.
  - done.
  - done.
  - done.
  - done.
  - intros Hnone. destruct (Hleft Hnone) as [Hready Hnl].
    constructor; rewrite ?Hq', ?Hj', ?Ho'; [done|].
    rewrite Hnl, Hw'.
    pose proof (sum_list_with_insert busy _ _ _ x' Hw).
    pose proof (busy_job_of _ _ Hjob). lia.
  - intros Hnone%Hnf. destruct (Hok Hnone) as [Hleases Hout Hvalue].
    constructor; rewrite ?Hq', ?Hj', ?Ho'.
    + by apply Hlease.
    + done.
    + destruct Hvalue as (vals & ? & ? & Hslots). exists vals. split_and!; [done..|].
      intros i chunk vs Hi Hvs. eapply slots_ok_jobs; [| |by eapply Hslots]; [|done].
      by rewrite Hw'.
Qed.

(** As long as no failure has been handed in, a worker before its pop
    finds an id. *)
Lemma avail_nonempty st k w x :
  inv st k → workers st !! w = Some x → lease x = 0 →
  no_failure st → avail_connections (pool st) ≠ [].
Proof.
  intros Hinv Hw Hx Hnone Hnil.
  destruct (inv_ok _ _ _ _ _ _ Hinv Hnone) as [Hleases _ _].
  pose proof (registry_length _ _ (inv_registry _ _ _ _ _ _ Hinv)) as Hlen.
  rewrite Hnil in Hlen. simpl in Hlen.
  pose proof (sum_list_with_lt lease _ _ _ lease_le_1 Hw Hx).
  pose proof (inv_workers _ _ _ _ _ _ Hinv). lia.
Qed.

Lemma inv_acquire st k w i done args todo c reg' :
  inv st k →
  workers st !! w = Some (Running i done (args :: todo)) →
  acquire (pool st) = Some (c, reg') →
  inv (set_worker w (Leased i done c args todo) (set_pool reg' st)) k.
Proof.
  intros Hinv Hw (Ha & Hc & Hl)%acquire_Some.
  pose proof (registry_NoDup _ _ (inv_registry _ _ _ _ _ _ Hinv)) as Hnd.
  apply (inv_frame st k w (Running i done (args :: todo)) (Leased i done c args todo));
    [done..| | | | |]; simpl.
  - destruct (inv_registry _ _ _ _ _ _ Hinv) as [Hp Hlen]. split; [|congruence].
    rewrite <- Hp, Ha, Hl, <- app_assoc. done.
  - by apply (inv_worker _ _ _ _ _ _ Hinv _ _ Hw).
  - intros w' c'. rewrite list_fmap_insert, Hl.
    intros [(-> & [= <-] & _)|[_ Hy]]%list_lookup_insert_Some; [by left|].
    right. by eapply (inv_held _ _ _ _ _ _ Hinv).
  - assert (∀ w', (held <$> workers st) !! w' = Some (Some c) → False) as Hfree.
    { intros w' Hw'. apply (inv_held _ _ _ _ _ _ Hinv) in Hw'.
      rewrite Ha in Hnd. apply NoDup_app in Hnd as (_ & Hdis & _).
      apply (Hdis c); [|done]. apply elem_of_app. right. by left. }
    intros w1 w2 c'. rewrite list_fmap_insert.
    intros [(-> & Hc1 & _)|[? H1]]%list_lookup_insert_Some
           [(-> & Hc2 & _)|[? H2]]%list_lookup_insert_Some; simplify_eq/=; try done.
    + by destruct (Hfree w2).
    + by destruct (Hfree w1).
    + by eapply (inv_held_inj _ _ _ _ _ _ Hinv).
  - intros Hnone. destruct (inv_ok _ _ _ _ _ _ Hinv Hnone) as [Hleases _ _].
    rewrite Hl. simpl. rewrite Hleases.
    pose proof (sum_list_with_insert lease _ _ _ (Leased i done c args todo) Hw).
    simpl in *. lia.
Qed.

Lemma inv_pop_empty st k w i done args todo e :
  inv st k →
  workers st !! w = Some (Running i done (args :: todo)) →
  acquire (pool st) = None →
  inv (set_worker w (Raised i e) st) k.
Proof.
  intros Hinv Hw Ha%acquire_None.
  assert (no_failure st → False) as Hfailed.
  { intros Hnone. by eapply avail_nonempty. }
  pose proof (fmap_insert_same held _ _ _ (Raised i e) Hw eq_refl) as Hhelds.
  apply (inv_frame st k w (Running i done (args :: todo)) (Raised i e));
    [done..| | | | |]; simpl; rewrite ?Hhelds.
  - apply (inv_registry _ _ _ _ _ _ Hinv).
  - done.
  - apply (inv_held _ _ _ _ _ _ Hinv).
  - apply (inv_held_inj _ _ _ _ _ _ Hinv).
  - done.
Qed.

Lemma inv_call st k w i done c args todo :
  inv st k →
  workers st !! w = Some (Leased i done c args todo) →
  inv (set_worker w
         match (call method c args (pool st)).1 with
         | Return res => Releasing i done c res todo
         | Raise e => Raised i e
         end
         (set_pool (call method c args (pool st)).2 st)) k.
Proof.
  intros Hinv Hw.
  assert ((held <$> workers st) !! w = Some (Some c)) as Hc.
  { by rewrite list_lookup_fmap, Hw. }
  pose proof (inv_held _ _ _ _ _ _ Hinv _ _ Hc) as Hin.
  destruct (inv_registry _ _ _ _ _ _ Hinv) as [Hp Hlen].
  pose proof (registry_lt _ _ _ (inv_registry _ _ _ _ _ _ Hinv) Hin) as Hlt.
  destruct (lookup_lt_is_Some_2 (connections (pool st)) c) as [conn Hconn]; [lia|].
  destruct (inv_worker _ _ _ _ _ _ Hinv _ _ Hw) as (pre & Hchunk & Hpre).
  unfold call. rewrite Hconn. destruct (method args conn) as [r conn'] eqn:Hm. simpl.
  assert (registry_inv N
    {| avail_connections := avail_connections (pool st);
       connections := <[c:=conn']> (connections (pool st));
       leased := leased (pool st) |}) as Hreg.
  { split; simpl; [done|]. by rewrite length_insert. }
  assert (∀ self, (method args self).1 = r) as Hr.
  { intros self. by rewrite (method_any_session args self conn), Hm. }
  destruct r as [res|e].
  - pose proof (fmap_insert_same held _ _ _ (Releasing i done c res todo) Hw eq_refl) as Hh.
    apply (inv_frame st k w (Leased i done c args todo) (Releasing i done c res todo));
      [done..| | | | |]; simpl; rewrite ?Hh.
    + done.
    + by exists pre, args.
    + apply (inv_held _ _ _ _ _ _ Hinv).
    + apply (inv_held_inj _ _ _ _ _ _ Hinv).
    + intros Hnone. destruct (inv_ok _ _ _ _ _ _ Hinv Hnone) as [-> _ _].
      pose proof (sum_list_with_insert lease _ _ _ (Releasing i done c res todo) Hw).
      simpl in *. lia.
  - apply (inv_frame st k w (Leased i done c args todo) (Raised i e));
      [done..| | | | |]; simpl.
    + done.
    + intros _. exists (pre ++ args :: todo), args. split_and!; [done| |done].
      apply elem_of_app. right. by left.
    + intros w' c'. rewrite list_fmap_insert.
      intros [(-> & ? & _)|[_ Hy]]%list_lookup_insert_Some; [done|].
      by eapply (inv_held _ _ _ _ _ _ Hinv).
    + intros w1 w2 c'. rewrite list_fmap_insert.
      intros [(-> & ? & _)|[? H1]]%list_lookup_insert_Some
             [(-> & ? & _)|[? H2]]%list_lookup_insert_Some; simplify_eq/=.
      by eapply (inv_held_inj _ _ _ _ _ _ Hinv).
    + intros Hnone. destruct (inv_ok _ _ _ _ _ _ Hinv Hnone) as [-> _ _].
      pose proof (sum_list_with_insert lease _ _ _ (Raised i e) Hw).
      simpl in *. lia.
Qed.

Lemma inv_release st k w i done c res todo :
  inv st k →
  workers st !! w = Some (Releasing i done c res todo) →
  inv (set_worker w (Running i (done ++ [res]) todo)
         (set_pool (release c (pool st)) st)) k.
Proof.
  intros Hinv Hw.
  assert ((held <$> workers st) !! w = Some (Some c)) as Hc.
  { by rewrite list_lookup_fmap, Hw. }
  pose proof (inv_held _ _ _ _ _ _ Hinv _ _ Hc) as Hin.
  destruct (inv_registry _ _ _ _ _ _ Hinv) as [Hp Hlen].
  pose proof (registry_NoDup _ _ (inv_registry _ _ _ _ _ _ Hinv)) as Hnd.
  apply NoDup_app in Hnd as (_ & _ & Hndl).
  pose proof (leased_remove _ _ Hndl Hin) as Hrem.
  destruct (inv_worker _ _ _ _ _ _ Hinv _ _ Hw) as (pre & args & Hchunk & Hpre & Hres).
  apply (inv_frame st k w (Releasing i done c res todo) (Running i (done ++ [res]) todo));
    [done..| | | | |]; simpl.
  - split; simpl; [|done]. unfold append. rewrite <- Hp, <- app_assoc. simpl.
    rewrite Hrem at 2. done.
  - exists (pre ++ [args]). rewrite <- app_assoc. split; [done|].
    apply Forall2_app; [done|]. by constructor.
  - intros w' c'. rewrite list_fmap_insert.
    intros [(-> & ? & _)|[Hne Hy]]%list_lookup_insert_Some; [done|].
    apply list_elem_of_filter. split; [|by eapply (inv_held _ _ _ _ _ _ Hinv)].
    intros ->. apply Hne. by eapply (inv_held_inj _ _ _ _ _ _ Hinv).
  - intros w1 w2 c'. rewrite list_fmap_insert.
    intros [(-> & ? & _)|[? H1]]%list_lookup_insert_Some
           [(-> & ? & _)|[? H2]]%list_lookup_insert_Some; simplify_eq/=.
    by eapply (inv_held_inj _ _ _ _ _ _ Hinv).
  - intros Hnone. destruct (inv_ok _ _ _ _ _ _ Hinv Hnone) as [Hleases _ _].
    pose proof (sum_list_with_insert lease _ _ _ (Running i (done ++ [res]) todo) Hw).
    apply Permutation_length in Hrem. simpl in *. lia.
Qed.

Lemma inv_take st k w i chunk rest :
  inv st k →
  workers st !! w = Some Idle →
  taskqueue st = (i, chunk) :: rest →
  inv {| pool := pool st; taskqueue := rest;
         workers := <[w := Running i [] chunk]> (workers st);
         outqueue := outqueue st;
         job := job st |} (S k).
Proof.
  intros Hinv Hw Hq.
  destruct Hinv as [Hr Hwl Hq' Hn Hwk Hjl Hji Hol Hond Hoj Hh Hhi Hcs Hf He Hfst Hleft Hok].
  rewrite Hq in Hq'. symmetry in Hq'. apply drop_cons_inv in Hq' as [Hk ->].
  apply list_lookup_imap_Some in Hk as (chunk' & Hk & [= -> ->]).
  pose proof (lookup_lt_Some _ _ _ Hk) as Hlt.
  pose proof (fmap_insert_same held _ _ _ (Running k [] chunk') Hw eq_refl) as Hhelds.
  assert (∀ j, Some j ∈ job_of <$> <[w:=Running k [] chunk']> (workers st)
             ↔ j = k ∨ Some j ∈ job_of <$> workers st) as Hjobs.
  { intros j. rewrite list_fmap_insert, !list_elem_of_lookup. split.
    - intros [w' [(-> & [= ->] & _)|[? H']]%list_lookup_insert_Some]; eauto.
    - intros [->|[w' H']].
      + exists w. apply list_lookup_insert_eq. rewrite length_fmap. by eapply lookup_lt_Some.
      + exists w'. apply list_lookup_insert_Some. right. split; [|done].
        intros ->. rewrite list_lookup_fmap, Hw in H'. done. }
  constructor; simpl.
  - done.
  - by rewrite length_insert.
  - done.
  - lia.
  - intros w' y [(-> & <- & _)|[_ Hy]]%list_lookup_insert_Some; [|eauto].
    by exists [].
  - intros w' j. rewrite list_fmap_insert.
    intros [(-> & [= ->] & _)|[_ Hy]]%list_lookup_insert_Some; [lia|].
    apply Hjl in Hy. lia.
  - intros w1 w2 j. rewrite list_fmap_insert.
    intros [(-> & ? & _)|[? H1]]%list_lookup_insert_Some
           [(-> & ? & _)|[? H2]]%list_lookup_insert_Some; simplify_eq/=; try done.
    + apply Hjl in H2. lia.
    + apply Hjl in H1. lia.
    + by eapply Hji.
  - intros j Hj. apply Hol in Hj. lia.
  - done.
  - intros w' j. rewrite list_fmap_insert.
    intros [(-> & [= <-] & _)|[_ Hy]]%list_lookup_insert_Some; [|by eapply Hoj].
    intros Hj%Hol. lia.
  - by rewrite Hhelds.
  - by rewrite Hhelds.
  - done.
  - done.
  - done.
  - done.
  - intros Hnone. destruct (Hleft Hnone) as [Hready Hnl].
    constructor; simpl; [done|].
    rewrite Hnl, Hq. simpl.
    pose proof (sum_list_with_insert busy _ _ _ (Running k [] chunk') Hw).
    simpl in *. lia.
  - intros Hnone. destruct (Hok Hnone) as [Hleases Hout Hvalue].
    constructor; simpl.
    + rewrite Hleases.
      pose proof (sum_list_with_insert lease _ _ _ (Running k [] chunk') Hw).
      simpl in *. lia.
    + done.
    + destruct Hvalue as (vals & ? & ? & Hslots). exists vals. split_and!; [done..|].
      intros j chunk vs Hj Hvs. destruct (Hslots j chunk vs Hj Hvs) as (? & Hp & Hnp).
      assert (∀ st', workers st' = <[w := Running k [] chunk']> (workers st) →
                     outqueue st' = outqueue st →
                pending st' (S k) j ↔ pending st k j) as Hpend.
      { intros st' Hst' Ho'. unfold pending. rewrite Hst', Ho', Hjobs. split.
        - intros [?|[[->|?]|?]]; [left; lia|left; lia|by right; left|by right; right].
        - intros [?|[?|?]]; [|by right; left; right|by right; right].
          destruct (decide (j = k)) as [->|]; [by right; left; left|left; lia]. }
      split_and!; [done| |].
      * intros Hx. apply Hp. eapply Hpend; [| |exact Hx]; done.
      * intros Hx. apply Hnp. intros Hy. apply Hx. by apply Hpend.
Qed.

(** Worker [w] puts what chunk [i] came to on the out-queue and waits for
    the next chunk. *)
Lemma pending_put st k w x i r j :
  workers st !! w = Some x → job_of x = Some i →
  pending (set_worker w Idle (put i r st)) k j ↔ pending st k j.
Proof.
  intros Hw Hjob.
  assert ((job_of <$> workers st) !! w = Some (Some i)) as Hwi.
  { by rewrite list_lookup_fmap, Hw; simpl; rewrite Hjob. }
  unfold pending. simpl. rewrite list_fmap_insert, fmap_app, elem_of_app. simpl.
  rewrite list_elem_of_singleton, !list_elem_of_lookup. split.
  - intros [?|[[w' [(-> & ? & _)|[Hne H']]%list_lookup_insert_Some]|[?| ->]]]; eauto.
    done.
  - intros [?|[[w' H']|?]]; [by left| |by right; right; left].
    destruct (decide (w' = w)) as [->|Hne].
    + rewrite Hwi in H'. injection H' as ->. by right; right; right.
    + right. left. exists w'. apply list_lookup_insert_Some. by right.
Qed.

Lemma inv_put st k w x i r :
  inv st k →
  workers st !! w = Some x →
  (∃ done, x = Running i done [] ∧ r = Return done) ∨ (∃ e, x = Raised i e ∧ r = Raise e) →
  inv (set_worker w Idle (put i r st)) k.
Proof.
  intros Hinv Hw Hx.
  assert (job_of x = Some i ∧ held x = None ∧ busy x = 1) as (Hjob & Hheld & Hbusy).
  { by destruct Hx as [(dn & -> & _)|(e & -> & _)]. }
  assert ((job_of <$> workers st) !! w = Some (Some i)) as Hwi.
  { by rewrite list_lookup_fmap, Hw; simpl; rewrite Hjob. }
  pose proof (fmap_insert_same held _ _ _ Idle Hw (eq_sym Hheld)) as Hhelds.
  assert (no_failure (set_worker w Idle (put i r st)) → no_failure st ∧ ¬ failed (i, r)) as Hnf.
  { intros [Hnone [Hold Hnew]%Forall_app]. simpl in *. split; [done|].
    by inversion Hnew. }
  destruct Hinv as [Hr Hwl Hq Hn Hwk Hjl Hji Hol Hond Hoj Hh Hhi Hcs Hf He Hfst Hleft Hok].
  constructor; simpl.
  - done.
  - by rewrite length_insert.
  - done.
  - done.
  - intros w' y [(-> & <- & _)|[_ Hy]]%list_lookup_insert_Some; [done|].
    eapply worker_ok_mono; [|by eapply Hwk]. by intros []%Hnf.
  - intros w' j. rewrite list_fmap_insert.
    intros [(-> & ? & _)|[_ Hy]]%list_lookup_insert_Some; [done|]. by eapply Hjl.
  - intros w1 w2 j. rewrite list_fmap_insert.
    intros [(-> & ? & _)|[? H1]]%list_lookup_insert_Some
           [(-> & ? & _)|[? H2]]%list_lookup_insert_Some; simplify_eq/=.
    by eapply Hji.
  - intros j. rewrite fmap_app, elem_of_app. simpl. rewrite list_elem_of_singleton.
    intros [?| ->]; [by apply Hol|by eapply Hjl].
  - rewrite fmap_app. apply NoDup_app. split_and!; [done| |apply NoDup_singleton].
    intros j Hj ->%list_elem_of_singleton. by eapply Hoj.
  - intros w' j. rewrite list_fmap_insert, fmap_app, elem_of_app. simpl.
    rewrite list_elem_of_singleton.
    intros [(-> & ? & _)|[Hne Hy]]%list_lookup_insert_Some; [done|].
    intros [?| ->]; [by eapply Hoj|]. apply Hne. by eapply Hji.
  - by rewrite Hhelds.
  - by rewrite Hhelds.
  - done.
  - done.
  - done.
  - intros Hnone pre j e post Heq Hpre.
    destruct post as [|z post _] using rev_ind.
    + apply app_inj_tail in Heq as [Hout [= <- ->]].
      destruct Hx as [(dn & _ & ?)|(e' & -> & [= <-])]; [done|].
      destruct (Hwk _ _ Hw) as (chunk & args & Hc & Ha & Hraises).
      { split; [done|]. by rewrite Hout. }
      exists args. split; [|done]. by eapply (chunks_elem_of W tasks W_pos).
    + rewrite app_comm_cons, app_assoc in Heq. apply app_inj_tail in Heq as [Hout _].
      by eapply Hfst.
  - intros Hnone. destruct (Hleft Hnone) as [Hready Hnl].
    constructor; simpl; [done|]. rewrite Hnl, length_app. simpl.
    pose proof (sum_list_with_insert busy _ _ _ Idle Hw). simpl in *. lia.
  - intros [Hnone Hnew]%Hnf.
    destruct Hx as [(dn & -> & ->)|(e & _ & ->)]; [|destruct Hnew; by eexists].
    destruct (Hok Hnone) as [Hleases Hout Hvalue].
    constructor; simpl.
    + rewrite Hleases.
      pose proof (sum_list_with_insert lease _ _ _ Idle Hw). simpl in *. lia.
    + intros j r [?|[= -> ->]%list_elem_of_singleton]%elem_of_app; [by apply Hout|].
      destruct (Hwk _ _ Hw) as (pre & Hchunk & Hpre). rewrite app_nil_r in Hchunk.
      by exists pre, dn.
    + destruct Hvalue as (vals & ? & ? & Hslots). exists vals. split_and!; [done..|].
      intros j chunk vs Hj Hvs. destruct (Hslots j chunk vs Hj Hvs) as (? & Hp & Hnp).
      pose proof (pending_put st k w (Running i dn []) i (Return dn) j Hw eq_refl) as Hpend.
      split_and!; [done| |].
      * intros Hx. apply Hp. by apply Hpend.
      * intros Hx. apply Hnp. intros Hy. apply Hx. by apply Hpend.
Qed.

(** With no failure recorded, an entry on the out-queue keeps the job from
    being ready. *)
Lemma out_not_ready st k :
  inv st k → failure (job st) = None → outqueue st ≠ [] →
  ready (job st) = false ∧ 0 < number_left (job st).
Proof.
  intros Hinv Hnone Hout. destruct (inv_left _ _ _ _ _ _ Hinv Hnone) as [Hready Hnl].
  assert (0 < number_left (job st)) as Hpos.
  { destruct (outqueue st); [done|]. simpl in Hnl. lia. }
  split; [|done]. rewrite Hready. apply bool_decide_eq_false. lia.
Qed.

(** The result handler sets the first entry of the out-queue in the job. *)
Lemma inv_handle st k i r rest :
  inv st k →
  outqueue st = (i, r) :: rest →
  inv {| pool := pool st; taskqueue := taskqueue st; workers := workers st;
         outqueue := rest; job := MapResult_set i r (job st) |} k.
Proof.
  intros Hinv Hout.
  pose proof Hinv as [Hr Hwl Hq Hn Hwk Hjl Hji Hol Hond Hoj Hh Hhi Hcs Hf He Hfst Hleft Hok].
  assert (∀ j, j ∈ rest.*1 → j ∈ (outqueue st).*1) as Hsub.
  { intros j Hj. rewrite Hout. simpl. by right. }
  assert (chunksize (MapResult_set i r (job st)) = chunksize (job st)) as Hcs'.
  { unfold MapResult_set. destruct (ready (job st)); [done|]. by destruct r. }
  destruct (failure (job st)) as [e0|] eqn:Hfl.
  { (* the job has failed before: it is ready, and is not set again *)
    assert (ready (job st) = true) as Hready by (by apply Hf).
    assert (MapResult_set i r (job st) = job st) as Hjob.
    { unfold MapResult_set. by rewrite Hready. }
    rewrite Hjob. constructor; simpl; rewrite ?Hfl; try done.
    - intros w x Hw. eapply worker_ok_mono; [|by eapply Hwk].
      intros [Hnone _]. simpl in Hnone. congruence.
    - intros j Hj. by apply Hol, Hsub.
    - rewrite Hout in Hond. simpl in Hond. by apply NoDup_cons in Hond as [_ ?].
    - intros w j Hw Hj. by eapply Hoj, Hsub.
    - intros [Hnone _]. simpl in Hnone. congruence. }
  destruct (out_not_ready st k Hinv Hfl) as [Hready Hpos]; [by rewrite Hout|].
  destruct (Hleft eq_refl) as [_ Hnl].
  unfold MapResult_set. rewrite Hready.
  destruct r as [res|e].
  - (* a chunk that returned *)
    assert (∀ m, no_failure {| pool := pool st; taskqueue := taskqueue st;
                               workers := workers st; outqueue := rest; job := m |} →
                 no_failure st) as Hnf.
    { intros m [_ Hrest]. simpl in Hrest. split; [done|]. rewrite Hout.
      constructor; [|done]. by intros [e' He']. }
    constructor; simpl; rewrite ?Hfl; try done.
    + intros w x Hw. eapply worker_ok_mono; [|by eapply Hwk]. apply Hnf.
    + intros j Hj. by apply Hol, Hsub.
    + rewrite Hout in Hond. simpl in Hond. by apply NoDup_cons in Hond as [_ ?].
    + intros w j Hw Hj. by eapply Hoj, Hsub.
    + intros _ pre j e post Heq Hpre. apply (Hfst eq_refl ((i, Return res) :: pre) j e post).
      * by rewrite Hout, Heq.
      * constructor; [|done]. by intros [e' He'].
    + intros _. constructor; simpl; [done|].
      rewrite Hout in Hnl. simpl in Hnl. lia.
    + intros Hnone%Hnf. destruct (Hok Hnone) as [Hleases Houts Hvalue].
      destruct (Houts i (Return res)) as (chunk & res' & [= <-] & Hchunk & Hres).
      { rewrite Hout. by left. }
      assert (i ∉ rest.*1) as Hfresh.
      { rewrite Hout in Hond. simpl in Hond. by apply NoDup_cons in Hond as [? _]. }
      assert (∀ st' j,
                workers st' = workers st → outqueue st' = rest →
                pending st' k j ↔ pending st k j ∧ j ≠ i) as Hpend.
      { intros st' j Hw' Ho'. unfold pending. rewrite Hw', Ho', Hout. simpl. split.
        - intros [?|[Hj|Hj]].
          + split; [by left|]. intros ->.
            assert (i < k); [|lia]. apply Hol. rewrite Hout. by left.
          + split; [by right; left|]. intros ->.
            apply list_elem_of_lookup in Hj as [w Hj].
            apply (Hoj _ _ Hj). rewrite Hout. by left.
          + split; [by right; right; right|]. by intros ->.
        - intros [[?|[?|[?|?]%elem_of_cons]] Hne]; [by left|by right; left|done|].
          by right; right. }
      constructor; simpl.
      * done.
      * intros j r' Hin. apply Houts. rewrite Hout. by right.
      * destruct Hvalue as (vals & Hval & Hlen & Hslots).
        destruct (lookup_lt_is_Some_2 vals i) as [old Hold].
        { rewrite Hlen. by eapply lookup_lt_Some. }
        exists (<[i := Some <$> res]> vals). split_and!.
        -- rewrite Hval, Hcs.
           apply (slice_concat vals size i old); [done|].
           intros j vs Hvs. destruct (lookup_lt_is_Some_2 chunks j) as [chunk' Hj].
           { rewrite <- Hlen. by eapply lookup_lt_Some. }
           destruct (Hslots j chunk' vs Hj Hvs) as (-> & _ & _). rewrite Hlen.
           destruct (chunks_shape W tasks W_pos _ _ Hj) as [[_ Hle] Hfull]. by split.
        -- by rewrite length_insert.
        -- intros j chunk' vs Hj Hvs.
           destruct (decide (j = i)) as [->|Hne].
           ++ rewrite list_lookup_insert_eq in Hvs by (by eapply lookup_lt_Some).
              injection Hvs as <-. rewrite Hchunk in Hj. injection Hj as <-.
              split_and!.
              ** rewrite length_fmap. symmetry. by eapply Forall2_length.
              ** intros [_ ?]%Hpend; done.
              ** intros _. apply Forall2_fmap_r.
                 eapply Forall2_impl; [done|]. simpl. eauto.
           ++ rewrite list_lookup_insert_ne in Hvs by done.
              destruct (Hslots j chunk' vs Hj Hvs) as (? & Hp & Hnp).
              split_and!; [done| |].
              ** intros [? _]%Hpend; [|done..]. by apply Hp.
              ** intros Hx. apply Hnp. intros Hy. apply Hx, Hpend; done.
  - (* a chunk that raised: the job fails *)
    constructor; simpl; try done.
    + intros w x Hw. eapply worker_ok_mono; [|by eapply Hwk]. by intros [? _].
    + intros j Hj. by apply Hol, Hsub.
    + rewrite Hout in Hond. simpl in Hond. by apply NoDup_cons in Hond as [_ ?].
    + intros w j Hw Hj. by eapply Hoj, Hsub.
    + intros e' [= <-]. apply (Hfst eq_refl [] i e rest); [done|constructor].
    + by intros [? _].
Qed.

(** Every step of every thread keeps the invariant. *)
Lemma inv_step st k w st' :
  inv st k → step method w st = Some st' → ∃ k', inv st' k'.
Proof.
  intros Hinv Hstep. unfold step in Hstep.
  destruct (workers st !! w)
    as [[|i dn [|args todo]|i dn c args todo|i dn c res todo|i e]|] eqn:Hw.
  - destruct (taskqueue st) as [|[i chunk] rest] eqn:Hq; [done|].
    injection Hstep as <-. exists (S k). by apply inv_take.
  - injection Hstep as <-. exists k. eapply inv_put; [done..|]. left. by exists dn.
  - destruct (acquire (pool st)) as [[c reg']|] eqn:Ha; injection Hstep as <-; exists k.
    + by apply inv_acquire.
    + by eapply inv_pop_empty.
  - pose proof (inv_call _ _ _ _ _ _ _ _ Hinv Hw) as Hcall.
    destruct (call method c args (pool st)) as [[res|e] reg'];
      injection Hstep as <-; by exists k.
  - injection Hstep as <-. exists k. by apply inv_release.
  - injection Hstep as <-. exists k. eapply inv_put; [done..|]. right. by exists e.
  - unfold handle_results in Hstep.
    destruct (outqueue st) as [|[i r] rest] eqn:Hout; [done|].
    injection Hstep as <-. exists k. by apply inv_handle.
Qed.

Lemma inv_exec sched st k :
  inv st k → ∃ k', inv (exec method sched st) k'.
Proof.
  revert st k. induction sched as [|w sched IH]; intros st k Hinv; [by exists k|].
  rewrite exec_cons. unfold run_worker.
  destruct (step method w st) as [st'|] eqn:Hstep; simpl.
  - destruct (inv_step _ _ _ _ Hinv Hstep) as [k' Hinv']. by eapply IH.
  - by eapply IH.
Qed.


End Run.
(** ** Progress and the outcome of a run *)

Lemma sum_list_with_pos {A} (f : A → nat) (l : list A) :
  0 < sum_list_with f l → ∃ i x, l !! i = Some x ∧ 0 < f x.
Proof.
  induction l as [|a l IH]; simpl; [lia|]. intros Hs.
  destruct (decide (0 < f a)) as [Ha|Ha]; [by exists 0, a|].
  destruct IH as (i & x & Hi & Hx); [lia|]. by exists (S i), x.
Qed.

Lemma sum_list_with_le {A} (f g : A → nat) (l : list A) :
  (∀ x, f x ≤ g x) → sum_list_with f l ≤ sum_list_with g l.
Proof. intros Hfg. induction l as [|a l IH]; simpl; [done|]. specialize (Hfg a). lia. Qed.

Section Progress.
Context {T V : Type}.
Variable method : T → Gmail → result V * Gmail.
Implicit Types (st : @state T V) (x : @worker T V).

(** Every step takes work away. *)
Lemma step_weight w st st' : step method w st = Some st' → weight st' < weight st.
Proof.
  unfold step, weight. intros Hstep.
  destruct (workers st !! w)
    as [[|i dn [|args todo]|i dn c args todo|i dn c res todo|i e]|] eqn:Hw.
  - destruct (taskqueue st) as [|[i chunk] rest] eqn:Hq; [done|].
    injection Hstep as <-. simpl.
    pose proof (sum_list_with_insert worker_weight _ _ _ (Running i [] chunk) Hw).
    simpl in *. lia.
  - injection Hstep as <-. simpl. rewrite length_app. simpl.
    pose proof (sum_list_with_insert worker_weight _ _ _ Idle Hw). simpl in *. lia.
  - destruct (acquire (pool st)) as [[c reg']|]; injection Hstep as <-; simpl.
    + pose proof (sum_list_with_insert worker_weight _ _ _ (Leased i dn c args todo) Hw).
      simpl in *. lia.
    + pose proof (sum_list_with_insert worker_weight _ _ _
                    (Raised i (IndexError "pop from empty list")) Hw).
      simpl in *. lia.
  - destruct (call method c args (pool st)) as [[res|e] reg']; injection Hstep as <-; simpl.
    + pose proof (sum_list_with_insert worker_weight _ _ _ (Releasing i dn c res todo) Hw).
      simpl in *. lia.
    + pose proof (sum_list_with_insert worker_weight _ _ _ (Raised i e) Hw).
      simpl in *. lia.
  - injection Hstep as <-. simpl.
    pose proof (sum_list_with_insert worker_weight _ _ _ (Running i (dn ++ [res]) todo) Hw).
    simpl in *. lia.
  - injection Hstep as <-. simpl. rewrite length_app. simpl.
    pose proof (sum_list_with_insert worker_weight _ _ _ Idle Hw). simpl in *. lia.
  - unfold handle_results in Hstep.
    destruct (outqueue st) as [|[i r] rest]; [done|].
    injection Hstep as <-. simpl. lia.
Qed.

(** A worker inside a chunk can always move. *)
Lemma busy_can_step w st x :
  workers st !! w = Some x → busy x = 1 → is_Some (step method w st).
Proof.
  intros Hw Hx. unfold step. rewrite Hw.
  destruct x as [|i dn [|args todo]|i dn c args todo|i dn c res todo|i e]; try done.
  - by destruct (acquire (pool st)) as [[??]|].
  - by destruct (call method c args (pool st)) as [[?|?] ?].
Qed.

Lemma idle_can_step w st :
  workers st !! w = Some Idle → taskqueue st ≠ [] → is_Some (step method w st).
Proof.
  intros Hw Hq. unfold step. rewrite Hw.
  by destruct (taskqueue st) as [|[i chunk] rest].
Qed.

(** The result handler can move when the out-queue holds an entry. *)
Lemma handler_can_step st :
  outqueue st ≠ [] → is_Some (step method (length (workers st)) st).
Proof.
  intros Hout. unfold step. rewrite lookup_ge_None_2 by done.
  unfold handle_results. by destruct (outqueue st) as [|[i r] rest].
Qed.

End Progress.

Section Outcome.
Context {T V : Type}.
Variable method : T → Gmail → result V * Gmail.
Hypothesis method_any_session :
  ∀ args self self', (method args self).1 = (method args self').1.
Variable N W : nat.
Variable tasks : list T.
Hypothesis W_pos : 0 < W.
Hypothesis W_le_N : W ≤ N.

Set Default Proof Using "All".

Local Abbreviation chunks := (chunks_of W tasks).
Local Abbreviation inv := (inv method N W tasks).
Local Abbreviation start := (inv_map_async method method_any_session N W tasks W_pos W_le_N).
Implicit Types (st : @state T V) (x : @worker T V).

(** While the job is not ready, some thread can move. *)
Lemma progress st k :
  inv st k → ready (job st) = false → ∃ w, is_Some (step method w st).
Proof.
  intros Hinv Hready.
  assert (failure (job st) = None) as Hnone.
  { destruct (failure (job st)) eqn:Hfl; [|done].
    rewrite (inv_failed _ _ _ _ _ _ Hinv) in Hready; [done|congruence]. }
  destruct (inv_left _ _ _ _ _ _ Hinv Hnone) as [Hr Hleft].
  rewrite Hready in Hr. symmetry in Hr. apply bool_decide_eq_false in Hr.
  destruct (decide (outqueue st = [])) as [Hout|Hout];
    [|exists (length (workers st)); by apply handler_can_step].
  rewrite Hout in Hleft. simpl in Hleft.
  destruct (decide (0 < sum_list_with busy (workers st))) as [Hb|Hb].
  - apply sum_list_with_pos in Hb as (w & x & Hw & Hx). exists w.
    eapply busy_can_step; [done|]. destruct x; simpl in *; lia.
  - destruct (lookup_lt_is_Some_2 (workers st) 0) as [x Hw].
    { rewrite (inv_workers _ _ _ _ _ _ Hinv). done. }
    exists 0. assert (busy x = 0) as Hx.
    { eapply sum_list_with_0; [|done]. lia. }
    destruct x; try done. apply idle_can_step; [done|].
    intros Hq. rewrite Hq in Hleft. simpl in Hleft. lia.
Qed.

(** Some schedule brings the job to its end. *)
Lemma exists_schedule n st k :
  weight st ≤ n → inv st k → ∃ sched, ready (job (exec method sched st)) = true.
Proof.
  revert st k. induction n as [|n IH]; intros st k Hn Hinv.
  - destruct (ready (job st)) eqn:Hready; [by exists []|].
    destruct (progress _ _ Hinv Hready) as [w [st' Hstep]].
    apply step_weight in Hstep. lia.
  - destruct (ready (job st)) eqn:Hready; [by exists []|].
    destruct (progress _ _ Hinv Hready) as [w [st' Hstep]].
    destruct (inv_step method method_any_session N W tasks W_pos W_le_N _ _ _ _ Hinv Hstep)
      as [k' Hinv'].
    pose proof (step_weight _ _ _ _ Hstep).
    destruct (IH st' k') as [sched Hs]; [lia|done|].
    exists (w :: sched). rewrite exec_cons. unfold run_worker. by rewrite Hstep.
Qed.

(** A job that ended without a failure: every slot holds the result of its
    task, every worker waits, the queues are empty and nothing is leased. *)
Lemma inv_return st k :
  inv st k → ready (job st) = true → failure (job st) = None →
  Forall2 (λ args ov, ∃ res, ov = Some res ∧ returns method args res)
    tasks (value (job st)) ∧
  fresh_pool N (pool st).
Proof.
  intros Hinv Hready Hnone.
  destruct (inv_left _ _ _ _ _ _ Hinv Hnone) as [Hr Hleft].
  rewrite Hready in Hr. symmetry in Hr. apply bool_decide_eq_true in Hr.
  assert (taskqueue st = []) as Hq by (apply length_zero_iff_nil; lia).
  assert (sum_list_with busy (workers st) = 0) as Hbusy by lia.
  assert (outqueue st = []) as Hout by (apply length_zero_iff_nil; lia).
  assert (no_failure st) as Hnf by (split; [done|]; rewrite Hout; constructor).
  destruct (inv_ok _ _ _ _ _ _ Hinv Hnf) as [Hleases _ Hvalue].
  split.
  - destruct Hvalue as (vals & -> & Hlen & Hslots).
    rewrite <- (chunks_concat W tasks W_pos). apply Forall2_concat.
    apply Forall2_same_length_lookup_2; [done|]. intros i chunk vs Hi Hvs.
    destruct (Hslots i chunk vs Hi Hvs) as (_ & _ & Hdone). apply Hdone.
    intros [Hk|[Hj|Hj]].
    + pose proof (inv_queue _ _ _ _ _ _ Hinv) as Hdrop. rewrite Hq in Hdrop.
      symmetry in Hdrop. apply drop_nil_inv in Hdrop. rewrite length_imap in Hdrop.
      apply lookup_lt_Some in Hi. lia.
    + apply list_elem_of_lookup in Hj as [w Hw].
      apply list_lookup_fmap_Some in Hw as (x & Hx & Hw).
      pose proof (sum_list_with_0 busy _ _ _ Hbusy Hw). by destruct x.
    + rewrite Hout in Hj. by apply elem_of_nil in Hj.
  - split; [apply (inv_registry _ _ _ _ _ _ Hinv)|].
    apply length_zero_iff_nil. rewrite Hleases.
    pose proof (sum_list_with_le lease busy (workers st)
                  (lease_le_busy method method_any_session N W tasks W_pos W_le_N)). lia.
Qed.

(** What [get()] gives at the end of any schedule: the results of the
    tasks, in the order of the tasks, or the exception of one of them. *)
Lemma map_async_get_spec reg sched r reg' :
  fresh_pool N reg →
  map_async_get method W tasks sched reg = Some (r, reg') →
  match r with
  | Return vs =>
      Forall2 (λ args ov, ∃ res, ov = Some res ∧ returns method args res) tasks vs ∧
      fresh_pool N reg'
  | Raise e => ∃ args, args ∈ tasks ∧ raises method args e
  end.
Proof.
  intros Hreg. unfold map_async_get, MapResult_get.
  destruct (inv_exec method method_any_session N W tasks W_pos W_le_N sched _ 0
              (start reg Hreg)) as [k Hinv].
  destruct (ready (job (exec method sched (map_async W tasks reg)))) eqn:Hready; [|done].
  simpl. intros [= <- <-].
  destruct (failure (job (exec method sched (map_async W tasks reg)))) as [e|] eqn:Hfl.
  - by apply (inv_error _ _ _ _ _ _ Hinv).
  - by eapply inv_return.
Qed.

(** And some schedule does reach the end. *)
Lemma map_async_get_total reg :
  fresh_pool N reg → ∃ sched, is_Some (map_async_get method W tasks sched reg).
Proof.
  intros Hreg.
  destruct (exists_schedule _ _ 0 (le_n _) (start reg Hreg)) as [sched Hs].
  exists sched. unfold map_async_get, MapResult_get. rewrite Hs. by eexists.
Qed.

End Outcome.

(** ** The registry in every reachable state *)

Section Pool.
Context {T V : Type}.
Variable method : T → Gmail → result V * Gmail.
Variable N : nat.
Implicit Types (st : @state T V) (x : @worker T V).

(** A thread moves without touching the registry. *)
Lemma pool_inv_same st st' w x x' :
  pool_inv N st →
  workers st !! w = Some x → held x = None → held x' = None →
  pool st' = pool st → workers st' = <[w:=x']> (workers st) →
  pool_inv N st'.
Proof.
  intros (Hreg & Hheld & Hinj) Hw Hx Hx' Hp' Hw'.
  assert (held <$> workers st' = held <$> workers st) as Hh.
  { rewrite Hw'. eapply fmap_insert_same; [done|congruence]. }
  unfold pool_inv. by rewrite Hh, Hp'.
Qed.

(** A worker lets go of the id it holds; the registry keeps it leased or
    takes it back. *)
Lemma pool_inv_drop st st' w x x' c :
  pool_inv N st →
  workers st !! w = Some x → held x = Some c → held x' = None →
  registry_inv N (pool st') →
  (∀ c', c' ≠ c → c' ∈ leased (pool st) → c' ∈ leased (pool st')) →
  workers st' = <[w:=x']> (workers st) →
  pool_inv N st'.
Proof.
  intros (Hreg & Hheld & Hinj) Hw Hx Hx' Hreg' Hl' Hw'.
  assert ((held <$> workers st) !! w = Some (Some c)) as Hwc.
  { by rewrite list_lookup_fmap, Hw; simpl; rewrite Hx. }
  split_and!; [done| |]; rewrite Hw', list_fmap_insert, Hx'.
  - intros w' c' [(-> & ? & _)|[Hne Hy]]%list_lookup_insert_Some; [done|].
    apply Hl'; [|by eapply Hheld]. intros ->. apply Hne. by eapply Hinj.
  - intros w1 w2 c' [(-> & ? & _)|[? H1]]%list_lookup_insert_Some
                    [(-> & ? & _)|[? H2]]%list_lookup_insert_Some; simplify_eq/=.
    by eapply Hinj.
Qed.

Lemma pool_inv_step st w st' :
  pool_inv N st → step method w st = Some st' → pool_inv N st'.
Proof.
  intros Hinv Hstep. pose proof Hinv as (Hreg & Hheld & Hinj). unfold step in Hstep.
  destruct (workers st !! w)
    as [[|i dn [|args todo]|i dn c args todo|i dn c res todo|i e]|] eqn:Hw;
    [| | | | | |unfold handle_results in Hstep;
                destruct (outqueue st) as [|[i r] rest]; [done|];
                by injection Hstep as <-].
  - destruct (taskqueue st) as [|[i chunk] rest] eqn:Hq; [done|].
    injection Hstep as <-. by apply (pool_inv_same st _ w Idle (Running i [] chunk)).
  - injection Hstep as <-. by apply (pool_inv_same st _ w (Running i dn []) Idle).
  - destruct (acquire (pool st)) as [[c reg']|] eqn:Ha; injection Hstep as <-;
      [|by apply (pool_inv_same st _ w (Running i dn (args :: todo))
                    (Raised i (IndexError "pop from empty list")))].
    apply acquire_Some in Ha as (Ha & Hc & Hl).
    pose proof (registry_NoDup _ _ Hreg) as Hnd.
    assert (∀ w', (held <$> workers st) !! w' = Some (Some c) → False) as Hfree.
    { intros w' Hw'. apply Hheld in Hw'.
      rewrite Ha in Hnd. apply NoDup_app in Hnd as (_ & Hdis & _).
      apply (Hdis c); [|done]. apply elem_of_app. right. by left. }
    split_and!; simpl.
    + destruct Hreg as [Hp Hlen]. split; [|congruence].
      rewrite <- Hp, Ha, Hl, <- app_assoc. done.
    + intros w' c'. rewrite list_fmap_insert, Hl.
      intros [(-> & [= <-] & _)|[_ Hy]]%list_lookup_insert_Some; [by left|].
      right. by eapply Hheld.
    + intros w1 w2 c'. rewrite list_fmap_insert.
      intros [(-> & Hc1 & _)|[? H1]]%list_lookup_insert_Some
             [(-> & Hc2 & _)|[? H2]]%list_lookup_insert_Some; simplify_eq/=; try done.
      * by destruct (Hfree w2).
      * by destruct (Hfree w1).
      * by eapply Hinj.
  - assert (registry_inv N (call method c args (pool st)).2) as Hreg'.
    { unfold call. destruct (connections (pool st) !! c) as [conn|]; [|done].
      destruct (method args conn) as [r conn']. destruct Hreg as [Hp Hlen].
      split; simpl; [done|]. by rewrite length_insert. }
    assert (leased (call method c args (pool st)).2 = leased (pool st)) as Hl.
    { unfold call. destruct (connections (pool st) !! c) as [conn|]; [|done].
      by destruct (method args conn) as [r conn']. }
    destruct (call method c args (pool st)) as [[res|e] reg']; injection Hstep as <-.
    + destruct Hreg' as [Hp' Hlen']. simpl in *.
      assert (held <$> <[w:=Releasing i dn c res todo]> (workers st) = held <$> workers st)
        as Hh by (by eapply fmap_insert_same).
      split_and!; simpl; [done| |]; rewrite Hh, ?Hl; done.
    + apply (pool_inv_drop st _ w (Leased i dn c args todo) (Raised i e) c);
        [done..| |done]; simpl in *.
      intros c' _. by rewrite Hl.
  - injection Hstep as <-.
    assert ((held <$> workers st) !! w = Some (Some c)) as Hwc.
    { by rewrite list_lookup_fmap, Hw. }
    pose proof (Hheld _ _ Hwc) as Hin.
    pose proof (registry_NoDup _ _ Hreg) as Hnd. apply NoDup_app in Hnd as (_ & _ & Hndl).
    pose proof (leased_remove _ _ Hndl Hin) as Hrem.
    apply (pool_inv_drop st _ w (Releasing i dn c res todo)
             (Running i (dn ++ [res]) todo) c); [done..| | |done]; simpl.
    + destruct Hreg as [Hp Hlen]. split; simpl; [|done].
      unfold append. rewrite <- Hp, <- app_assoc. simpl. rewrite Hrem at 2. done.
    + intros c' Hne Hc'. apply list_elem_of_filter. done.
  - injection Hstep as <-. by apply (pool_inv_same st _ w (Raised i e) Idle).
Qed.

Lemma pool_inv_exec sched st : pool_inv N st → pool_inv N (exec method sched st).
Proof.
  revert st. induction sched as [|w sched IH]; intros st Hinv; [done|].
  rewrite exec_cons. unfold run_worker.
  destruct (step method w st) as [st'|] eqn:Hstep; simpl; [|by apply IH].
  apply IH. by eapply pool_inv_step.
Qed.

Lemma pool_inv_map_async (W : nat) (tasks : list T) reg :
  registry_inv N reg → pool_inv N (map_async (V:=V) W tasks reg).
Proof.
  intros Hreg. split_and!; simpl; [done| |].
  - intros w c. rewrite fmap_replicate. by intros [? _]%lookup_replicate.
  - intros w1 w2 c. rewrite fmap_replicate. by intros [? _]%lookup_replicate.
Qed.

End Pool.

(** ** scrape under every schedule *)

Lemma make_connections_length srv imap_host user password ids conns :
  make_connections srv imap_host user password ids = Return conns →
  length conns = length ids.
Proof.
  revert conns. induction ids as [|i ids IH]; intros conns; simpl; [by intros [= <-]|].
  destruct (Gmail_init _ _ _ _ _); [|done].
  destruct (make_connections _ _ _ _ _) as [l|]; [|done].
  intros [= <-]. simpl. f_equal. by apply IH.
Qed.

Lemma fresh_new_registry (N : nat) (conns : list Gmail) :
  length conns = N → fresh_pool N (new_registry N conns).
Proof. intros Hlen. split; [split|]; simpl; [|done..]. by rewrite app_nil_r. Qed.

Lemma default_mailboxes_fresh srv mailboxes (N : nat) reg r reg' :
  fresh_pool N reg → default_mailboxes srv mailboxes reg = (r, reg') → fresh_pool N reg'.
Proof.
  intros [[Hp Hlen] Hl]. unfold default_mailboxes.
  destruct mailboxes as [m|]; [by intros [= _ <-]|].
  destruct (connections reg !! 0) as [c|]; [|by intros [= _ <-]].
  destruct (get_mailboxes srv c) as [r0 c']. intros [= _ <-].
  split; [split|]; simpl; [done| |done]. by rewrite length_insert.
Qed.

(** The comprehension of line 133 against the words of the specification. *)
Lemma flat_Some (message_ids : list (string * list string)) :
  flat (Some <$> message_ids) = Return (flat_spec message_ids).
Proof.
  unfold flat_spec. induction message_ids as [|[mailbox ids] l IH]; [done|].
  rewrite !fmap_cons. simpl. by rewrite IH.
Qed.

Lemma Forall2_Some {A B} (P : A → B → Prop) (l : list A) (vs : list (option B)) :
  Forall2 (λ a ov, ∃ r, ov = Some r ∧ P a r) l vs →
  ∃ rs, vs = Some <$> rs ∧ Forall2 P l rs.
Proof.
  induction 1 as [|a ov l vs (r & -> & Hr) _ (rs & -> & Hrs)]; [by exists []|].
  exists (r :: rs). split; [done|]. by constructor.
Qed.

Lemma returns_not_raises {T V} (method : T → Gmail → result V * Gmail) args res e :
  returns method args res → raises method args e → False.
Proof. intros Hr He. specialize (Hr session0). rewrite (He session0) in Hr. done. Qed.

Lemma workers_bounds (conns : list Gmail) (cpu_count : nat) :
  length conns = CONNECTION_POOL_SIZE → 0 < cpu_count →
  0 < length conns `min` (cpu_count * 2) ≤ CONNECTION_POOL_SIZE.
Proof. intros ->. unfold CONNECTION_POOL_SIZE. lia. Qed.

Section ScrapeRuns.
Variable srv : imaplib.Server.
Variable cpu_count : nat.
Hypothesis cpu_count_pos : 0 < cpu_count.
Variables (imap_host user password : string) (mailboxes : option (list string)).

Set Default Proof Using "All".

(** Whatever the schedules, a call that ends ends in one of the outcomes. *)
Lemma scrape_sound sched_ids sched_messages r :
  scrape srv cpu_count imap_host user password mailboxes sched_ids sched_messages = Some r →
  scrape_outcome srv imap_host user password mailboxes r.
Proof.
  unfold scrape.
  destruct (make_connections srv imap_host user password (seq 0 CONNECTION_POOL_SIZE))
    as [conns|e] eqn:Hconns; [|intros [= <-]; by apply login_raises].
  pose proof (make_connections_length _ _ _ _ _ _ Hconns) as Hlen. rewrite length_seq in Hlen.
  destruct (workers_bounds conns cpu_count Hlen cpu_count_pos) as [HW HWN].
  pose proof (fresh_new_registry _ conns Hlen) as Hfresh.
  destruct (default_mailboxes srv mailboxes (new_registry CONNECTION_POOL_SIZE conns))
    as [[mbs|e] reg] eqn:Hmbs; [|intros [= <-]; by eapply listing_raises].
  assert (mailboxes_used srv imap_host user password mailboxes mbs) as Hused by (by exists conns, reg).
  apply (default_mailboxes_fresh _ _ CONNECTION_POOL_SIZE) in Hmbs; [|done].
  destruct (map_async_get (fetch_message_ids srv) _ mbs sched_ids reg)
    as [[[message_ids|e] reg1]|] eqn:Hids; [| |done].
  2:{ intros [= <-].
      apply (map_async_get_spec _ (fetch_message_ids_any_session srv) _ _ _ HW HWN) in Hids
        as (mailbox & Hin & He); [|done].
      by eapply ids_raise. }
  apply (map_async_get_spec _ (fetch_message_ids_any_session srv) _ _ _ HW HWN) in Hids
    as [(ids & -> & Hids)%Forall2_Some Hfresh1]; [|done].
  rewrite flat_Some.
  destruct (map_async_get (fetch_message srv) _ (flat_spec ids) sched_messages reg1)
    as [[[messages|e] reg2]|] eqn:Hmsgs; [| |done]; intros [= <-].
  - apply (map_async_get_spec _ (fetch_message_any_session srv) _ _ _ HW HWN) in Hmsgs
      as [(msgs & -> & Hmsgs)%Forall2_Some _]; [|done].
    by eapply messages_return.
  - apply (map_async_get_spec _ (fetch_message_any_session srv) _ _ _ HW HWN) in Hmsgs
      as (pair & Hin & He); [|done].
    by eapply message_raises.
Qed.

(** And under some schedules the call does end. *)
Lemma scrape_total :
  ∃ sched_ids sched_messages,
    is_Some (scrape srv cpu_count imap_host user password mailboxes sched_ids sched_messages).
Proof.
  unfold scrape.
  destruct (make_connections srv imap_host user password (seq 0 CONNECTION_POOL_SIZE))
    as [conns|e] eqn:Hconns; [|by exists [], []].
  pose proof (make_connections_length _ _ _ _ _ _ Hconns) as Hlen. rewrite length_seq in Hlen.
  destruct (workers_bounds conns cpu_count Hlen cpu_count_pos) as [HW HWN].
  pose proof (fresh_new_registry _ conns Hlen) as Hfresh.
  destruct (default_mailboxes srv mailboxes (new_registry CONNECTION_POOL_SIZE conns))
    as [[mbs|e] reg] eqn:Hmbs; [|by exists [], []].
  apply (default_mailboxes_fresh _ _ CONNECTION_POOL_SIZE) in Hmbs; [|done].
  destruct (map_async_get_total _ (fetch_message_ids_any_session srv) _ _ mbs HW HWN reg Hmbs)
    as [sched_ids [[r reg1] Hids]].
  exists sched_ids. rewrite Hids. destruct r as [message_ids|e]; [|by exists []].
  apply (map_async_get_spec _ (fetch_message_ids_any_session srv) _ _ _ HW HWN) in Hids
    as [(ids & -> & Hids)%Forall2_Some Hfresh1]; [|done].
  rewrite flat_Some.
  destruct (map_async_get_total _ (fetch_message_any_session srv) _ _ (flat_spec ids)
              HW HWN reg1 Hfresh1) as [sched_messages [[r reg2] Hmsgs]].
  exists sched_messages. by rewrite Hmsgs.
Qed.

End ScrapeRuns.

(** ** The claims about the runs of the worker pool and about scrape *)

Lemma returns_inj {T V} (method : T → Gmail → result V * Gmail) args res res' :
  returns method args res → returns method args res' → res = res'.
Proof. intros Hr Hr'. specialize (Hr session0). rewrite (Hr' session0) in Hr. by injection Hr. Qed.

Lemma Forall2_elem_of_l {A B} (P : A → B → Prop) (l : list A) (k : list B) (x : A) :
  Forall2 P l k → x ∈ l → ∃ y, P x y.
Proof.
  intros HF [i Hi]%list_elem_of_lookup.
  destruct (Forall2_lookup_l _ _ _ _ _ HF Hi) as (y & _ & Hy). eauto.
Qed.

(** C1. On a fresh pool of [N] sessions with [0 < W ≤ N] workers, whatever
    the schedule, the list that [map_async(...).get()] returns has one slot
    per task, and slot [i] holds what the method returns for task [i]; this
    for the mailboxes of the first phase and for the pairs of the second,
    for task lists of any length; and some schedule brings each job to its
    end. *)
Theorem run_results_aligned (srv : imaplib.Server) (N W : nat) (reg : registry) :
  0 < W → W ≤ N → fresh_pool N reg →
  (∀ mailboxes sched results reg',
     map_async_get (fetch_message_ids srv) W mailboxes sched reg = Some (Return results, reg') →
     length results = length mailboxes ∧
     Forall2 (λ mailbox slot,
                ∃ res, slot = Some res ∧ returns (fetch_message_ids srv) mailbox res)
       mailboxes results) ∧
  (∀ pairs sched results reg',
     map_async_get (fetch_message srv) W pairs sched reg = Some (Return results, reg') →
     length results = length pairs ∧
     Forall2 (λ pair slot,
                ∃ message, slot = Some message ∧ returns (fetch_message srv) pair message)
       pairs results) ∧
  (∀ mailboxes,
     ∃ sched, is_Some (map_async_get (fetch_message_ids srv) W mailboxes sched reg)) ∧
  (∀ pairs,
     ∃ sched, is_Some (map_async_get (fetch_message srv) W pairs sched reg)).
Proof.
  intros HW HWN Hreg. split_and!.
  - intros mailboxes sched results reg' Hget.
    apply (map_async_get_spec _ (fetch_message_ids_any_session srv) _ _ _ HW HWN) in Hget
      as [HF _]; [|done].
    split; [|done]. symmetry. by eapply Forall2_length.
  - intros pairs sched results reg' Hget.
    apply (map_async_get_spec _ (fetch_message_any_session srv) _ _ _ HW HWN) in Hget
      as [HF _]; [|done].
    split; [|done]. symmetry. by eapply Forall2_length.
  - intros mailboxes.
    by apply (map_async_get_total _ (fetch_message_ids_any_session srv) _ _ _ HW HWN).
  - intros pairs.
    by apply (map_async_get_total _ (fetch_message_any_session srv) _ _ _ HW HWN).
Qed.

Lemma run_results_aligned_witness :
  ∃ results reg',
    map_async_get (fetch_message_ids (scenario_server imaplib.OK)) 2
      ["INBOX"; "Sent"; "INBOX"] (round_robin 2 12) (new_registry 2 [session0; session0])
    = Some (Return results, reg') ∧
    length results = 3.
Proof.
  eexists _, _. split; [vm_compute; reflexivity|].
  assert (fresh_pool 2 (new_registry 2 [session0; session0])) as Hfresh.
  { by apply fresh_new_registry. }
  destruct (run_results_aligned (scenario_server imaplib.OK) 2 2
              (new_registry 2 [session0; session0]) ltac:(lia) ltac:(lia) Hfresh)
    as (Hids & _).
  eapply (Hids ["INBOX"; "Sent"; "INBOX"] (round_robin 2 12)).
  vm_compute. reflexivity.
Defined.

Lemma make_connections_ok srv imap_host user password ids :
  imaplib.LOGIN srv user password = imaplib.OK →
  ∃ conns, make_connections srv imap_host user password ids = Return conns.
Proof.
  intros Hlogin. induction ids as [|i ids [conns IH]]; simpl; [by eexists|].
  unfold Gmail_init, imaplib.login. rewrite Hlogin, IH. by eexists.
Qed.

Lemma mailboxes_used_Some srv imap_host user password m mbs :
  mailboxes_used srv imap_host user password (Some m) mbs → mbs = m.
Proof. intros (conns & reg & _ & Hm). simpl in Hm. by injection Hm. Qed.

(** The scenario of the specification: mailboxes INBOX and Sent, INBOX
    enumerating 1 and 2, Sent enumerating 3. *)
Lemma scenario_outcome srv imap_host user password r m1 m2 (r3 : result Message) :
  imaplib.LOGIN srv user password = imaplib.OK →
  returns (fetch_message_ids srv) "INBOX" ("INBOX", ["1"; "2"]) →
  returns (fetch_message_ids srv) "Sent" ("Sent", ["3"]) →
  returns (fetch_message srv) ("INBOX", "1") m1 →
  returns (fetch_message srv) ("INBOX", "2") m2 →
  (∀ self, (fetch_message srv ("Sent", "3") self).1 = r3) →
  scrape_outcome srv imap_host user password (Some ["INBOX"; "Sent"]) r →
  r = match r3 with
      | Return m3 => Return [Some m1; Some m2; Some m3]
      | Raise e => Raise e
      end.
Proof.
  intros Hlogin Hinbox Hsent H1 H2 H3 Hr.
  assert (∀ message_ids,
    Forall2 (returns (fetch_message_ids srv)) ["INBOX"; "Sent"] message_ids →
    flat_spec message_ids = [("INBOX", "1"); ("INBOX", "2"); ("Sent", "3")]) as Hflat.
  { intros message_ids HF.
    apply Forall2_cons_inv_l in HF as (p1 & l1 & Hp1 & HF & ->).
    apply Forall2_cons_inv_l in HF as (p2 & l2 & Hp2 & HF & ->).
    apply Forall2_nil_inv_l in HF as ->.
    rewrite (returns_inj _ _ _ _ Hp1 Hinbox), (returns_inj _ _ _ _ Hp2 Hsent). done. }
  destruct Hr as [e He|conns e reg _ He|mbs mailbox e Hused Hin He
                 |mbs message_ids pair e Hused Hids Hin He|mbs message_ids messages Hused Hids Hmsgs].
  - destruct (make_connections_ok srv imap_host user password
                (seq 0 CONNECTION_POOL_SIZE) Hlogin) as [conns Hc]. congruence.
  - done.
  - apply mailboxes_used_Some in Hused as ->.
    apply elem_of_cons in Hin as [->|Hin]; [by destruct (returns_not_raises _ _ _ _ Hinbox He)|].
    apply list_elem_of_singleton in Hin as ->.
    by destruct (returns_not_raises _ _ _ _ Hsent He).
  - apply mailboxes_used_Some in Hused as ->. rewrite (Hflat _ Hids) in Hin.
    apply elem_of_cons in Hin as [->|Hin]; [by destruct (returns_not_raises _ _ _ _ H1 He)|].
    apply elem_of_cons in Hin as [->|Hin]; [by destruct (returns_not_raises _ _ _ _ H2 He)|].
    apply list_elem_of_singleton in Hin as ->.
    specialize (He session0). rewrite H3 in He. by rewrite He.
  - apply mailboxes_used_Some in Hused as ->. rewrite (Hflat _ Hids) in Hmsgs.
    apply Forall2_cons_inv_l in Hmsgs as (x1 & l1 & Hx1 & Hmsgs & ->).
    apply Forall2_cons_inv_l in Hmsgs as (x2 & l2 & Hx2 & Hmsgs & ->).
    apply Forall2_cons_inv_l in Hmsgs as (x3 & l3 & Hx3 & Hmsgs & ->).
    apply Forall2_nil_inv_l in Hmsgs as ->.
    rewrite (returns_inj _ _ _ _ Hx1 H1), (returns_inj _ _ _ _ Hx2 H2).
    specialize (Hx3 session0). rewrite H3 in Hx3. by rewrite Hx3.
Qed.

(** C2. The pairs of the second phase are, per mailbox in the order of the
    first phase, one pair per message id in the order of the enumeration,
    concatenated; a call of [scrape] that returns, returns one message per
    pair, message [i] being what [fetch_message] returns for pair [i].  In
    the scenario (INBOX enumerating 1 and 2, Sent enumerating 3) the pairs
    are (INBOX,1), (INBOX,2), (Sent,3) and every call that ends returns
    the three messages in that order, whatever the schedules. *)
Theorem scrape_flattens_in_order (srv : imaplib.Server) (cpu_count : nat)
    (imap_host user password : string) :
  0 < cpu_count →
  (∀ message_ids, flat (Some <$> message_ids) = Return (flat_spec message_ids)) ∧
  (∀ mailboxes sched_ids sched_messages messages,
     scrape srv cpu_count imap_host user password mailboxes sched_ids sched_messages
     = Some (Return messages) →
     ∃ mbs message_ids,
       mailboxes_used srv imap_host user password mailboxes mbs ∧
       Forall2 (returns (fetch_message_ids srv)) mbs message_ids ∧
       length messages = length (flat_spec message_ids) ∧
       Forall2 (λ pair slot,
                  ∃ message, slot = Some message ∧ returns (fetch_message srv) pair message)
         (flat_spec message_ids) messages) ∧
  (∀ m1 m2 m3,
     imaplib.LOGIN srv user password = imaplib.OK →
     returns (fetch_message_ids srv) "INBOX" ("INBOX", ["1"; "2"]) →
     returns (fetch_message_ids srv) "Sent" ("Sent", ["3"]) →
     returns (fetch_message srv) ("INBOX", "1") m1 →
     returns (fetch_message srv) ("INBOX", "2") m2 →
     returns (fetch_message srv) ("Sent", "3") m3 →
     flat [Some ("INBOX", ["1"; "2"]); Some ("Sent", ["3"])]
     = Return [("INBOX", "1"); ("INBOX", "2"); ("Sent", "3")] ∧
     (∀ sched_ids sched_messages r,
        scrape srv cpu_count imap_host user password (Some ["INBOX"; "Sent"])
          sched_ids sched_messages = Some r →
        r = Return [Some m1; Some m2; Some m3]) ∧
     (∃ sched_ids sched_messages,
        is_Some (scrape srv cpu_count imap_host user password (Some ["INBOX"; "Sent"])
                   sched_ids sched_messages))).
Proof.
  intros Hcpu. split_and!.
  - apply flat_Some.
  - intros mailboxes sched_ids sched_messages messages Hs.
    apply scrape_sound in Hs; [|done].
    inversion Hs as [| | | |mbs message_ids msgs Hused Hids Hmsgs Heq].
    exists mbs, message_ids. split_and!; [done..| |].
    + rewrite length_fmap. symmetry. by eapply Forall2_length.
    + apply Forall2_fmap_r. eapply Forall2_impl; [done|]. simpl. eauto.
  - intros m1 m2 m3 Hlogin Hinbox Hsent H1 H2 H3. split_and!.
    + done.
    + intros sched_ids sched_messages r Hs. apply scrape_sound in Hs; [|done].
      by apply (scenario_outcome srv imap_host user password r m1 m2 (Return m3)
                  Hlogin Hinbox Hsent H1 H2 H3).
    + by apply scrape_total.
Qed.

Lemma scenario_returns :
  returns (fetch_message_ids (scenario_server imaplib.OK)) "INBOX" ("INBOX", ["1"; "2"]) ∧
  returns (fetch_message_ids (scenario_server imaplib.OK)) "Sent" ("Sent", ["3"]) ∧
  returns (fetch_message (scenario_server imaplib.OK)) ("INBOX", "1")
    (message_from_string "body of 1") ∧
  returns (fetch_message (scenario_server imaplib.OK)) ("INBOX", "2")
    (message_from_string "body of 2") ∧
  returns (fetch_message (scenario_server imaplib.OK)) ("Sent", "3")
    (message_from_string "third").
Proof. split_and!; intros self; reflexivity. Defined.

Lemma scrape_flattens_in_order_witness :
  0 < 1 ∧
  ∃ sched_ids sched_messages,
    is_Some (scrape (scenario_server imaplib.OK) 1 "imap.gmail.com" "user" "secret"
               (Some ["INBOX"; "Sent"]) sched_ids sched_messages).
Proof.
  split; [lia|].
  destruct scenario_returns as (Hinbox & Hsent & H1 & H2 & H3).
  destruct (scrape_flattens_in_order (scenario_server imaplib.OK) 1
              "imap.gmail.com" "user" "secret" ltac:(lia)) as (_ & _ & Hscenario).
  destruct (Hscenario _ _ _ eq_refl Hinbox Hsent H1 H2 H3) as (_ & _ & Hends).
  exact Hends.
Defined.

(** A fetch whose status is NO raises the exception of lines 65-67. *)
Lemma fetch_message_NO srv mailbox message_num :
  imaplib.SELECT srv mailbox = imaplib.OK →
  (imaplib.FETCH_RFC822 srv mailbox message_num).1 = imaplib.NO →
  raises (fetch_message srv) (mailbox, message_num)
    (Exception ("Failed to retrieve message " +:+ message_num +:+
                " from mailbox " +:+ mailbox +:+ ".")).
Proof.
  intros Hsel Hfetch self. unfold_imap. rewrite Hsel. simpl.
  destruct (imaplib.FETCH_RFC822 srv mailbox message_num) as [st content].
  simpl in Hfetch. subst st. done.
Qed.

(** C4. A run of the worker pool in which a task raises never returns
    results: [get()] raises the exception of a task that raised.  In the
    scenario, with the fetch of (Sent,3) raising, every call of [scrape]
    that ends raises that exception and returns no message, whatever the
    schedules, so also when (INBOX,1) and (INBOX,2) were fetched before. *)
Theorem failure_aborts_run (srv : imaplib.Server) (cpu_count : nat)
    (imap_host user password : string) :
  0 < cpu_count →
  (∀ N W reg,
     0 < W → W ≤ N → fresh_pool N reg →
     (∀ mailboxes sched r reg' mailbox e,
        map_async_get (fetch_message_ids srv) W mailboxes sched reg = Some (r, reg') →
        mailbox ∈ mailboxes → raises (fetch_message_ids srv) mailbox e →
        ∃ e' mailbox',
          r = Raise e' ∧ mailbox' ∈ mailboxes ∧ raises (fetch_message_ids srv) mailbox' e') ∧
     (∀ pairs sched r reg' pair e,
        map_async_get (fetch_message srv) W pairs sched reg = Some (r, reg') →
        pair ∈ pairs → raises (fetch_message srv) pair e →
        ∃ e' pair',
          r = Raise e' ∧ pair' ∈ pairs ∧ raises (fetch_message srv) pair' e')) ∧
  (∀ m1 m2 e,
     imaplib.LOGIN srv user password = imaplib.OK →
     returns (fetch_message_ids srv) "INBOX" ("INBOX", ["1"; "2"]) →
     returns (fetch_message_ids srv) "Sent" ("Sent", ["3"]) →
     returns (fetch_message srv) ("INBOX", "1") m1 →
     returns (fetch_message srv) ("INBOX", "2") m2 →
     raises (fetch_message srv) ("Sent", "3") e →
     (∀ sched_ids sched_messages r,
        scrape srv cpu_count imap_host user password (Some ["INBOX"; "Sent"])
          sched_ids sched_messages = Some r →
        r = Raise e) ∧
     (∃ sched_ids sched_messages,
        is_Some (scrape srv cpu_count imap_host user password (Some ["INBOX"; "Sent"])
                   sched_ids sched_messages))).
Proof.
  intros Hcpu. split.
  - intros N W reg HW HWN Hreg. split.
    + intros mailboxes sched r reg' mailbox e Hget Hin He.
      apply (map_async_get_spec _ (fetch_message_ids_any_session srv) _ _ _ HW HWN) in Hget;
        [|done].
      destruct r as [vs|e']; [|destruct Hget as (mailbox' & ? & ?); eauto].
      destruct Hget as [HF _].
      destruct (Forall2_elem_of_l _ _ _ _ HF Hin) as (slot & res & _ & Hres).
      by destruct (returns_not_raises _ _ _ _ Hres He).
    + intros pairs sched r reg' pair e Hget Hin He.
      apply (map_async_get_spec _ (fetch_message_any_session srv) _ _ _ HW HWN) in Hget;
        [|done].
      destruct r as [vs|e']; [|destruct Hget as (pair' & ? & ?); eauto].
      destruct Hget as [HF _].
      destruct (Forall2_elem_of_l _ _ _ _ HF Hin) as (slot & res & _ & Hres).
      by destruct (returns_not_raises _ _ _ _ Hres He).
  - intros m1 m2 e Hlogin Hinbox Hsent H1 H2 H3. split.
    + intros sched_ids sched_messages r Hs. apply scrape_sound in Hs; [|done].
      by apply (scenario_outcome srv imap_host user password r m1 m2 (Raise e)
                  Hlogin Hinbox Hsent H1 H2 H3).
    + by apply scrape_total.
Qed.

Lemma failure_aborts_run_witness :
  0 < 1 ∧
  scrape (scenario_server imaplib.NO) 1 "imap.gmail.com" "user" "secret"
    (Some ["INBOX"; "Sent"]) (round_robin 2 10) (round_robin 2 10)
  = Some (Raise (Exception "Failed to retrieve message 3 from mailbox Sent.")).
Proof.
  split; [lia|].
  destruct (failure_aborts_run (scenario_server imaplib.NO) 1
              "imap.gmail.com" "user" "secret" ltac:(lia)) as (_ & Hscenario).
  destruct (Hscenario (message_from_string "body of 1") (message_from_string "body of 2")
              (Exception "Failed to retrieve message 3 from mailbox Sent.")
              eq_refl
              ltac:(intros self; reflexivity) ltac:(intros self; reflexivity)
              ltac:(intros self; reflexivity) ltac:(intros self; reflexivity)
              ltac:(intros self; reflexivity)) as (Hall & _).
  destruct (scrape (scenario_server imaplib.NO) 1 "imap.gmail.com" "user" "secret"
              (Some ["INBOX"; "Sent"]) (round_robin 2 10) (round_robin 2 10))
    as [r|] eqn:Hs.
  - f_equal. by apply (Hall (round_robin 2 10) (round_robin 2 10)).
  - vm_compute in Hs. discriminate Hs.
Defined.

(** ** The ids in use *)

Section InUse.
Context {T V : Type}.
Implicit Types (st : @state T V) (x : @worker T V).






End InUse.

Section Raises.
Context {T V : Type}.
Variable method : T → Gmail → result V * Gmail.
Implicit Types (st : @state T V) (x : @worker T V).

(** At the start of a [map_async] no task has raised. *)
Lemma no_task_raised_map_async (W : nat) (tasks : list T) reg :
  no_task_raised (map_async (V:=V) W tasks reg).
Proof.
  split; [split; [|constructor]|]; simpl.
  - unfold MapResult_init. done.
  - apply Forall_forall. intros x [-> _]%elem_of_replicate. done.
Qed.

(** And this is lost only by a step in which the task of a worker raises:
    its call at line 114, or its pop at line 112 on an empty list. *)
Lemma no_task_raised_step w st st' :
  no_task_raised st → step method w st = Some st' →
  no_task_raised st' ∨ ∃ i e, workers st' !! w = Some (Raised i e).
Proof.
  intros [[Hnone Hout] Hws] Hstep. unfold step in Hstep.
  assert (∀ x', (∀ i e, x' ≠ Raised i e) →
            Forall (λ x, ∀ i e, x ≠ Raised i e) (<[w:=x']> (workers st))) as Hins.
  { intros x' Hx'. apply Forall_insert; done. }
  assert (∀ x, workers st !! w = Some x → w < length (workers st)) as Hlt.
  { intros x Hx. by eapply lookup_lt_Some. }
  destruct (workers st !! w)
    as [[|i dn [|args todo]|i dn c args todo|i dn c res todo|i e]|] eqn:Hw.
  - destruct (taskqueue st) as [|[i chunk] rest]; [done|]. injection Hstep as <-.
    left. split; [done|]. simpl. by apply Hins.
  - injection Hstep as <-. left. split; simpl; [|by apply Hins].
    split; [done|]. simpl. apply Forall_app. split; [done|].
    constructor; [|done]. by intros [e He].
  - destruct (acquire (pool st)) as [[c reg']|]; injection Hstep as <-.
    + left. split; [done|]. simpl. by apply Hins.
    + right. eexists _, _. simpl. apply list_lookup_insert_eq. by eapply Hlt.
  - destruct (call method c args (pool st)) as [[res|e] reg']; injection Hstep as <-.
    + left. split; [done|]. simpl. by apply Hins.
    + right. eexists _, _. simpl. apply list_lookup_insert_eq. by eapply Hlt.
  - injection Hstep as <-. left. split; [done|]. simpl. by apply Hins.
  - by destruct (proj1 (Forall_forall _ _) Hws _ (list_elem_of_lookup_2 _ _ _ Hw) i e).
  - unfold handle_results in Hstep.
    destruct (outqueue st) as [|[i [res|e]] rest] eqn:Hq; [done| |].
    + injection Hstep as <-. apply Forall_cons in Hout as [_ Hrest].
      left. split; [|done]. split; [|done]. simpl.
      unfold MapResult_set. by destruct (ready (job st)).
    + apply Forall_cons in Hout as [Hhead _]. destruct Hhead. by exists e.
Qed.

End Raises.

Section Leases.
Context {T V : Type}.
Variable method : T → Gmail → result V * Gmail.
Hypothesis method_any_session :
  ∀ args self self', (method args self).1 = (method args self').1.
Variable N W : nat.
Variable tasks : list T.
Hypothesis W_pos : 0 < W.
Hypothesis W_le_N : W ≤ N.

Set Default Proof Using "All".

Implicit Types (st : @state T V).




End Leases.







(** * Further properties *)

(** ** The methods of Gmail, again *)



(** X2. What the two methods return or raise is the same on every session,
    whatever mailbox the session selected before. *)
Theorem methods_any_session (srv : imaplib.Server) (self self' : Gmail) :
  (∀ mailbox,
     (fetch_message_ids srv mailbox self).1 = (fetch_message_ids srv mailbox self').1) ∧
  (∀ mailbox message_num,
     (fetch_message srv (mailbox, message_num) self).1
     = (fetch_message srv (mailbox, message_num) self').1).
Proof.
  split.
  - intros mailbox. apply fetch_message_ids_any_session.
  - intros mailbox message_num. apply fetch_message_any_session.
Qed.

(** X3. The two methods never change the id of the session; after a selection
    that reported OK the session stays on that mailbox, also when the search
    or the fetch raised, and after a selection that reported NO it is back in
    state AUTH. *)
Theorem methods_leave_mailbox_selected (srv : imaplib.Server) (mailbox : string) (self : Gmail) :
  (∀ message_num,
     self_id (fetch_message srv (mailbox, message_num) self).2 = self_id self) ∧
  self_id (fetch_message_ids srv mailbox self).2 = self_id self ∧
  (imaplib.SELECT srv mailbox = imaplib.OK →
   self_imap (fetch_message_ids srv mailbox self).2 = imaplib.SELECTED mailbox ∧
   ∀ message_num,
     self_imap (fetch_message srv (mailbox, message_num) self).2 = imaplib.SELECTED mailbox) ∧
  (imaplib.SELECT srv mailbox = imaplib.NO →
   self_imap (fetch_message_ids srv mailbox self).2 = imaplib.AUTH ∧
   ∀ message_num,
     self_imap (fetch_message srv (mailbox, message_num) self).2 = imaplib.AUTH).
Proof.
  unfold_imap. split_and!.
  - intros message_num. destruct (imaplib.SELECT srv mailbox); simpl; try done.
    by destruct (imaplib.FETCH_RFC822 srv mailbox message_num) as [[] ?].
  - destruct (imaplib.SELECT srv mailbox); simpl; try done.
    by destruct (imaplib.SEARCH_ALL srv mailbox) as [[] ?].
  - intros ->. simpl. split.
    + by destruct (imaplib.SEARCH_ALL srv mailbox) as [[] ?].
    + intros message_num. by destruct (imaplib.FETCH_RFC822 srv mailbox message_num) as [[] ?].
  - intros ->. done.
Qed.

(** ** The sessions of the pool *)

Section Sessions.
Context {T V : Type}.
Variable method : T → Gmail → result V * Gmail.
Implicit Types (st : @state T V) (x : @worker T V).

Lemma leaked_step (N : nat) st w st' c :
  pool_inv N st → leaked st c → step method w st = Some st' → leaked st' c.
Proof.
  intros (Hreg & Hheld & Hinj) [Hc Hfree] Hstep. unfold step in Hstep.
  pose proof (registry_NoDup _ _ Hreg) as Hnd. apply NoDup_app in Hnd as (_ & Hdis & _).
  assert (∀ x' x, workers st !! w = Some x → held x' = None ∨ held x' = held x →
            Some c ∉ held <$> <[w:=x']> (workers st)) as Hsame.
  { intros x' x Hw Hx' [w' Hw']%list_elem_of_lookup. rewrite list_fmap_insert in Hw'.
    apply list_lookup_insert_Some in Hw' as [(-> & Hx & _)|[_ Hw']].
    - destruct Hx' as [Hx'|Hx']; [congruence|]. apply Hfree.
      apply list_elem_of_lookup. exists w'. rewrite list_lookup_fmap, Hw. simpl. congruence.
    - apply Hfree. apply list_elem_of_lookup. eauto. }
  destruct (workers st !! w)
    as [[|i dn [|args todo]|i dn c' args todo|i dn c' res todo|i e]|] eqn:Hw;
    [| | | | | |unfold handle_results in Hstep;
                destruct (outqueue st) as [|[i r] rest]; [done|];
                by injection Hstep as <-].
  - destruct (taskqueue st) as [|[i chunk] rest] eqn:Hq; [done|].
    injection Hstep as <-. split; simpl; [done|]. eapply Hsame; [done|by left].
  - injection Hstep as <-. split; simpl; [done|]. eapply Hsame; [done|by left].
  - destruct (acquire (pool st)) as [[c' reg']|] eqn:Ha; injection Hstep as <-.
    + apply acquire_Some in Ha as (Ha & _ & Hl). split; simpl.
      * rewrite Hl. by right.
      * intros [w' Hw']%list_elem_of_lookup. rewrite list_fmap_insert in Hw'.
        apply list_lookup_insert_Some in Hw' as [(-> & [= ->] & _)|[_ Hw']].
        -- apply (Hdis c); [|done]. rewrite Ha. apply elem_of_app. right. by left.
        -- apply Hfree. apply list_elem_of_lookup. eauto.
    + split; simpl; [done|]. eapply Hsame; [done|by left].
  - assert (leased (call method c' args (pool st)).2 = leased (pool st)) as Hl.
    { unfold call. destruct (connections (pool st) !! c') as [conn|]; [|done].
      by destruct (method args conn) as [r conn']. }
    destruct (call method c' args (pool st)) as [[res|e] reg']; injection Hstep as <-;
      (split; simpl in *; [by rewrite Hl|]).
    + eapply Hsame; [done|by right].
    + eapply Hsame; [done|by left].
  - injection Hstep as <-.
    assert (c ≠ c') as Hne.
    { intros ->. apply Hfree. apply list_elem_of_lookup. exists w.
      by rewrite list_lookup_fmap, Hw. }
    split; simpl.
    + by apply list_elem_of_filter.
    + eapply Hsame; [done|by left].
  - injection Hstep as <-. split; simpl; [done|]. eapply Hsame; [done|by left].
Qed.

Lemma leaked_exec (N : nat) sched st c :
  pool_inv N st → leaked st c → leaked (exec method sched st) c.
Proof.
  revert st. induction sched as [|w sched IH]; intros st Hinv Hc; [done|].
  rewrite exec_cons. unfold run_worker.
  destruct (step method w st) as [st'|] eqn:Hstep; simpl; [|by apply IH].
  apply IH; [by eapply pool_inv_step|by eapply leaked_step].
Qed.

(** X4. Once the call of a worker has raised, the id that the worker popped is
    never available again, however the run goes on: it stays leased. *)
Theorem raised_task_keeps_its_id (N W : nat) (tasks : list T) (reg : registry) st
    (w i : nat) (done : list V) (c : nat) (args : T) (todo : list T) (sched : list nat) :
  registry_inv N reg →
  reachable method W tasks reg st →
  workers st !! w = Some (Leased i done c args todo) →
  (∀ self, ∃ e, (method args self).1 = Raise e) →
  (c ∉ avail_connections (pool (exec method sched (run_worker method st w)))) ∧
  (c ∈ leased (pool (exec method sched (run_worker method st w)))).
Proof.
  intros Hreg [sched0 ->] Hw Hraise.
  pose proof (pool_inv_exec method N sched0 _ (pool_inv_map_async method N W tasks reg Hreg))
    as Hinv.
  set (st := exec method sched0 (map_async W tasks reg)) in *.
  pose proof Hinv as (Hr & Hheld & Hinj).
  assert ((held <$> workers st) !! w = Some (Some c)) as Hwc.
  { by rewrite list_lookup_fmap, Hw. }
  pose proof (Hheld _ _ Hwc) as Hc.
  destruct (lookup_lt_is_Some_2 (connections (pool st)) c) as [conn Hconn].
  { rewrite (proj2 Hr). by eapply registry_lt. }
  assert (∃ st', step method w st = Some st' ∧ leaked st' c) as (st' & Hstep & Hleak).
  { unfold step. rewrite Hw. unfold call. rewrite Hconn.
    destruct (Hraise conn) as [e He].
    destruct (method args conn) as [r conn']. simpl in He. subst r.
    eexists. split; [done|]. split; simpl; [done|].
    intros [w' Hw']%list_elem_of_lookup. rewrite list_fmap_insert in Hw'.
    apply list_lookup_insert_Some in Hw' as [(-> & ? & _)|[Hne Hw']]; [done|].
    apply Hne. by eapply Hinj. }
  unfold run_worker. rewrite Hstep. simpl.
  assert (pool_inv N st') as Hinv' by (by eapply pool_inv_step).
  pose proof (leaked_exec N sched st' c Hinv' Hleak) as [Hl _].
  pose proof (pool_inv_exec method N sched st' Hinv') as (Hr' & _ & _).
  pose proof (registry_NoDup _ _ Hr') as Hnd. apply NoDup_app in Hnd as (_ & Hdis & _).
  split; [|done]. intros Ha. by apply (Hdis c).
Qed.

(** X5. No two workers are between their [with lock:] blocks with the same
    connection id: a session is used by one worker at a time. *)
Theorem sessions_never_shared (N W : nat) (tasks : list T) (reg : registry) st (w1 w2 c : nat) :
  registry_inv N reg →
  reachable method W tasks reg st →
  (held <$> workers st) !! w1 = Some (Some c) →
  (held <$> workers st) !! w2 = Some (Some c) →
  w1 = w2.
Proof.
  intros Hreg [sched ->].
  destruct (pool_inv_exec method N sched _ (pool_inv_map_async method N W tasks reg Hreg))
    as (_ & _ & Hinj).
  apply Hinj.
Qed.

Hypothesis method_keeps_id : ∀ args self, self_id (method args self).2 = self_id self.

Lemma ids_match_step st w st' :
  ids_match (pool st) → step method w st = Some st' → ids_match (pool st').
Proof using method_keeps_id.
  intros Hids Hstep. unfold step in Hstep.
  destruct (workers st !! w)
    as [[|i dn [|args todo]|i dn c' args todo|i dn c' res todo|i e]|] eqn:Hw;
    [| | | | | |unfold handle_results in Hstep;
                destruct (outqueue st) as [|[i r] rest]; [done|];
                by injection Hstep as <-].
  - destruct (taskqueue st) as [|[i chunk] rest] eqn:Hq; [done|]. by injection Hstep as <-.
  - by injection Hstep as <-.
  - destruct (acquire (pool st)) as [[c' reg']|] eqn:Ha; injection Hstep as <-; [|done].
    apply acquire_Some in Ha as (_ & Hc & _). unfold ids_match. simpl. by rewrite Hc.
  - assert (ids_match (call method c' args (pool st)).2) as Hids'.
    { unfold call. destruct (connections (pool st) !! c') as [conn|] eqn:Hconn; [|done].
      pose proof (method_keeps_id args conn) as Hid.
      destruct (method args conn) as [r conn']. simpl in *.
      intros j cj [(-> & <- & _)|[_ Hj]]%list_lookup_insert_Some; simpl; [|by apply Hids].
      rewrite Hid. by apply Hids. }
    by destruct (call method c' args (pool st)) as [[res|e] reg']; injection Hstep as <-.
  - by injection Hstep as <-.
  - by injection Hstep as <-.
Qed.

Lemma ids_match_exec sched st :
  ids_match (pool st) → ids_match (pool (exec method sched st)).
Proof using method_keeps_id.
  revert st. induction sched as [|w sched IH]; intros st Hids; [done|].
  rewrite exec_cons. unfold run_worker.
  destruct (step method w st) as [st'|] eqn:Hstep; simpl; [|by apply IH].
  apply IH. by eapply ids_match_step.
Qed.

End Sessions.

Lemma raised_task_keeps_its_id_witness :
  (9 ∉ avail_connections (pool (exec (fetch_message_ids broken_server) (seq 0 10)
          (run_worker (fetch_message_ids broken_server)
             (exec (fetch_message_ids broken_server) [0; 0]
                (map_async 10 broken_mailboxes (new_registry 10 (replicate 10 session0)))) 0)))) ∧
  (9 ∈ leased (pool (exec (fetch_message_ids broken_server) (seq 0 10)
          (run_worker (fetch_message_ids broken_server)
             (exec (fetch_message_ids broken_server) [0; 0]
                (map_async 10 broken_mailboxes (new_registry 10 (replicate 10 session0)))) 0)))).
Proof.
  assert (registry_inv 10 (new_registry 10 (replicate 10 session0))) as Hreg.
  { split; [vm_compute; reflexivity | reflexivity]. }
  assert (reachable (fetch_message_ids broken_server) 10 broken_mailboxes
            (new_registry 10 (replicate 10 session0))
            (exec (fetch_message_ids broken_server) [0; 0]
               (map_async 10 broken_mailboxes (new_registry 10 (replicate 10 session0)))))
    as Hreach.
  { exists [0; 0]. reflexivity. }
  assert (∀ self, ∃ e, (fetch_message_ids broken_server "broken" self).1 = Raise e) as Hraise.
  { intros [[|mb] n]; eexists; vm_compute; reflexivity. }
  exact (raised_task_keeps_its_id (fetch_message_ids broken_server) 10 10 broken_mailboxes
           (new_registry 10 (replicate 10 session0)) _ 0 0 [] 9 "broken" [] (seq 0 10)
           Hreg Hreach eq_refl Hraise).
Defined.

Lemma sessions_never_shared_witness :
  (held <$> workers (exec (fetch_message_ids broken_server) leak_schedule
      (map_async 10 broken_mailboxes (new_registry 10 (replicate 10 session0))))) !! 1
    = Some (Some 7) ∧ 1 = 1.
Proof.
  assert (registry_inv 10 (new_registry 10 (replicate 10 session0))) as Hreg.
  { split; [vm_compute; reflexivity | reflexivity]. }
  assert (reachable (fetch_message_ids broken_server) 10 broken_mailboxes
            (new_registry 10 (replicate 10 session0))
            (exec (fetch_message_ids broken_server) leak_schedule
               (map_async 10 broken_mailboxes (new_registry 10 (replicate 10 session0)))))
    as Hreach.
  { exists leak_schedule. reflexivity. }
  assert ((held <$> workers (exec (fetch_message_ids broken_server) leak_schedule
      (map_async 10 broken_mailboxes (new_registry 10 (replicate 10 session0))))) !! 1
    = Some (Some 7)) as Hw.
  { vm_compute. reflexivity. }
  split; [exact Hw|].
  exact (sessions_never_shared (fetch_message_ids broken_server) 10 10 broken_mailboxes
           (new_registry 10 (replicate 10 session0)) _ 1 1 7 Hreg Hreach Hw Hw).
Defined.

Lemma fetch_message_ids_keeps_id srv mailbox self :
  self_id (fetch_message_ids srv mailbox self).2 = self_id self.
Proof.
  unfold_imap. destruct (imaplib.SELECT srv mailbox); simpl; try done.
  by destruct (imaplib.SEARCH_ALL srv mailbox) as [[] ?].
Qed.

Lemma fetch_message_keeps_id srv args self :
  self_id (fetch_message srv args self).2 = self_id self.
Proof.
  destruct args as [mailbox message_num]. unfold_imap.
  destruct (imaplib.SELECT srv mailbox); simpl; try done.
  by destruct (imaplib.FETCH_RFC822 srv mailbox message_num) as [[] ?].
Qed.

Lemma make_connections_ids srv imap_host user password (a n : nat) conns :
  make_connections srv imap_host user password (seq a n) = Return conns →
  ∀ i c, conns !! i = Some c → self_id c = a + i ∧ self_imap c = imaplib.AUTH.
Proof.
  revert a conns. induction n as [|n IH]; intros a conns; simpl.
  - intros [= <-] i c. done.
  - unfold Gmail_init at 1, imaplib.login.
    destruct (imaplib.LOGIN srv user password); try done.
    destruct (make_connections srv imap_host user password (seq (S a) n)) as [l|] eqn:Hl;
      [|done].
    intros [= <-] [|i] c; simpl.
    + intros [= <-]. simpl. split; [lia|done].
    + intros Hi. destruct (IH _ _ Hl i c Hi) as [-> ?]. split; [lia|done].
Qed.

(** X6. The connections that [scrape] opens carry the ids 0, 1, ... in order,
    and in every state of its two runs the connection at index [i] still
    carries the id [i]: the id a worker pops is the id of the session it
    then uses. *)
Theorem connection_ids (srv : imaplib.Server) (imap_host user password : string)
    (conns : list Gmail) :
  make_connections srv imap_host user password (seq 0 CONNECTION_POOL_SIZE) = Return conns →
  (∀ i c, conns !! i = Some c → self_id c = i ∧ self_imap c = imaplib.AUTH) ∧
  (∀ W mailboxes sched,
     ids_match (pool (exec (fetch_message_ids srv) sched
                        (map_async W mailboxes (new_registry CONNECTION_POOL_SIZE conns))))) ∧
  (∀ W pairs reg sched,
     ids_match reg →
     ids_match (pool (exec (fetch_message srv) sched (map_async W pairs reg)))).
Proof.
  intros Hconns.
  assert (∀ i c, conns !! i = Some c → self_id c = i ∧ self_imap c = imaplib.AUTH) as Hids.
  { intros i c Hi. by apply (make_connections_ids _ _ _ _ 0 _ _ Hconns i c Hi). }
  split_and!; [done| |].
  - intros W mailboxes sched.
    apply (ids_match_exec _ (fetch_message_ids_keeps_id srv)).
    intros i c Hi. by apply Hids.
  - intros W pairs reg sched Hreg.
    by apply (ids_match_exec _ (fetch_message_keeps_id srv)).
Qed.

Lemma connection_ids_witness :
  ∃ conns,
    make_connections broken_server "imap.gmail.com" "user" "secret"
      (seq 0 CONNECTION_POOL_SIZE) = Return conns ∧
    ids_match (pool (exec (fetch_message_ids broken_server) leak_schedule
                       (map_async 10 broken_mailboxes
                          (new_registry CONNECTION_POOL_SIZE conns)))).
Proof.
  eexists. split; [reflexivity|].
  eapply (proj1 (proj2 (connection_ids broken_server "imap.gmail.com" "user" "secret" _ _))).
  Unshelve. reflexivity.
Defined.

Section Idle.
Context {T V : Type}.
Variable method : T → Gmail → result V * Gmail.
Implicit Types (st : @state T V).

(** With empty queues and every worker waiting, nothing moves. *)
Lemma exec_idle sched st :
  taskqueue st = [] → outqueue st = [] → (∀ w x, workers st !! w = Some x → x = Idle) →
  exec method sched st = st.
Proof.
  intros Hq Hout Hidle. induction sched as [|w sched IH]; [done|].
  rewrite exec_cons. unfold run_worker, step, handle_results.
  destruct (workers st !! w) as [x|] eqn:Hw; [|by rewrite Hout].
  rewrite (Hidle _ _ Hw), Hq. done.
Qed.

Lemma map_async_get_nil (W : nat) sched reg :
  map_async_get method W [] sched reg = Some (Return [], reg).
Proof.
  unfold map_async_get. rewrite exec_idle; [done..|].
  intros w x [-> _]%lookup_replicate. done.
Qed.

(** Once the job is ready, no step changes it. *)
Lemma step_ready w st st' :
  ready (job st) = true → step method w st = Some st' → job st' = job st.
Proof.
  intros Hready Hstep. unfold step in Hstep.
  destruct (workers st !! w)
    as [[|i dn [|args todo]|i dn c' args todo|i dn c' res todo|i e]|] eqn:Hw.
  - destruct (taskqueue st) as [|[i chunk] rest] eqn:Hq; [done|]. by injection Hstep as <-.
  - by injection Hstep as <-.
  - by destruct (acquire (pool st)) as [[c' reg']|]; injection Hstep as <-.
  - by destruct (call method c' args (pool st)) as [[res|e] reg']; injection Hstep as <-.
  - by injection Hstep as <-.
  - by injection Hstep as <-.
  - unfold handle_results in Hstep.
    destruct (outqueue st) as [|[i r] rest]; [done|].
    injection Hstep as <-. simpl. unfold MapResult_set. by rewrite Hready.
Qed.

Lemma exec_ready sched st :
  ready (job st) = true → job (exec method sched st) = job st.
Proof.
  revert st. induction sched as [|w sched IH]; intros st Hready; [done|].
  rewrite exec_cons. unfold run_worker.
  destruct (step method w st) as [st'|] eqn:Hstep; simpl; [|by apply IH].
  pose proof (step_ready _ _ _ Hready Hstep) as Hjob.
  rewrite IH; [done|]. by rewrite Hjob.
Qed.

End Idle.

(** X7. The empty list of mailboxes: no task is made, no worker moves, and
    [scrape] returns the empty list under every schedule. *)
Theorem scrape_no_mailboxes (srv : imaplib.Server) (cpu_count : nat)
    (imap_host user password : string) (sched_ids sched_messages : list nat) :
  imaplib.LOGIN srv user password = imaplib.OK →
  scrape srv cpu_count imap_host user password (Some []) sched_ids sched_messages
  = Some (Return []).
Proof.
  intros Hlogin. unfold scrape.
  destruct (make_connections_ok srv imap_host user password
              (seq 0 CONNECTION_POOL_SIZE) Hlogin) as [conns ->].
  simpl. rewrite map_async_get_nil. simpl. by rewrite map_async_get_nil.
Qed.

Lemma scrape_no_mailboxes_witness :
  scrape broken_server 4 "imap.gmail.com" "user" "secret" (Some [])
    (round_robin 8 3) [] = Some (Return []).
Proof. by apply scrape_no_mailboxes. Defined.

(** X8. A refused login: [scrape] raises the error of [imaplib] at the first
    connection, whatever the mailboxes and the schedules, and no task is
    run. *)
Theorem scrape_login_refused (srv : imaplib.Server) (cpu_count : nat)
    (imap_host user password : string) (mailboxes : option (list string))
    (sched_ids sched_messages : list nat) :
  imaplib.LOGIN srv user password ≠ imaplib.OK →
  ∃ msg,
    Gmail_init srv imap_host user password 0 = Raise (IMAP4_error msg) ∧
    scrape srv cpu_count imap_host user password mailboxes sched_ids sched_messages
    = Some (Raise (IMAP4_error msg)).
Proof.
  intros Hlogin. unfold scrape. simpl. unfold Gmail_init, imaplib.login.
  destruct (imaplib.LOGIN srv user password); [done|by eexists..].
Qed.

Lemma scrape_login_refused_witness :
  ∃ msg,
    scrape {| imaplib.LOGIN := λ _ _, imaplib.NO;
              imaplib.LIST := (imaplib.OK, []);
              imaplib.SELECT := λ _, imaplib.OK;
              imaplib.SEARCH_ALL := λ _, (imaplib.OK, "");
              imaplib.FETCH_RFC822 := λ _ _, (imaplib.OK, "") |}
      4 "imap.gmail.com" "user" "wrong" None [] []
    = Some (Raise (IMAP4_error msg)).
Proof.
  destruct (scrape_login_refused
              {| imaplib.LOGIN := λ _ _, imaplib.NO;
                 imaplib.LIST := (imaplib.OK, []);
                 imaplib.SELECT := λ _, imaplib.OK;
                 imaplib.SEARCH_ALL := λ _, (imaplib.OK, "");
                 imaplib.FETCH_RFC822 := λ _ _, (imaplib.OK, "") |}
              4 "imap.gmail.com" "user" "wrong" None [] [] ltac:(simpl; discriminate))
    as (msg & _ & Hs).
  by exists msg.
Defined.

(** ** scrape and its schedules *)

Section Stable.
Context {T V : Type}.
Variable method : T → Gmail → result V * Gmail.
Hypothesis method_any_session :
  ∀ args self self', (method args self).1 = (method args self').1.
Variable N W : nat.
Variable tasks : list T.
Hypothesis W_pos : 0 < W.
Hypothesis W_le_N : W ≤ N.

Set Default Proof Using "All".

Implicit Types (st : @state T V).

(** A job that ended without a failure leaves the queues empty and every
    worker waiting. *)
Lemma inv_return_idle st k :
  inv method N W tasks st k → ready (job st) = true → failure (job st) = None →
  taskqueue st = [] ∧ outqueue st = [] ∧ ∀ w x, workers st !! w = Some x → x = Idle.
Proof.
  intros Hinv Hready Hnone.
  destruct (inv_left _ _ _ _ _ _ Hinv Hnone) as [Hr Hleft].
  rewrite Hready in Hr. symmetry in Hr. apply bool_decide_eq_true in Hr.
  split; [apply length_zero_iff_nil; lia|].
  split; [apply length_zero_iff_nil; lia|].
  intros w x Hw.
  assert (busy x = 0) as Hx by (eapply sum_list_with_0; [|done]; lia).
  by destruct x.
Qed.

(** What [get()] gave stays what it gives when the threads run on. *)
Lemma map_async_get_extend reg sched more r reg1 :
  fresh_pool N reg →
  map_async_get method W tasks sched reg = Some (r, reg1) →
  ∃ reg2, map_async_get method W tasks (sched ++ more) reg = Some (r, reg2) ∧
          (∀ vs, r = Return vs → reg2 = reg1).
Proof.
  intros Hreg. unfold map_async_get, MapResult_get. rewrite exec_app.
  destruct (inv_exec method method_any_session N W tasks W_pos W_le_N sched _ 0
              (inv_map_async method method_any_session N W tasks W_pos W_le_N reg Hreg))
    as [k Hinv].
  set (st := exec method sched (map_async W tasks reg)) in *.
  destruct (ready (job st)) eqn:Hready; [|done]. simpl. intros [= <- <-].
  rewrite (exec_ready method more st Hready), Hready. simpl.
  eexists. split; [done|]. intros vs Hvs.
  destruct (failure (job st)) eqn:Hfl; [done|].
  destruct (inv_return_idle st k Hinv Hready Hfl) as (Hq & Hout & Hidle).
  by rewrite (exec_idle method more st Hq Hout Hidle).
Qed.

End Stable.

Lemma mailboxes_used_inj srv imap_host user password mailboxes mbs mbs' :
  mailboxes_used srv imap_host user password mailboxes mbs →
  mailboxes_used srv imap_host user password mailboxes mbs' → mbs = mbs'.
Proof. intros (c & r & Hc & Hm) (c' & r' & Hc' & Hm'). congruence. Qed.

Lemma Forall2_returns_inj {T V} (method : T → Gmail → result V * Gmail) l a b :
  Forall2 (returns method) l a → Forall2 (returns method) l b → a = b.
Proof.
  intros Ha. revert b. induction Ha as [|x y l a Hxy _ IH]; intros b Hb.
  - by apply Forall2_nil_inv_l in Hb.
  - apply Forall2_cons_inv_l in Hb as (y' & b' & Hxy' & Hb & ->).
    f_equal; [by eapply returns_inj|by apply IH].
Qed.

(** A call that can return can only return, and only that. *)
Lemma scrape_outcome_Return srv imap_host user password mailboxes messages r :
  scrape_outcome srv imap_host user password mailboxes (Return messages) →
  scrape_outcome srv imap_host user password mailboxes r →
  r = Return messages.
Proof.
  intros Hm Hr.
  inversion Hm as [| | | |mbs message_ids msgs Hused Hids Hmsgs Heq]. subst messages.
  destruct Hr as [e He|conns e reg Hc He|mbs' mailbox e Hused' Hin He
                 |mbs' ids' pair e Hused' Hids' Hin He|mbs' ids' msgs' Hused' Hids' Hmsgs'].
  - destruct Hused as (c & r & Hc & _). congruence.
  - destruct Hused as (c & r & Hc' & Hm'). congruence.
  - rewrite <- (mailboxes_used_inj _ _ _ _ _ _ _ Hused Hused') in Hin.
    destruct (Forall2_elem_of_l _ _ _ _ Hids Hin) as (res & Hres).
    by destruct (returns_not_raises _ _ _ _ Hres He).
  - rewrite <- (mailboxes_used_inj _ _ _ _ _ _ _ Hused Hused') in Hids'.
    rewrite <- (Forall2_returns_inj _ _ _ _ Hids Hids') in Hin.
    destruct (Forall2_elem_of_l _ _ _ _ Hmsgs Hin) as (res & Hres).
    by destruct (returns_not_raises _ _ _ _ Hres He).
  - rewrite <- (mailboxes_used_inj _ _ _ _ _ _ _ Hused Hused') in Hids'.
    rewrite <- (Forall2_returns_inj _ _ _ _ Hids Hids') in Hmsgs'.
    by rewrite (Forall2_returns_inj _ _ _ _ Hmsgs Hmsgs').
Qed.

(** X9. If [scrape] returns under some schedules, then under all schedules
    under which it ends it returns, and the same messages: neither the
    interleaving of the workers nor the sessions they happen to pop change
    the result. *)
Theorem scrape_result_independent (srv : imaplib.Server) (cpu_count : nat)
    (imap_host user password : string) (mailboxes : option (list string))
    (sched_ids sched_messages sched_ids' sched_messages' : list nat)
    (messages : list (option Message)) (r : result (list (option Message))) :
  0 < cpu_count →
  scrape srv cpu_count imap_host user password mailboxes sched_ids sched_messages
  = Some (Return messages) →
  scrape srv cpu_count imap_host user password mailboxes sched_ids' sched_messages' = Some r →
  r = Return messages.
Proof.
  intros Hcpu Hs Hs'. apply scrape_sound in Hs, Hs'; [|done..].
  by eapply scrape_outcome_Return.
Qed.

Lemma scrape_result_independent_witness :
  scrape (scenario_server imaplib.OK) 1 "imap.gmail.com" "user" "secret"
    (Some ["INBOX"; "Sent"]) (replicate 10 1 ++ replicate 10 0 ++ [2; 2]) (replicate 20 1 ++ [2; 2; 2])
  = Some (Return [Some (message_from_string "body of 1");
                  Some (message_from_string "body of 2");
                  Some (message_from_string "third")]).
Proof.
  destruct (scrape (scenario_server imaplib.OK) 1 "imap.gmail.com" "user" "secret"
              (Some ["INBOX"; "Sent"]) (replicate 10 1 ++ replicate 10 0 ++ [2; 2]) (replicate 20 1 ++ [2; 2; 2]))
    as [r|] eqn:Hs'.
  - f_equal.
    apply (scrape_result_independent (scenario_server imaplib.OK) 1
             "imap.gmail.com" "user" "secret" (Some ["INBOX"; "Sent"])
             (round_robin 2 10) (round_robin 2 10)
             (replicate 10 1 ++ replicate 10 0 ++ [2; 2]) (replicate 20 1 ++ [2; 2; 2]) _ r ltac:(lia));
      [vm_compute; reflexivity|exact Hs'].
  - vm_compute in Hs'. discriminate Hs'.
Defined.

(** X10. What [scrape] came to stays what it comes to when the workers are
    given more turns after either job is done. *)
Theorem scrape_schedule_extend (srv : imaplib.Server) (cpu_count : nat)
    (imap_host user password : string) (mailboxes : option (list string))
    (sched_ids sched_messages more_ids more_messages : list nat)
    (r : result (list (option Message))) :
  0 < cpu_count →
  scrape srv cpu_count imap_host user password mailboxes sched_ids sched_messages = Some r →
  scrape srv cpu_count imap_host user password mailboxes
    (sched_ids ++ more_ids) (sched_messages ++ more_messages) = Some r.
Proof.
  intros Hcpu. unfold scrape.
  destruct (make_connections srv imap_host user password (seq 0 CONNECTION_POOL_SIZE))
    as [conns|e] eqn:Hconns; [|done].
  pose proof (make_connections_length _ _ _ _ _ _ Hconns) as Hlen. rewrite length_seq in Hlen.
  destruct (workers_bounds conns cpu_count Hlen Hcpu) as [HW HWN].
  pose proof (fresh_new_registry _ conns Hlen) as Hfresh.
  destruct (default_mailboxes srv mailboxes (new_registry CONNECTION_POOL_SIZE conns))
    as [[mbs|e] reg] eqn:Hmbs; [|done].
  apply (default_mailboxes_fresh _ _ CONNECTION_POOL_SIZE) in Hmbs; [|done].
  destruct (map_async_get (fetch_message_ids srv) _ mbs sched_ids reg)
    as [[rA reg1]|] eqn:Hids; [|done].
  destruct (map_async_get_extend _ (fetch_message_ids_any_session srv) _ _ mbs HW HWN
              reg sched_ids more_ids rA reg1 Hmbs Hids) as (reg2 & -> & Hreg2).
  destruct rA as [message_ids|e]; [|done].
  rewrite (Hreg2 _ eq_refl).
  apply (map_async_get_spec _ (fetch_message_ids_any_session srv) _ _ _ HW HWN) in Hids
    as [_ Hfresh1]; [|done].
  destruct (flat message_ids) as [pairs|e]; [|done].
  destruct (map_async_get (fetch_message srv) _ pairs sched_messages reg1)
    as [[rB reg3]|] eqn:Hmsgs; [|done].
  destruct (map_async_get_extend _ (fetch_message_any_session srv) _ _ pairs HW HWN
              reg1 sched_messages more_messages rB reg3 Hfresh1 Hmsgs) as (reg4 & -> & _).
  done.
Qed.

Lemma scrape_schedule_extend_witness :
  scrape (scenario_server imaplib.NO) 1 "imap.gmail.com" "user" "secret"
    (Some ["INBOX"; "Sent"]) (round_robin 2 10 ++ [0; 1]) (round_robin 2 10 ++ [1; 1; 0])
  = Some (Raise (Exception "Failed to retrieve message 3 from mailbox Sent.")).
Proof.
  apply (scrape_schedule_extend (scenario_server imaplib.NO) 1 "imap.gmail.com" "user"
           "secret" (Some ["INBOX"; "Sent"]) (round_robin 2 10) (round_robin 2 10)
           [0; 1] [1; 1; 0] _ ltac:(lia)).
  vm_compute. reflexivity.
Defined.

(** ** parse_mailbox on the entries of a listing *)

Lemma contains_cons_false sub c s :
  PyStr.contains sub (String c s) = false →
  PyStr.startswith (String c s) sub = false ∧ PyStr.contains sub s = false.
Proof. simpl. by intros [? ?]%orb_false_iff. Qed.

(** Without an occurrence of the separator the string is one piece. *)
Lemma split_go_no_sep (sep cur s : string) :
  PyStr.contains sep s = false → PyStr.split_go sep 0 cur s = [cur +:+ s].
Proof.
  revert cur. induction s as [|c s IH]; intros cur Hs.
  - simpl. by rewrite str_app_nil_r.
  - apply contains_cons_false in Hs as [Hstart Hs].
    cbn [PyStr.split_go]. rewrite Hstart, IH by done.
    by rewrite str_app_assoc.
Qed.

Lemma str_length_app (s t : string) :
  String.length (s +:+ t) = String.length s + String.length t.
Proof. induction s as [|c s IH]; [done|]. rewrite str_app_cons. simpl. by rewrite IH. Qed.

Lemma drop_last_snoc (s : string) (c : ascii) : PyStr.drop_last (s +:+ String c "") = s.
Proof.
  induction s as [|a s IH]; [done|]. rewrite str_app_cons. cbn [PyStr.drop_last].
  rewrite IH. destruct s; done.
Qed.

Lemma startswith_slash (s : string) :
  PyStr.startswith (String "/" s) quote_space_quote = false.
Proof. reflexivity. Qed.

Lemma startswith_separator (s : string) :
  PyStr.startswith (quote_space_quote +:+ s) quote_space_quote = true.
Proof. apply startswith_spec. by exists s. Qed.

(** The tail of a listing entry: the delimiter, the separator, the name and
    the closing quote. *)
Lemma split_go_entry (name : string) (r : string) (skip : nat) (cur : string) :
  PyStr.contains quote_space_quote (name +:+ String PyStr.dquote "") = false →
  skip ≤ String.length r →
  PyStr.last_item
    (PyStr.split_go quote_space_quote skip cur
       (r +:+ "/" +:+ quote_space_quote +:+ name +:+ String PyStr.dquote ""))
  = name +:+ String PyStr.dquote "".
Proof.
  intros Hname. revert skip cur. induction r as [|c r IH]; intros skip cur Hskip.
  - assert (skip = 0) as -> by (simpl in Hskip; lia).
    rewrite str_app_nil_l.
    change ("/" +:+ quote_space_quote +:+ name +:+ String PyStr.dquote "")
      with (String "/" (quote_space_quote +:+ name +:+ String PyStr.dquote "")).
    cbn [PyStr.split_go]. rewrite startswith_slash.
    change (quote_space_quote +:+ name +:+ String PyStr.dquote "")
      with (String PyStr.dquote (String " " (String PyStr.dquote
              (name +:+ String PyStr.dquote "")))) at 1.
    cbn [PyStr.split_go].
    change (String PyStr.dquote (String " " (String PyStr.dquote
              (name +:+ String PyStr.dquote ""))))
      with (quote_space_quote +:+ name +:+ String PyStr.dquote "").
    rewrite startswith_separator.
    rewrite last_item_cons by apply split_go_nonempty.
    change (String.length quote_space_quote - 1) with 2.
    cbn [PyStr.split_go]. rewrite split_go_no_sep by done. done.
  - rewrite str_app_cons. destruct skip as [|k].
    + cbn [PyStr.split_go].
      destruct (PyStr.startswith _ quote_space_quote) eqn:Hstart.
      * rewrite last_item_cons by apply split_go_nonempty. apply IH.
        apply startswith_spec in Hstart as [rest Hrest].
        destruct r as [|c1 [|c2 r]]; simpl; [| |lia].
        -- cbv in Hrest. discriminate Hrest.
        -- cbv in Hrest. discriminate Hrest.
      * apply IH. lia.
    + cbn [PyStr.split_go]. apply IH. simpl in Hskip. lia.
Qed.

(** X11. [parse_mailbox] gives back the name of a listing entry, whatever its
    flags, when the name followed by the closing quote holds no separator
    (quote, space, quote). *)
Theorem parse_mailbox_entry (flags name : string) :
  PyStr.contains quote_space_quote (name +:+ String PyStr.dquote "") = false →
  parse_mailbox (listing_entry flags name) = name.
Proof.
  intros Hname. unfold parse_mailbox, PyStr.split, listing_entry.
  replace (flags +:+ " " +:+ String PyStr.dquote
             ("/" +:+ quote_space_quote +:+ name +:+ String PyStr.dquote ""))
    with ((flags +:+ " " +:+ String PyStr.dquote "") +:+
          "/" +:+ quote_space_quote +:+ name +:+ String PyStr.dquote "").
  - rewrite split_go_entry; [apply drop_last_snoc|done|lia].
  - by rewrite !str_app_assoc.
Qed.

Lemma parse_mailbox_entry_witness :
  parse_mailbox (listing_entry "(\HasChildren \Noselect)" "Projects/2014 taxes")
  = "Projects/2014 taxes".
Proof. apply parse_mailbox_entry. reflexivity. Defined.

(** X12. An entry without the separator, such as one whose name the server did
    not put between quotes, is not parsed: it only loses its last
    character. *)
Theorem parse_mailbox_unquoted (mailbox : string) :
  PyStr.contains quote_space_quote mailbox = false →
  parse_mailbox mailbox = PyStr.drop_last mailbox.
Proof.
  intros Hm. unfold parse_mailbox, PyStr.split. by rewrite split_go_no_sep.
Qed.

Lemma parse_mailbox_unquoted_witness :
  parse_mailbox ("(\HasNoChildren) NIL INBOX") = "(\HasNoChildren) NIL INBO".
Proof. apply parse_mailbox_unquoted. reflexivity. Defined.

(** * Properties of analyze.py *)

(** ** Regular expressions *)

Lemma nullable_spec (r : analyze.regex) :
  analyze.nullable r = true ↔ analyze.lang r "".
Proof.
  split.
  - induction r as [| |f|r IHr s IHs|r IHr s IHs|r IHr]; simpl; intros H; try done.
    + constructor.
    + apply andb_true_iff in H as [Hr Hs].
      change "" with ("" +:+ ""). constructor; auto.
    + apply orb_true_iff in H as [Hr|Hs]; [apply analyze.lang_Alt_l|apply analyze.lang_Alt_r]; auto.
    + constructor.
  - remember "" as e eqn:He. induction 1 as [|f c Hf|r s a b Hr IHr Hs IHs|r s a Hr IHr|r s a Hs IHs| |r a b Hr IHr Hs IHs]; simpl; try done.
    + destruct a; [|done]. rewrite str_app_nil_l in He. subst b.
      rewrite IHr, IHs; done.
    + rewrite IHr; done.
    + rewrite IHs by done. apply orb_true_r.
Qed.

Lemma lang_Star_inv (r : analyze.regex) (c : ascii) (s : string) :
  analyze.lang (analyze.Star r) (String c s) →
  ∃ a b, s = a +:+ b ∧ analyze.lang r (String c a) ∧ analyze.lang (analyze.Star r) b.
Proof.
  remember (analyze.Star r) as r' eqn:Hr'. remember (String c s) as cs eqn:Hcs.
  intros H. revert Hr' Hcs.
  induction H as [|f c' Hf|r1 s1 a b Hr IHr Hs IHs|r1 s1 a Hr IHr|r1 s1 a Hs IHs|r1|r1 a b Hr IHr Hs IHs];
    intros Hr' Hcs; try done.
  injection Hr' as ->. destruct a as [|c' a].
  - rewrite str_app_nil_l in Hcs. by apply IHs.
  - rewrite str_app_cons in Hcs. injection Hcs as -> <-. eauto.
Qed.

Lemma deriv_spec (r : analyze.regex) (c : ascii) (s : string) :
  analyze.lang (analyze.deriv c r) s ↔ analyze.lang r (String c s).
Proof.
  revert s. induction r as [| |f|r IHr r' IHr'|r IHr r' IHr'|r IHr]; intros s; simpl.
  - split; inversion 1.
  - split; inversion 1.
  - destruct (f c) eqn:Hf; split; inversion 1; subst; try congruence.
    + by constructor.
    + constructor.
  - assert (∀ a b, analyze.lang (analyze.deriv c r) a → analyze.lang r' b →
              analyze.lang (analyze.Seq r r') (String c (a +:+ b))) as Hseq.
    { intros a b Ha Hb. rewrite <- str_app_cons. constructor; [by apply IHr|done]. }
    assert (analyze.lang (analyze.Seq r r') (String c s) →
            (∃ a b, s = a +:+ b ∧ analyze.lang (analyze.deriv c r) a ∧ analyze.lang r' b) ∨
            (analyze.lang r "" ∧ analyze.lang (analyze.deriv c r') s)) as Hinv.
    { inversion 1 as [| |? ? a b Ha Hb Heq| | | |]; subst. destruct a as [|c' a].
      - rewrite str_app_nil_l in *. subst b. right. split; [done|]. by apply IHr'.
      - rewrite str_app_cons in *. simplify_eq. left. exists a, b. split; [done|].
        split; [by apply IHr|done]. }
    destruct (analyze.nullable r) eqn:Hn.
    + split.
      * inversion 1 as [| | |? ? ? Hl|? ? ? Hl| |]; subst.
        -- inversion Hl; subst. by apply Hseq.
        -- change (String c s) with ("" +:+ String c s). constructor.
           ++ by apply nullable_spec.
           ++ by apply IHr'.
      * intros [(a & b & -> & Ha & Hb)|[_ Hs]]%Hinv.
        -- apply analyze.lang_Alt_l. by constructor.
        -- by apply analyze.lang_Alt_r.
    + split.
      * inversion 1; subst. by apply Hseq.
      * intros [(a & b & -> & Ha & Hb)|[He _]]%Hinv.
        -- by constructor.
        -- apply nullable_spec in He. congruence.
  - split.
    + inversion 1; subst; [apply analyze.lang_Alt_l; by apply IHr|apply analyze.lang_Alt_r; by apply IHr'].
    + inversion 1; subst; [apply analyze.lang_Alt_l; by apply IHr|apply analyze.lang_Alt_r; by apply IHr'].
  - split.
    + inversion 1; subst. rewrite <- str_app_cons. constructor; [by apply IHr|done].
    + intros (a & b & -> & Ha & Hb)%lang_Star_inv. constructor; [by apply IHr|done].
Qed.

Lemma matches_spec (r : analyze.regex) (s : string) :
  analyze.matches r s = true ↔ analyze.lang r s.
Proof.
  revert r. induction s as [|c s IH]; intros r; simpl.
  - apply nullable_spec.
  - rewrite IH. apply deriv_spec.
Qed.

Lemma lang_anything (s : string) : analyze.lang analyze.anything s.
Proof.
  induction s as [|c s IH]; [constructor|].
  change (String c s) with (String c "" +:+ s). constructor; [by constructor|done].
Qed.

(** [search] is true exactly when some part of the string matches. *)
Lemma search_spec (r : analyze.regex) (s : string) :
  analyze.search r s = true ↔ ∃ a m b, s = a +:+ m +:+ b ∧ analyze.lang r m.
Proof.
  unfold analyze.search. rewrite matches_spec. split.
  - inversion 1 as [| |? ? a mb Ha Hmb| | | |]; subst.
    inversion Hmb as [| |? ? m b Hm Hb| | | |]; subst. eauto.
  - intros (a & m & b & -> & Hm). constructor; [apply lang_anything|].
    constructor; [done|apply lang_anything].
Qed.

(** ** normalize_email_address *)

Lemma lower_char_idem (c : ascii) : analyze.lower_char (analyze.lower_char c) = analyze.lower_char c.
Proof. destruct c as [[] [] [] [] [] [] [] []]; reflexivity. Qed.

Lemma lower_idem (s : string) : analyze.lower (analyze.lower s) = analyze.lower s.
Proof. induction s as [|c s IH]; simpl; [done|]. by rewrite lower_char_idem, IH. Qed.

Lemma lower_char_gt (c : ascii) : analyze.lower_char c = ">"%char ↔ c = ">"%char.
Proof. destruct c as [[] [] [] [] [] [] [] []]; vm_compute; split; congruence. Qed.

Lemma lower_char_lt (c : ascii) : analyze.lower_char c = "<"%char ↔ c = "<"%char.
Proof. destruct c as [[] [] [] [] [] [] [] []]; vm_compute; split; congruence. Qed.

Lemma lower_app (s t : string) : analyze.lower (s +:+ t) = analyze.lower s +:+ analyze.lower t.
Proof.
  induction s as [|c s IH]; [done|]. rewrite str_app_cons. simpl. by rewrite IH, str_app_cons.
Qed.

Lemma contains_char_cons (x c : ascii) (s : string) :
  PyStr.contains (String x "") (String c s) = false ↔
  c ≠ x ∧ PyStr.contains (String x "") s = false.
Proof.
  simpl. destruct (decide (x = c)) as [->|Hne]; simpl.
  - split; [done|]. by intros [? _].
  - split; [intros H; split; [congruence|done]|by intros [_ ?]].
Qed.

Lemma until_gt_tail (c : ascii) (s : string) :
  analyze.until_gt (String c s) = None → analyze.until_gt s = None.
Proof. simpl. case_bool_decide; [done|]. by destruct (analyze.until_gt s). Qed.

Lemma until_gt_lowered (s g : string) :
  analyze.until_gt s = Some g → analyze.lower s = s → analyze.lower g = g.
Proof.
  revert g. induction s as [|c s IH]; intros g; simpl; [done|].
  case_bool_decide; [by intros [= <-]|].
  destruct (analyze.until_gt s) as [g'|]; [|done].
  intros [= <-] [= Hc Hs]. simpl. by rewrite Hc, (IH g').
Qed.

Lemma until_gt_group (s g : string) :
  analyze.until_gt s = Some g → analyze.until_gt g = None.
Proof.
  revert g. induction s as [|c s IH]; intros g; simpl; [done|].
  case_bool_decide; [by intros [= <-]|].
  destruct (analyze.until_gt s) as [g'|]; [|done].
  intros [= <-]. simpl. rewrite bool_decide_false by done. by rewrite (IH g').
Qed.

Lemma search_angle_None (s : string) :
  analyze.until_gt s = None → analyze.search_angle s = None.
Proof.
  induction s as [|c s IH]; [done|]. intros H.
  pose proof (until_gt_tail _ _ H) as Hs. simpl.
  rewrite Hs, IH by done. by case_bool_decide.
Qed.

Lemma search_angle_group (s g : string) :
  analyze.search_angle s = Some g → analyze.lower s = s →
  analyze.lower g = g ∧ analyze.until_gt g = None.
Proof.
  induction s as [|c s IH]; simpl; [done|].
  intros H [= Hc Hs].
  assert (analyze.search_angle s = Some g → analyze.lower g = g ∧ analyze.until_gt g = None)
    as IH' by (intros ?; by apply IH).
  case_bool_decide; [|by apply IH'].
  destruct (analyze.until_gt s) as [[|a g']|] eqn:Hu; [by apply IH'| |by apply IH'].
  injection H as <-. split; [by eapply until_gt_lowered|by eapply until_gt_group].
Qed.

(** X13. Normalizing an address twice is the same as normalizing it once. *)
Theorem normalize_email_address_idempotent (addr : string) :
  analyze.normalize_email_address (analyze.normalize_email_address addr)
  = analyze.normalize_email_address addr.
Proof.
  unfold analyze.normalize_email_address.
  destruct (analyze.search_angle (analyze.lower addr)) as [g|] eqn:Hs.
  - destruct (search_angle_group _ _ Hs (lower_idem addr)) as [Hl Hg].
    by rewrite Hl, (search_angle_None _ Hg).
  - by rewrite lower_idem, Hs.
Qed.

Lemma until_gt_app (addr rest : string) :
  PyStr.contains ">" addr = false →
  analyze.until_gt (addr +:+ String ">" rest) = Some addr.
Proof.
  induction addr as [|c addr IH]; intros H.
  - done.
  - apply contains_char_cons in H as [Hc H]. rewrite str_app_cons. simpl.
    rewrite bool_decide_false by done. by rewrite IH.
Qed.

Lemma contains_char_lower (x : ascii) (s : string) :
  (∀ c, analyze.lower_char c = x ↔ c = x) →
  PyStr.contains (String x "") s = false →
  PyStr.contains (String x "") (analyze.lower s) = false.
Proof.
  intros Hx. induction s as [|c s IH]; [done|].
  intros [Hc H]%contains_char_cons. change (analyze.lower (String c s))
    with (String (analyze.lower_char c) (analyze.lower s)).
  apply contains_char_cons. split; [by rewrite Hx|by apply IH].
Qed.

Lemma search_angle_app (name addr : string) :
  PyStr.contains "<" name = false →
  analyze.search_angle (name +:+ addr) = analyze.search_angle addr.
Proof.
  induction name as [|c name IH]; intros H; [done|].
  apply contains_char_cons in H as [Hc H]. rewrite str_app_cons. simpl.
  rewrite bool_decide_false by done. by apply IH.
Qed.

(** X14. From [name <addr>...] the function takes [addr], in lower case: when
    the text before the bracket has no [<], and [addr] is not empty and
    has no [>]. *)
Theorem normalize_email_address_extracts (name addr rest : string) :
  PyStr.contains "<" name = false →
  addr ≠ "" →
  PyStr.contains ">" addr = false →
  analyze.normalize_email_address (name +:+ "<" +:+ addr +:+ ">" +:+ rest)
  = analyze.lower addr.
Proof.
  intros Hname Haddr Hgt. unfold analyze.normalize_email_address.
  rewrite !lower_app. change (analyze.lower "<") with "<". change (analyze.lower ">") with ">".
  rewrite (search_angle_app (analyze.lower name))
    by exact (contains_char_lower _ _ lower_char_lt Hname).
  rewrite !str_app_cons, str_app_nil_l. simpl.
  rewrite (until_gt_app (analyze.lower addr))
    by exact (contains_char_lower _ _ lower_char_gt Hgt).
  destruct addr as [|c addr]; done.
Qed.

Lemma normalize_email_address_extracts_witness :
  analyze.normalize_email_address "Bob Smith <Bob.Smith@Example.COM> (work)"
  = "bob.smith@example.com".
Proof.
  apply (normalize_email_address_extracts "Bob Smith " "Bob.Smith@Example.COM" " (work)");
    [reflexivity|discriminate|reflexivity].
Defined.

(** X15. Without a [<] in it an address is only put in lower case. *)
Theorem normalize_email_address_plain (addr : string) :
  PyStr.contains "<" addr = false →
  analyze.normalize_email_address addr = analyze.lower addr.
Proof.
  intros H. unfold analyze.normalize_email_address.
  pose proof (search_angle_app (analyze.lower addr) ""
                (contains_char_lower _ _ lower_char_lt H)) as Hs.
  rewrite str_app_nil_r in Hs. by rewrite Hs.
Qed.

Lemma normalize_email_address_plain_witness :
  analyze.normalize_email_address "Alice@Example.org" = "alice@example.org".
Proof. apply (normalize_email_address_plain "Alice@Example.org"). reflexivity. Defined.

Lemma lang_char (c : ascii) (m : string) :
  analyze.lang (analyze.char c) m → m = String c "".
Proof. inversion 1 as [|f c' Hc| | | | |]; subst. by case_bool_decide; subst. Qed.

Lemma lang_lit (s m : string) : analyze.lang (analyze.lit s) m → m = s.
Proof.
  revert m. induction s as [|c s IH]; intros m; simpl.
  - by inversion 1.
  - inversion 1 as [| |? ? a b Ha Hb| | | |]; subst.
    apply lang_char in Ha as ->. apply IH in Hb as ->. done.
Qed.

Lemma lang_star_char (c : ascii) (m : string) :
  analyze.lang (analyze.Star (analyze.char c)) m → String c m = m +:+ String c "".
Proof.
  remember (analyze.Star (analyze.char c)) as r eqn:Hr. intros H. revert Hr.
  induction H as [| | | | | |r' a b Ha _ Hb IH]; intros Hr; try done.
  injection Hr as ->. apply lang_char in Ha as ->.
  rewrite !str_app_cons, !str_app_nil_l. by rewrite <- IH.
Qed.

Lemma lang_plus_char (c : ascii) (m : string) :
  analyze.lang (analyze.plus (analyze.char c)) m →
  ∃ m', m = String c m' ∧ m = m' +:+ String c "".
Proof.
  inversion 1 as [| |? ? a b Ha Hb| | | |]; subst.
  apply lang_char in Ha as ->. exists b. split; [done|].
  rewrite str_app_cons, str_app_nil_l. by apply lang_star_char.
Qed.

Lemma until_gt_None (s : string) :
  analyze.until_gt s = None ↔ PyStr.contains ">" s = false.
Proof.
  induction s as [|c s IH]; [done|]. rewrite contains_char_cons, <- IH. simpl.
  case_bool_decide as Hc.
  - split; [done|]. by intros [? _].
  - destruct (analyze.until_gt s); split; try done. by intros [_ ?].
Qed.

Lemma lang_not_gt (g : string) :
  analyze.lang (analyze.Star (analyze.Class (λ c, negb (bool_decide (c = ">"%char))))) g ↔
  PyStr.contains ">" g = false.
Proof.
  split.
  - remember (analyze.Star _) as r eqn:Hr. intros H. revert Hr.
    induction H as [| | | | | |r' a b Ha _ Hb IH]; intros Hr; try done.
    injection Hr as ->. inversion Ha as [|f c Hc| | | | |]; subst.
    rewrite str_app_cons, str_app_nil_l. apply contains_char_cons.
    split; [|by apply IH]. apply negb_true_iff in Hc. by case_bool_decide.
  - induction g as [|c g IH]; [constructor|].
    intros [Hc Hg]%contains_char_cons.
    change (String c g) with (String c "" +:+ g). constructor; [|by apply IH].
    constructor. by rewrite bool_decide_false.
Qed.

Lemma until_gt_Some (s g : string) :
  analyze.until_gt s = Some g → ∃ b, s = g +:+ ">" +:+ b.
Proof.
  revert g. induction s as [|c s IH]; intros g; simpl; [done|].
  case_bool_decide as Hc.
  - intros [= <-]. subst c. by exists s.
  - destruct (analyze.until_gt s) as [g'|]; [|done]. intros [= <-].
    destruct (IH g' eq_refl) as [b Hb]. exists b. by rewrite str_app_cons, <- Hb.
Qed.

Lemma search_angle_Some (s g : string) :
  analyze.search_angle s = Some g →
  g ≠ "" ∧ PyStr.contains ">" g = false ∧ ∃ a b, s = a +:+ "<" +:+ g +:+ ">" +:+ b.
Proof.
  induction s as [|c s IH]; simpl; [done|].
  assert (analyze.search_angle s = Some g →
          g ≠ "" ∧ PyStr.contains ">" g = false ∧
          ∃ a b, String c s = a +:+ "<" +:+ g +:+ ">" +:+ b) as IH'.
  { intros (? & ? & a & b & ->)%IH. split_and!; [done..|]. by exists (String c a), b. }
  case_bool_decide as Hc; [|done].
  destruct (analyze.until_gt s) as [[|x g']|] eqn:Hu; [done| |done].
  intros [= <-]. subst c. split; [done|]. split.
  { apply until_gt_None. by eapply until_gt_group. }
  apply until_gt_Some in Hu as [b ->]. by exists "", b.
Qed.

(** The hand-written search for the bracket pair finds a group exactly
    when the regular expression has a match. *)
Lemma search_angle_spec (s : string) :
  is_Some (analyze.search_angle s) ↔ analyze.search analyze.angle s = true.
Proof.
  rewrite search_spec. split.
  - intros [g (Hne & Hg & a & b & ->)%search_angle_Some].
    exists a, ("<" +:+ g +:+ ">"), b. split.
    { by rewrite !str_app_assoc. }
    unfold analyze.angle. constructor; [by constructor; rewrite bool_decide_true|].
    constructor; [|by constructor; rewrite bool_decide_true].
    destruct g as [|c g]; [done|]. apply contains_char_cons in Hg as [Hc Hg].
    change (String c g) with (String c "" +:+ g). constructor.
    + constructor. by rewrite bool_decide_false.
    + by apply lang_not_gt.
  - intros (a & m & b & -> & Hm). unfold analyze.angle in Hm.
    inversion Hm as [| |? ? lt m' Hlt Hm'| | | |]; subst.
    inversion Hm' as [| |? ? g gt Hg Hgt| | | |]; subst.
    apply lang_char in Hlt as ->. apply lang_char in Hgt as ->.
    inversion Hg as [| |? ? g1 g2 Hg1 Hg2| | | |]; subst.
    inversion Hg1 as [|f c Hc| | | | |]; subst.
    apply lang_not_gt in Hg2. apply negb_true_iff, bool_decide_eq_false in Hc.
    assert (PyStr.contains ">" (String c g2) = false) as Hcg.
    { by apply contains_char_cons. }
    rewrite !str_app_assoc, !str_app_cons, !str_app_nil_l.
    induction a as [|x a IH].
    + rewrite str_app_nil_l. simpl.
      pose proof (until_gt_app (String c g2) b Hcg) as Hu.
      rewrite str_app_cons in Hu. simpl in Hu. rewrite Hu. eauto.
    + rewrite str_app_cons. simpl. destruct (bool_decide (x = "<"%char)); [|done].
      by destruct (analyze.until_gt _) as [[|? ?]|].
Qed.

(** ** strip and the lines that are kept *)

Lemma lstrip_cons (c : ascii) (s : string) :
  analyze.truthy (analyze.lstrip (String c s))
  = negb (analyze.is_space c) || analyze.truthy (analyze.lstrip s).
Proof. simpl. by destruct (analyze.is_space c). Qed.

Lemma lstrip_idem (s : string) : analyze.lstrip (analyze.lstrip s) = analyze.lstrip s.
Proof.
  induction s as [|c s IH]; [done|]. simpl.
  destruct (analyze.is_space c) eqn:Hc; [done|]. simpl. by rewrite Hc.
Qed.

Lemma lstrip_rev_app (s acc : string) :
  analyze.truthy (analyze.lstrip (String.rev_app s acc))
  = analyze.truthy (analyze.lstrip s) || analyze.truthy (analyze.lstrip acc).
Proof.
  revert acc. induction s as [|c s IH]; intros acc; [done|].
  change (String.rev_app (String c s) acc) with (String.rev_app s (String c acc)).
  rewrite IH, !lstrip_cons. destruct (analyze.is_space c); simpl; [done|].
  by rewrite orb_true_r.
Qed.

Lemma truthy_rev_app (s acc : string) :
  analyze.truthy (String.rev_app s acc) = analyze.truthy s || analyze.truthy acc.
Proof.
  revert acc. induction s as [|c s IH]; intros acc; [done|].
  change (String.rev_app (String c s) acc) with (String.rev_app s (String c acc)).
  rewrite IH. simpl. by rewrite orb_true_r.
Qed.

(** [s.strip()] is not empty exactly when [s.lstrip()] is not. *)
Lemma truthy_strip (s : string) :
  analyze.truthy (analyze.strip s) = analyze.truthy (analyze.lstrip s).
Proof.
  unfold analyze.strip, analyze.rstrip, String.rev.
  rewrite truthy_rev_app, lstrip_rev_app, lstrip_idem. simpl. by rewrite !orb_false_r.
Qed.

Lemma truthy_lstrip_app (s t : string) :
  analyze.truthy (analyze.lstrip (s +:+ t))
  = analyze.truthy (analyze.lstrip s) || analyze.truthy (analyze.lstrip t).
Proof.
  induction s as [|c s IH]; [done|]. rewrite str_app_cons, !lstrip_cons, IH.
  by rewrite orb_assoc.
Qed.

Lemma truthy_strip_join (l : string) (ls : list string) :
  analyze.truthy (analyze.strip l) = true →
  analyze.truthy (analyze.strip (analyze.join analyze.CRLF (l :: ls))) = true.
Proof.
  rewrite !truthy_strip. intros Hl. destruct ls as [|l' ls]; [done|].
  change (analyze.join analyze.CRLF (l :: l' :: ls))
    with (l +:+ analyze.CRLF +:+ analyze.join analyze.CRLF (l' :: ls)).
  by rewrite truthy_lstrip_app, Hl.
Qed.

Lemma keep_loop_app (before after keep_lines : list string) :
  Forall (λ line, analyze.cuts line = false) before →
  analyze.keep_loop (before ++ after) keep_lines
  = analyze.keep_loop after
      (keep_lines ++ filter (λ line, analyze.truthy (analyze.strip line) = true) before).
Proof.
  intros H. revert keep_lines. induction H as [|line before Hline _ IH]; intros keep_lines.
  - by rewrite app_nil_r.
  - simpl. rewrite Hline, IH. rewrite filter_cons.
    destruct (analyze.truthy (analyze.strip line)) eqn:Hs.
    + rewrite decide_True by done. by rewrite <- app_assoc.
    + rewrite decide_False by done. done.
Qed.

Lemma keep_loop_nonblank (contents keep_lines : list string) :
  Forall (λ line, analyze.truthy (analyze.strip line) = true) keep_lines →
  Forall (λ line, analyze.truthy (analyze.strip line) = true)
    (analyze.keep_loop contents keep_lines).
Proof.
  revert keep_lines. induction contents as [|line rest IH]; intros keep_lines Hk; [done|].
  simpl. destruct (analyze.cuts line); [done|]. apply IH.
  destruct (analyze.truthy (analyze.strip line)) eqn:Hs; [|done].
  apply Forall_app. split; [done|]. by constructor.
Qed.

(** What comes after a line that cuts never reaches the kept lines. *)
Lemma keep_loop_cut (before after : list string) (line : string) (keep_lines : list string) :
  analyze.cuts line = true →
  analyze.keep_loop (before ++ line :: after) keep_lines = analyze.keep_loop before keep_lines.
Proof.
  intros Hline. revert keep_lines.
  induction before as [|l before IH]; intros keep_lines; simpl.
  - by rewrite Hline.
  - destruct (analyze.cuts l); [done|]. apply IH.
Qed.

(** ** split and join on CRLF *)

Lemma startswith_CRLF_app (t1 t2 : string) (c : ascii) :
  PyStr.startswith (String c t1 +:+ analyze.CRLF +:+ t2) analyze.CRLF
  = PyStr.startswith (String c t1) analyze.CRLF.
Proof.
  rewrite str_app_cons. unfold analyze.CRLF.
  destruct t1 as [|d t1].
  - rewrite str_app_nil_l, str_app_cons. simpl.
    by destruct (decide (analyze.CR = c)).
  - rewrite str_app_cons. simpl. destruct (decide (analyze.CR = c)); [|done].
    by destruct (decide (analyze.LF = d)).
Qed.

Lemma split_go_app_CRLF (t1 t2 : string) (skip : nat) (cur : string) :
  skip ≤ String.length t1 →
  PyStr.split_go analyze.CRLF skip cur (t1 +:+ analyze.CRLF +:+ t2)
  = PyStr.split_go analyze.CRLF skip cur t1 ++ PyStr.split_go analyze.CRLF 0 "" t2.
Proof.
  revert skip cur. induction t1 as [|c t1 IH]; intros skip cur Hskip.
  - simpl in Hskip. assert (skip = 0) as -> by lia. done.
  - destruct skip as [|k].
    + change (PyStr.split_go analyze.CRLF 0 cur (String c t1 +:+ analyze.CRLF +:+ t2))
        with (if PyStr.startswith (String c t1 +:+ analyze.CRLF +:+ t2) analyze.CRLF
              then cur :: PyStr.split_go analyze.CRLF 1 "" (t1 +:+ analyze.CRLF +:+ t2)
              else PyStr.split_go analyze.CRLF 0 (cur +:+ String c "")
                     (t1 +:+ analyze.CRLF +:+ t2)).
      rewrite startswith_CRLF_app.
      change (PyStr.split_go analyze.CRLF 0 cur (String c t1))
        with (if PyStr.startswith (String c t1) analyze.CRLF
              then cur :: PyStr.split_go analyze.CRLF 1 "" t1
              else PyStr.split_go analyze.CRLF 0 (cur +:+ String c "") t1).
      destruct (PyStr.startswith (String c t1) analyze.CRLF) eqn:Hs.
      * rewrite IH; [done|]. destruct t1; [|simpl; lia].
        simpl in Hs. by destruct (decide (analyze.CR = c)).
      * apply IH. lia.
    + rewrite str_app_cons. simpl. apply IH. simpl in Hskip. lia.
Qed.

Lemma split_app_CRLF (t1 t2 : string) :
  PyStr.split (t1 +:+ analyze.CRLF +:+ t2) analyze.CRLF
  = PyStr.split t1 analyze.CRLF ++ PyStr.split t2 analyze.CRLF.
Proof. apply split_go_app_CRLF. lia. Qed.

Lemma split_line (line : string) :
  PyStr.contains analyze.CRLF line = false → PyStr.split line analyze.CRLF = [line].
Proof. intros H. unfold PyStr.split. by rewrite split_go_no_sep. Qed.

(** Joining lines that hold no CRLF and splitting again gives the lines
    back. *)
Lemma split_join (l : string) (ls : list string) :
  Forall (λ line, PyStr.contains analyze.CRLF line = false) (l :: ls) →
  PyStr.split (analyze.join analyze.CRLF (l :: ls)) analyze.CRLF = l :: ls.
Proof.
  revert l. induction ls as [|l' ls IH]; intros l [Hl Hls]%Forall_cons.
  - by apply split_line.
  - change (analyze.join analyze.CRLF (l :: l' :: ls))
      with (l +:+ analyze.CRLF +:+ analyze.join analyze.CRLF (l' :: ls)).
    rewrite split_app_CRLF, split_line, IH; done.
Qed.

Lemma contains_CRLF_snoc (cur : string) (c : ascii) :
  PyStr.contains analyze.CRLF cur = false →
  (c = analyze.LF → ∀ a, cur ≠ a +:+ String analyze.CR "") →
  PyStr.contains analyze.CRLF (cur +:+ String c "") = false.
Proof.
  induction cur as [|x cur IH]; intros Hcur Hend.
  - rewrite str_app_nil_l. unfold analyze.CRLF. simpl.
    by destruct (decide (analyze.CR = c)).
  - apply contains_cons_false in Hcur as [Hx Hcur]. rewrite str_app_cons.
    change (PyStr.contains analyze.CRLF (String x (cur +:+ String c "")))
      with (PyStr.startswith (String x (cur +:+ String c "")) analyze.CRLF
            || PyStr.contains analyze.CRLF (cur +:+ String c "")).
    rewrite IH; [|done|].
    + rewrite orb_false_r. unfold analyze.CRLF in *. simpl in *.
      destruct (decide (analyze.CR = x)) as [<-|]; [|done].
      destruct cur as [|y cur].
      * rewrite str_app_nil_l. destruct (decide (analyze.LF = c)) as [<-|]; [|done].
        by destruct (Hend eq_refl "").
      * by rewrite str_app_cons.
    + intros Hc a Ha. apply (Hend Hc (String x a)). by rewrite str_app_cons, Ha.
Qed.

Lemma str_snoc_inj (a b : string) (c d : ascii) :
  a +:+ String c "" = b +:+ String d "" → c = d.
Proof.
  revert b. induction a as [|x a IH]; intros [|y b]; rewrite ?str_app_nil_l, ?str_app_cons.
  - congruence.
  - intros [= _ H]. destruct b; rewrite ?str_app_cons in H; done.
  - intros [= _ H]. destruct a; rewrite ?str_app_cons in H; done.
  - intros [= _ H]. by apply (IH b).
Qed.

(** No piece of a split on CRLF holds a CRLF. *)
Lemma split_go_pieces (s : string) (skip : nat) (cur : string) :
  PyStr.contains analyze.CRLF cur = false →
  (∀ a s', cur = a +:+ String analyze.CR "" → s ≠ String analyze.LF s') →
  (0 < skip → cur = "") →
  Forall (λ piece, PyStr.contains analyze.CRLF piece = false)
    (PyStr.split_go analyze.CRLF skip cur s).
Proof.
  revert skip cur. induction s as [|c s IH]; intros skip cur Hcur Hend Hskip.
  - by constructor.
  - destruct skip as [|k].
    + change (PyStr.split_go analyze.CRLF 0 cur (String c s))
        with (if PyStr.startswith (String c s) analyze.CRLF
              then cur :: PyStr.split_go analyze.CRLF 1 "" s
              else PyStr.split_go analyze.CRLF 0 (cur +:+ String c "") s).
      destruct (PyStr.startswith (String c s) analyze.CRLF) eqn:Hs.
      * constructor; [done|]. apply IH; [done| |done].
        intros [|? a] s' Ha; rewrite ?str_app_cons in Ha; done.
      * apply IH.
        -- apply contains_CRLF_snoc; [done|]. intros -> a ->. by apply (Hend a s).
        -- intros a s' Ha ->. apply str_snoc_inj in Ha as ->.
           unfold analyze.CRLF in Hs. simpl in Hs. done.
        -- lia.
    + simpl. rewrite (Hskip ltac:(lia)). apply IH; [done| |done].
      intros [|? a] s' Ha; rewrite ?str_app_cons in Ha; done.
Qed.

Lemma split_pieces (s : string) :
  Forall (λ piece, PyStr.contains analyze.CRLF piece = false) (PyStr.split s analyze.CRLF).
Proof.
  apply split_go_pieces; [done| |done].
  intros [|? a] s' Ha; rewrite ?str_app_cons in Ha; done.
Qed.

Lemma keep_loop_prefix (contents keep_lines : list string) :
  ∃ before after,
    contents = before ++ after ∧
    Forall (λ line, analyze.cuts line = false) before ∧
    analyze.keep_loop contents keep_lines
    = keep_lines ++ filter (λ line, analyze.truthy (analyze.strip line) = true) before.
Proof.
  revert keep_lines. induction contents as [|line rest IH]; intros keep_lines.
  - exists [], []. split; [done|]. split; [done|]. simpl. by rewrite app_nil_r.
  - simpl. destruct (analyze.cuts line) eqn:Hline.
    + exists [], (line :: rest). split; [done|]. split; [done|]. by rewrite app_nil_r.
    + destruct (IH (if analyze.truthy (analyze.strip line)
                    then keep_lines ++ [line] else keep_lines))
        as (before & after & -> & Hb & ->).
      exists (line :: before), after. split; [done|]. split; [by constructor|].
      rewrite filter_cons. destruct (analyze.truthy (analyze.strip line)).
      * rewrite decide_True by done. by rewrite <- app_assoc.
      * by rewrite decide_False by done.
Qed.

Lemma body_loop_Some (payloads : list analyze.Message) (body : string) :
  analyze.body_loop payloads = analyze.Ok (Some body) →
  ∃ payload text,
    payload ∈ payloads ∧
    analyze.get_content_type payload = "text/plain" ∧
    analyze.get_payload payload = inl text ∧
    analyze.keep_loop (PyStr.split text analyze.CRLF) [] ≠ [] ∧
    body = analyze.join analyze.CRLF (analyze.keep_loop (PyStr.split text analyze.CRLF) []).
Proof.
  induction payloads as [|payload rest IH]; simpl; [done|].
  assert (analyze.body_loop rest = analyze.Ok (Some body) →
          ∃ payload0 text, payload0 ∈ payload :: rest ∧
            analyze.get_content_type payload0 = "text/plain" ∧
            analyze.get_payload payload0 = inl text ∧
            analyze.keep_loop (PyStr.split text analyze.CRLF) [] ≠ [] ∧
            body = analyze.join analyze.CRLF
                     (analyze.keep_loop (PyStr.split text analyze.CRLF) [])) as IH'.
  { intros (p & text & Hp & ?)%IH. exists p, text. split; [by right|done]. }
  case_bool_decide as Hct; [done|].
  destruct (analyze.get_payload payload) as [text|parts] eqn:Hpl; [|done].
  destruct (analyze.keep_loop (PyStr.split text analyze.CRLF) []) as [|l ls] eqn:Hk; [done|].
  intros [= <-]. exists payload, text. rewrite Hk. split; [by left|done].
Qed.


Lemma Forall_sublist {A} (P : A → Prop) (l1 l2 : list A) :
  l1 `sublist_of` l2 → Forall P l2 → Forall P l1.
Proof.
  induction 1 as [|x l1 l2 _ IH|x l1 l2 _ IH]; [done| |].
  - intros [? ?]%Forall_cons. constructor; auto.
  - intros [? ?]%Forall_cons. auto.
Qed.

(** ** parse_email *)

Section ParseEmail.
Variable datetime : Type.
Variable parse : option string → analyze.outcome datetime.

Lemma parse_email_Ok (email : analyze.Message) from_ date body :
  analyze.parse_email datetime parse email = analyze.Ok (from_, date, body) ↔
  (∃ addr, analyze.get_From email = Some addr ∧ from_ = analyze.normalize_email_address addr) ∧
  parse (analyze.get_Date email) = analyze.Ok date ∧
  analyze.body_loop (analyze.payloads_of email) = analyze.Ok body.
Proof.
  unfold analyze.parse_email, analyze.bind.
  destruct (analyze.get_From email) as [addr|].
  - destruct (parse (analyze.get_Date email)) as [date'|e].
    + destruct (analyze.body_loop (analyze.payloads_of email)) as [body'|e].
      * split.
        -- intros [= <- <- <-]. eauto.
        -- intros ((addr' & [= <-] & ->) & [= ->] & [= ->]). done.
      * split; [done|]. by intros (_ & _ & ?).
    + split; [done|]. by intros (_ & ? & _).
  - split; [done|]. by intros ((? & ? & _) & _).
Qed.

(** X16. A body that [parse_email] returns is never empty nor blank, and its
    lines are lines of the text of one text/plain payload, in their order,
    none of them blank and none of them a line that cuts. *)
Theorem parse_email_body_lines (email : analyze.Message) (from_ : string) (date : datetime)
    (body : string) :
  analyze.parse_email datetime parse email = analyze.Ok (from_, date, Some body) →
  analyze.truthy (analyze.strip body) = true ∧
  ∃ payload text,
    payload ∈ analyze.payloads_of email ∧
    analyze.get_content_type payload = "text/plain" ∧
    analyze.get_payload payload = inl text ∧
    PyStr.split body analyze.CRLF `sublist_of` PyStr.split text analyze.CRLF ∧
    Forall (λ line, analyze.cuts line = false ∧ analyze.truthy (analyze.strip line) = true)
      (PyStr.split body analyze.CRLF).
Proof.
  intros (_ & _ & Hbody)%parse_email_Ok.
  apply body_loop_Some in Hbody as (payload & text & Hin & Hct & Hpl & Hne & ->).
  destruct (keep_loop_prefix (PyStr.split text analyze.CRLF) [])
    as (before & after & Hsplit & Hcut & Hkeep).
  rewrite app_nil_l in Hkeep.
  assert (analyze.keep_loop (PyStr.split text analyze.CRLF) [] `sublist_of`
            PyStr.split text analyze.CRLF) as Hsub.
  { rewrite Hkeep, Hsplit. etrans; [apply sublist_filter|]. by apply sublist_inserts_r. }
  destruct (analyze.keep_loop (PyStr.split text analyze.CRLF) []) as [|l ls] eqn:Hk; [done|].
  pose proof (keep_loop_nonblank (PyStr.split text analyze.CRLF) [] (Forall_nil_2 _)) as Hnb.
  rewrite Hk in Hnb. split.
  { apply truthy_strip_join. by apply Forall_cons in Hnb as [? _]. }
  exists payload, text. split_and!; [done..| |].
  - rewrite split_join; [done|].
    apply (Forall_sublist _ _ _ Hsub), split_pieces.
  - rewrite split_join.
    + apply Forall_forall. intros line Hline. split.
      * rewrite Hkeep in Hline. apply list_elem_of_filter in Hline as [_ Hline].
        by eapply (proj1 (Forall_forall _ _) Hcut).
      * by eapply (proj1 (Forall_forall _ _) Hnb).
    + apply (Forall_sublist _ _ _ Hsub), split_pieces.
Qed.

(** X17. In a text/plain message the text from a line that cuts on does not
    count: the result is that of the text before the line. *)
Theorem parse_email_drops_quoted (From Date : option string) (before line after : string) :
  PyStr.contains analyze.CRLF line = false →
  analyze.cuts line = true →
  analyze.parse_email datetime parse
    (analyze.Msg From Date "text/plain"
       (inl (before +:+ analyze.CRLF +:+ line +:+ analyze.CRLF +:+ after)))
  = analyze.parse_email datetime parse (analyze.Msg From Date "text/plain" (inl before)).
Proof.
  intros Hline Hcut. unfold analyze.parse_email, analyze.payloads_of. simpl.
  rewrite !split_app_CRLF, (split_line line Hline).
  change ([line] ++ PyStr.split after analyze.CRLF)
    with (line :: PyStr.split after analyze.CRLF).
  by rewrite keep_loop_cut.
Qed.

(** X18. The parts of a multipart message that are not text/plain, and the
    content type of the message itself, do not count. *)
Theorem parse_email_other_parts (From Date : option string) (content_type content_type' : string)
    (parts : list analyze.Message) :
  analyze.parse_email datetime parse (analyze.Msg From Date content_type (inr parts))
  = analyze.parse_email datetime parse
      (analyze.Msg From Date content_type'
         (inr (filter (λ part, analyze.get_content_type part = "text/plain") parts))).
Proof.
  unfold analyze.parse_email, analyze.payloads_of. simpl.
  assert (analyze.body_loop parts
          = analyze.body_loop
              (filter (λ part, analyze.get_content_type part = "text/plain") parts)) as ->;
    [|done].
  induction parts as [|part parts IH]; [done|]. rewrite filter_cons. simpl.
  case_bool_decide as Hct.
  - by rewrite decide_False.
  - rewrite decide_True by done. simpl. rewrite bool_decide_false by (by intros ?).
    by rewrite IH.
Qed.

End ParseEmail.

(** ** The lines that cut *)

(** X19. The search for [-+ Forwarded message -+] in a line is the test that
    the line holds [- Forwarded message -]. *)
Theorem forwarded_search_is_substring (line : string) :
  analyze.search analyze.forwarded line = PyStr.contains "- Forwarded message -" line.
Proof.
  apply eq_true_iff_eq. rewrite search_spec, contains_spec. split.
  - intros (a & m & b & -> & Hm). unfold analyze.forwarded in Hm.
    inversion Hm as [| |? ? d1 m' Hd1 Hm'| | | |]; subst.
    inversion Hm' as [| |? ? t d2 Ht Hd2| | | |]; subst.
    apply (lang_lit " Forwarded message ") in Ht as ->.
    apply lang_plus_char in Hd1 as (d1' & _ & ->).
    apply lang_plus_char in Hd2 as (d2' & -> & _).
    exists (a +:+ d1'), (d2' +:+ b).
    rewrite !str_app_assoc, !str_app_cons, !str_app_nil_l. done.
  - intros (a & b & ->). exists a, "- Forwarded message -", b. split; [done|].
    apply matches_spec. reflexivity.
Qed.

(** ** get_word_counts *)

Lemma insert_row_Permutation (row : string * nat) (l : list (string * nat)) :
  analyze.insert_row row l ≡ₚ row :: l.
Proof.
  induction l as [|row' l IH]; simpl; [done|].
  destruct (row.2 <? row'.2); [|done]. rewrite IH. apply Permutation_swap.
Qed.

Lemma sorted_by_count_Permutation (l : list (string * nat)) :
  analyze.sorted_by_count l ≡ₚ l.
Proof.
  induction l as [|row l IH]; simpl; [done|].
  by rewrite insert_row_Permutation, IH.
Qed.

Lemma insert_row_sorted (row : string * nat) (l : list (string * nat)) :
  StronglySorted (λ r r' : string * nat, r'.2 ≤ r.2) l →
  StronglySorted (λ r r' : string * nat, r'.2 ≤ r.2) (analyze.insert_row row l).
Proof.
  induction 1 as [|row' l Hl IH Hrow']; simpl.
  - repeat constructor.
  - destruct (row.2 <? row'.2) eqn:Hlt.
    + apply Nat.ltb_lt in Hlt. constructor; [done|].
      rewrite insert_row_Permutation. constructor; [lia|done].
    + apply Nat.ltb_ge in Hlt. constructor; [by constructor|].
      constructor; [done|]. eapply Forall_impl; [done|]. simpl. lia.
Qed.

Lemma sorted_by_count_sorted (l : list (string * nat)) :
  StronglySorted (λ r r' : string * nat, r'.2 ≤ r.2) (analyze.sorted_by_count l).
Proof.
  induction l as [|row l IH]; simpl; [constructor|]. by apply insert_row_sorted.
Qed.

Lemma insert_row_filter (n : nat) (row : string * nat) (l : list (string * nat)) :
  filter (λ r : string * nat, r.2 = n) (analyze.insert_row row l)
  = filter (λ r : string * nat, r.2 = n) (row :: l).
Proof.
  induction l as [|row' l IH]; simpl; [done|].
  destruct (row.2 <? row'.2) eqn:Hlt; [|done].
  apply Nat.ltb_lt in Hlt. rewrite filter_cons, IH, !filter_cons.
  destruct (decide (row'.2 = n)), (decide (row.2 = n)); try done. lia.
Qed.

Lemma sorted_by_count_filter (n : nat) (l : list (string * nat)) :
  filter (λ r : string * nat, r.2 = n) (analyze.sorted_by_count l)
  = filter (λ r : string * nat, r.2 = n) l.
Proof.
  induction l as [|row l IH]; simpl; [done|].
  by rewrite insert_row_filter, !filter_cons, IH.
Qed.

(** X20. [get_word_counts] returns the words with the sums of their columns,
    each pair once, in descending order of the sums. *)
Theorem get_word_counts_sorted (vectorizer : analyze.CountVectorizer) (model : list (list nat)) :
  analyze.get_word_counts vectorizer model
    ≡ₚ zip (analyze.get_feature_names vectorizer) (sum_list <$> model) ∧
  StronglySorted (λ r r' : string * nat, r'.2 ≤ r.2) (analyze.get_word_counts vectorizer model).
Proof.
  split; [apply sorted_by_count_Permutation|apply sorted_by_count_sorted].
Qed.

(** X21. The sort is stable: the words with the same count come in the order
    of the feature names. *)
Theorem get_word_counts_stable (vectorizer : analyze.CountVectorizer) (model : list (list nat))
    (n : nat) :
  filter (λ r : string * nat, r.2 = n) (analyze.get_word_counts vectorizer model)
  = filter (λ r : string * nat, r.2 = n)
      (zip (analyze.get_feature_names vectorizer) (sum_list <$> model)).
Proof. apply sorted_by_count_filter. Qed.

Lemma indices_of_ones_length (g : nat → nat → nat * nat) (rows : list nat) :
  (∀ i e, (g i e).2 = e) →
  Forall (λ e, e ≤ 1) rows →
  length (imap g rows ≫= λ '(i, e), if e =? 1 then [i] else []) = sum_list rows.
Proof.
  intros Hg H. revert g Hg. induction H as [|e rows He _ IH]; intros g Hg; [done|].
  rewrite imap_cons, bind_cons, length_app, IH by (intros i e'; apply Hg).
  specialize (Hg 0 e). destruct (g 0 e) as [i e']. simpl in *. subst e'.
  destruct e as [|[|e]]; simpl; [done|done|lia].
Qed.

Lemma binarize_le (model : list (list nat)) :
  Forall (Forall (λ e, e ≤ 1)) (analyze.binarize model).
Proof.
  unfold analyze.binarize. apply Forall_fmap, Forall_true. intros column. simpl.
  apply Forall_fmap, Forall_true. intros [|e]; simpl; lia.
Qed.

(** X22. After line 154 has put the counts to 0 and 1, the count that
    [get_word_counts] gives for a word is the number of the emails that
    [get_email_indices_for_word] gives for it. *)
Theorem word_count_is_number_of_emails (vectorizer : analyze.CountVectorizer)
    (model : list (list nat)) (word : string) (idx : nat) :
  analyze.vocabulary_ vectorizer !! word = Some idx →
  analyze.get_feature_names vectorizer !! idx = Some word →
  idx < length model →
  ∃ indices,
    analyze.get_email_indices_for_word word vectorizer (analyze.binarize model) = Some indices ∧
    (word, length indices) ∈ analyze.get_word_counts vectorizer (analyze.binarize model).
Proof.
  intros Hvoc Hname Hidx. unfold analyze.get_email_indices_for_word. rewrite Hvoc.
  destruct (lookup_lt_is_Some_2 (analyze.binarize model) idx) as [rows Hrows].
  { unfold analyze.binarize. by rewrite length_fmap. }
  rewrite Hrows. eexists. split; [done|].
  unfold analyze.get_word_counts. rewrite sorted_by_count_Permutation.
  apply list_elem_of_lookup. exists idx.
  apply lookup_zip_with_Some. exists word, (sum_list rows). split; [|split; [done|]].
  - f_equal. unfold analyze.indices_of_ones. apply indices_of_ones_length; [done|].
    by apply (Forall_lookup_1 _ _ _ _ (binarize_le model) Hrows).
  - by rewrite list_lookup_fmap, Hrows.
Qed.

(** ** analyze *)

Section Analyze.
Variable datetime : Type.
Variable parse : option string → analyze.outcome datetime.
Variable fit_transform : list string → option (analyze.CountVectorizer * list (list nat)).

Local Abbreviation parse_email := (analyze.parse_email datetime parse).
Local Abbreviation group := (analyze.group datetime parse).
Local Abbreviation analyze := (analyze.analyze datetime parse fit_transform).
Local Abbreviation corpus_row := (nat * datetime * string)%type.

Implicit Types (correspondence : gmap string (list corpus_row)).

Lemma group_Err (i : nat) (emails : list analyze.Message) correspondence (x : analyze.exc) :
  group i emails correspondence = analyze.Err x ↔
  ∃ before email after,
    emails = before ++ email :: after ∧
    Forall (λ e, ∃ r, parse_email e = analyze.Ok r) before ∧
    parse_email email = analyze.Err x.
Proof.
  revert i correspondence. induction emails as [|email rest IH]; intros i correspondence; simpl.
  - split; [done|]. intros ([|? ?] & ? & ? & ? & _); done.
  - destruct (parse_email email) as [[[from_ date] body]|e] eqn:Hp; simpl.
    + rewrite IH. split.
      * intros (before & email' & after & -> & Hb & He).
        exists (email :: before), email', after. split; [done|]. split; [|done].
        constructor; [eauto|done].
      * intros (before & email' & after & Heq & Hb & He).
        destruct before as [|e0 before]; simpl in Heq; injection Heq as -> ->; [congruence|].
        apply Forall_cons in Hb as [_ Hb]. by exists before, email', after.
    + split.
      * intros [= ->]. exists [], email, rest. split; [done|]. split; [constructor|done].
      * intros (before & email' & after & Heq & Hb & He).
        destruct before as [|e0 before]; simpl in Heq; injection Heq as -> ->; [congruence|].
        apply Forall_cons in Hb as [[r Hr] _]. congruence.
Qed.

Lemma group_rows (i : nat) (emails : list analyze.Message) correspondence correspondence'
    (author : string) (row : corpus_row) :
  group i emails correspondence = analyze.Ok correspondence' →
  row ∈ correspondence' !!! author ↔
  row ∈ correspondence !!! author ∨
  ∃ j email, emails !! j = Some email ∧
    parse_email email = analyze.Ok (author, row.1.2, Some row.2) ∧ row.1.1 = i + j.
Proof.
  revert i correspondence. induction emails as [|email rest IH]; intros i correspondence; simpl.
  - intros [= <-]. split; [by left|]. intros [?|(j & ? & ? & _)]; done.
  - destruct (parse_email email) as [[[from_ date] body]|e] eqn:Hp; simpl; [|done].
    intros Hg. rewrite (IH _ _ Hg). clear IH Hg.
    assert ((∃ j email0, rest !! j = Some email0 ∧
               parse_email email0 = analyze.Ok (author, row.1.2, Some row.2) ∧
               row.1.1 = S i + j) ↔
            (∃ j email0, (email :: rest) !! S j = Some email0 ∧
               parse_email email0 = analyze.Ok (author, row.1.2, Some row.2) ∧
               row.1.1 = i + S j)) as ->.
    { split; intros (j & e & ? & ? & ?); exists j, e; split_and!; try done; lia. }
    assert ((∃ j email0, (email :: rest) !! j = Some email0 ∧
               parse_email email0 = analyze.Ok (author, row.1.2, Some row.2) ∧
               row.1.1 = i + j) ↔
            (parse_email email = analyze.Ok (author, row.1.2, Some row.2) ∧ row.1.1 = i) ∨
            (∃ j email0, (email :: rest) !! S j = Some email0 ∧
               parse_email email0 = analyze.Ok (author, row.1.2, Some row.2) ∧
               row.1.1 = i + S j)) as ->.
    { split.
      - intros ([|j] & e & Hj & He & Hi).
        + left. simpl in Hj. simplify_eq. split; [done|lia].
        + right. eauto.
      - intros [[He Hi]|(j & e & ? & ? & ?)]; [|eauto].
        exists 0, email. split; [done|]. split; [done|lia]. }
    destruct body as [b|].
    + rewrite lookup_total_insert. destruct (decide (from_ = author)) as [->|Hne].
      * rewrite elem_of_app, list_elem_of_singleton.
        destruct row as [[j d] b']. simpl. rewrite Hp. split.
        -- intros [[?|?]|?]; [by left| |by right; right].
           simplify_eq. right. by left.
        -- intros [?|[[? ?]|?]]; [by left; left| |by right].
           simplify_eq. left. by right.
      * rewrite Hp. split.
        -- intros [?|?]; [by left|by right; right].
        -- intros [?|[[? ?]|?]]; [by left| |by right]. simplify_eq.
    + rewrite Hp. split.
      * intros [?|?]; [by left|by right; right].
      * intros [?|[[? ?]|?]]; [by left| |by right]. simplify_eq.
Qed.

(** X23. The rows that [analyze] files under an author are the emails of that
    sender that have a body, each with its index in [emails], its date
    and its body. *)
Theorem analyze_correspondence (emails : list analyze.Message) correspondence author_words
    (author : string) (i : nat) (date : datetime) (body : string) :
  analyze emails = analyze.Ok (correspondence, author_words) →
  (i, date, body) ∈ correspondence !!! author ↔
  ∃ email, emails !! i = Some email ∧ parse_email email = analyze.Ok (author, date, Some body).
Proof.
  unfold analyze.analyze, analyze.bind.
  destruct (group 0 emails ∅) as [correspondence'|] eqn:Hg; [|done].
  intros [= <- _]. rewrite (group_rows _ _ _ _ author (i, date, body) Hg).
  rewrite lookup_total_empty. simpl. split.
  - intros [[]%elem_of_nil|(j & email & Hj & He & ->)]. eauto.
  - intros (email & Hi & He). right. eauto.
Qed.

Lemma group_sorted (i : nat) (emails : list analyze.Message) correspondence correspondence' :
  group i emails correspondence = analyze.Ok correspondence' →
  (∀ author rows, correspondence !! author = Some rows →
     rows ≠ [] ∧ StronglySorted lt (rows.*1.*1) ∧ Forall (λ j, j < i) (rows.*1.*1)) →
  ∀ author rows, correspondence' !! author = Some rows →
    rows ≠ [] ∧ StronglySorted lt (rows.*1.*1) ∧
    Forall (λ j, j < i + length emails) (rows.*1.*1).
Proof.
  revert i correspondence. induction emails as [|email rest IH]; intros i correspondence; simpl.
  - intros [= <-] H author rows Hrows. destruct (H _ _ Hrows) as (? & ? & Hlt).
    split_and!; [done..|]. eapply Forall_impl; [done|]. simpl. lia.
  - destruct (parse_email email) as [[[from_ date] body]|e] eqn:Hp; simpl; [|done].
    intros Hg H author rows Hrows.
    replace (i + S (length rest)) with (S i + length rest) by lia.
    eapply (IH _ _ Hg); [|done]. clear author rows Hrows.
    intros author rows Hrows.
    assert (∀ rows0, correspondence !! author = Some rows0 →
              rows0 ≠ [] ∧ StronglySorted lt (rows0.*1.*1) ∧
              Forall (λ j, j < S i) (rows0.*1.*1)) as H'.
    { intros rows0 Hrows0. destruct (H _ _ Hrows0) as (? & ? & Hlt).
      split_and!; [done..|]. eapply Forall_impl; [done|]. simpl. lia. }
    destruct body as [b|]; [|by apply H'].
    apply lookup_insert_Some in Hrows as [[<- <-]|[_ Hrows]]; [|by apply H'].
    rewrite lookup_total_alt. rewrite !fmap_app. simpl.
    destruct (correspondence !! from_) as [rows0|] eqn:Hr0; simpl.
    + destruct (H _ _ Hr0) as (Hne & Hs & Hlt). split_and!.
      * by destruct rows0.
      * induction Hs as [|j js Hjs IHs Hj]; simpl; [repeat constructor|].
        apply Forall_cons in Hlt as [Hji Hlt]. constructor; [by apply IHs|].
        apply Forall_app. split; [done|]. by constructor.
      * apply Forall_app. split; [|repeat constructor; lia].
        eapply Forall_impl; [done|]. simpl. lia.
    + split_and!; [done|repeat constructor..].
Qed.

(** X24. No author is filed with an empty list, and the rows of an author are
    in the order of the emails: their indices increase. *)
Theorem analyze_correspondence_sorted (emails : list analyze.Message) correspondence author_words
    (author : string) (rows : list corpus_row) :
  analyze emails = analyze.Ok (correspondence, author_words) →
  correspondence !! author = Some rows →
  rows ≠ [] ∧ StronglySorted lt (rows.*1.*1) ∧ Forall (λ i, i < length emails) (rows.*1.*1).
Proof.
  unfold analyze.analyze, analyze.bind.
  destruct (group 0 emails ∅) as [correspondence'|] eqn:Hg; [|done].
  intros [= <- _] Hrows.
  refine (group_sorted 0 emails ∅ correspondence' Hg _ author rows Hrows).
  intros ? ? Hempty. by rewrite lookup_empty in Hempty.
Qed.

(** X25. [analyze] raises exactly when [parse_email] raises on one of the
    emails, and then with the exception of the first such email. *)
Theorem analyze_raises (emails : list analyze.Message) (x : analyze.exc) :
  analyze emails = analyze.Err x ↔
  ∃ before email after,
    emails = before ++ email :: after ∧
    Forall (λ e, ∃ r, parse_email e = analyze.Ok r) before ∧
    parse_email email = analyze.Err x.
Proof.
  rewrite <- (group_Err 0 emails ∅ x). unfold analyze.analyze, analyze.bind.
  destruct (group 0 emails ∅); split; congruence.
Qed.

(** X26. An author has an entry in [author_words] only with ten or more rows
    in [correspondence]; the matrix of the entry holds zeros and ones only,
    and the word counts are those of that matrix. *)
Theorem analyze_author_words (emails : list analyze.Message) correspondence author_words
    (author : string) (vectorizer : analyze.CountVectorizer) (model : list (list nat))
    (word_counts : list (string * nat)) :
  analyze emails = analyze.Ok (correspondence, author_words) →
  author_words !! author = Some (vectorizer, model, word_counts) →
  10 ≤ length (correspondence !!! author) ∧
  Forall (Forall (λ e, e ≤ 1)) model ∧
  word_counts = analyze.get_word_counts vectorizer model.
Proof.
  unfold analyze.analyze, analyze.bind.
  destruct (group 0 emails ∅) as [correspondence'|] eqn:Hg; [|done].
  intros [= <- <-]. rewrite lookup_omap, lookup_total_alt.
  destruct (correspondence' !! author) as [rows|]; simpl; [|done].
  unfold analyze.words_of. destruct (length rows <? 10) eqn:Hlen; [done|].
  apply Nat.ltb_ge in Hlen.
  destruct (fit_transform rows.*2) as [[vectorizer' model']|]; [|done].
  intros [= <- <- <-]. split; [done|]. split; [apply binarize_le|done].
Qed.

End Analyze.

(** ** The properties above on a small mailbox *)

Lemma parse_email_body_lines_witness :
  analyze.truthy (analyze.strip "Thanks, see you then.") = true ∧
  ∃ payload text,
    payload ∈ analyze.payloads_of sample_email ∧
    analyze.get_content_type payload = "text/plain" ∧
    analyze.get_payload payload = inl text ∧
    PyStr.split "Thanks, see you then." analyze.CRLF
      `sublist_of` PyStr.split text analyze.CRLF ∧
    Forall (λ line, analyze.cuts line = false ∧ analyze.truthy (analyze.strip line) = true)
      (PyStr.split "Thanks, see you then." analyze.CRLF).
Proof.
  apply (parse_email_body_lines string sample_parse sample_email
           "alice@example.org" "Tue, 6 Jan 2015 09:00:00" "Thanks, see you then.").
  vm_compute. reflexivity.
Defined.

Lemma parse_email_drops_quoted_witness :
  analyze.parse_email string sample_parse sample_email
  = analyze.parse_email string sample_parse
      (analyze.Msg (Some "Alice <Alice@Example.org>") (Some "Tue, 6 Jan 2015 09:00:00")
         "text/plain" (inl ("Thanks, see you then." +:+ analyze.CRLF))).
Proof.
  apply (parse_email_drops_quoted string sample_parse
           (Some "Alice <Alice@Example.org>") (Some "Tue, 6 Jan 2015 09:00:00")
           ("Thanks, see you then." +:+ analyze.CRLF)
           "On Mon, Jan 5, 2015 at 3:04 PM, Bob wrote:" "> Lunch on Friday?");
    vm_compute; reflexivity.
Defined.

Lemma word_count_is_number_of_emails_witness :
  ∃ indices,
    analyze.get_email_indices_for_word "thanks" sample_vectorizer
      (analyze.binarize [[0; 1; 0]; [2; 1; 0]]) = Some indices ∧
    ("thanks", length indices)
      ∈ analyze.get_word_counts sample_vectorizer (analyze.binarize [[0; 1; 0]; [2; 1; 0]]).
Proof.
  apply (word_count_is_number_of_emails sample_vectorizer [[0; 1; 0]; [2; 1; 0]] "thanks" 1);
    [vm_compute; reflexivity | reflexivity | simpl; lia].
Defined.

Lemma analyze_correspondence_witness :
  (1, "Tue, 6 Jan 2015 09:00:00", "Thanks, see you then.")
    ∈ sample_correspondence 2 !!! "alice@example.org" ↔
  ∃ email, [sample_email; sample_email] !! 1 = Some email ∧
    analyze.parse_email string sample_parse email
    = analyze.Ok ("alice@example.org", "Tue, 6 Jan 2015 09:00:00",
                  Some "Thanks, see you then.").
Proof.
  apply (analyze_correspondence string sample_parse sample_fit_transform
           [sample_email; sample_email] (sample_correspondence 2) ∅).
  vm_compute. reflexivity.
Defined.

Lemma analyze_correspondence_sorted_witness :
  sample_correspondence 2 !!! "alice@example.org" ≠ [] ∧
  StronglySorted lt ((sample_correspondence 2 !!! "alice@example.org").*1.*1) ∧
  Forall (λ i, i < 2) ((sample_correspondence 2 !!! "alice@example.org").*1.*1).
Proof.
  apply (analyze_correspondence_sorted string sample_parse sample_fit_transform
           [sample_email; sample_email] (sample_correspondence 2) ∅ "alice@example.org");
    vm_compute; reflexivity.
Defined.

Lemma analyze_author_words_witness :
  10 ≤ length (sample_correspondence 10 !!! "alice@example.org") ∧
  Forall (Forall (λ e, e ≤ 1)) [replicate 10 0; replicate 10 1] ∧
  [("thanks", 10); ("lunch", 0)]
  = analyze.get_word_counts sample_vectorizer [replicate 10 0; replicate 10 1].
Proof.
  apply (analyze_author_words string sample_parse sample_fit_transform
           (replicate 10 sample_email) (sample_correspondence 10) sample_author_words
           "alice@example.org");
    vm_compute; reflexivity.
Defined.

Lemma analyze_raises_witness :
  analyze.analyze string sample_parse sample_fit_transform
    [sample_email; sample_notice; sample_email]
  = analyze.Err (analyze.AttributeError "'NoneType' object has no attribute 'lower'").
Proof.
  apply (proj2 (analyze_raises string sample_parse sample_fit_transform
                  [sample_email; sample_notice; sample_email] _)).
  exists [sample_email], sample_notice, [sample_email]. split; [reflexivity|].
  split; [|reflexivity]. constructor; [|constructor].
  eexists. vm_compute. reflexivity.
Defined.
